(** * spglm: exponential families, link functions and variance functions

    A shallow embedding of [spglm/links.py], [spglm/varfuncs.py] and
    [spglm/family.py].

    Numbers.  The Python code computes with IEEE doubles through numpy.  The
    embedding computes with exact reals: rounding, overflow and underflow are
    abstracted away.  What is kept is the difference between a finite value
    and a non-finite one: a numpy operation applied outside its real domain
    ([log] of a non-positive number, a division by zero, a negative base
    raised to a fractional power, [sqrt] of a negative number) yields [inf]
    or [nan] in numpy and [None] here, and [None] is absorbing.  So
    [f x = Some r] reads "the code returns the finite number [r] (up to
    rounding) and every intermediate value is finite", and [f x = None] reads
    "the code produces inf or nan at some step" (or, where a definition says
    so, raises).  Arrays are lists, numpy's elementwise operations are maps.

    Where doubles and reals part at ordinary magnitudes ([exp] overflows
    above 709.78, [1 / (1 + exp(-z))] is the double 1.0 from [z] about 37
    on, a difference of nearly equal numbers loses its digits), the
    properties are stated on ranges on which the computation is well
    conditioned: [separated] data, means of the [stable_range] of a link,
    bounded linear predictors. *)

From Stdlib Require Import Reals Lra Lia List Bool String Ascii ZArith Floats.
Import ListNotations.
Open Scope R_scope.

(** ** A small error monad on [option] *)

Definition bind {A B : Type} (m : option A) (k : A -> option B) : option B :=
  match m with
  | Some a => k a
  | None => None
  end.

Notation "x <- m ;; k" := (bind m (fun x => k))
  (at level 61, m at next level, right associativity).

(** ** numpy primitives *)

Module Np.

(** [np.finfo(float).eps], the gap between 1.0 and the next double. *)
Definition FLOAT_EPS : R := / 2 ^ 52.

(** [np.clip(x, lo, hi)] is [minimum(maximum(x, lo), hi)]. *)
Definition clip (x lo hi : R) : R := Rmin (Rmax x lo) hi.

(** [np.clip(x, lo, np.inf)]: the upper bound never binds. *)
Definition clip_inf (x lo : R) : R := Rmax x lo.

Definition log (x : R) : option R :=
  if Rlt_dec 0 x then Some (ln x) else None.

Definition div (x y : R) : option R :=
  if Req_dec_T y 0 then None else Some (x / y).

Definition sqrt (x : R) : option R :=
  if Rle_dec 0 x then Some (R_sqrt.sqrt x) else None.

Definition sign (x : R) : R :=
  if Rlt_dec x 0 then -1 else if Rlt_dec 0 x then 1 else 0.

Definition fabs (x : R) : R := Rabs x.

(** [np.power(x, k)] for a float exponent, as C's [pow]: anything to the
    power 0 is 1; a positive base has every power; 0 has its positive
    powers (a negative one is inf); a negative base has its integer powers
    only (the others are nan). *)
Definition power (x k : R) : option R :=
  if Req_dec_T k 0 then Some 1
  else if Rlt_dec 0 x then Some (Rpower x k)
  else if Req_dec_T x 0 then (if Rlt_dec 0 k then Some 0 else None)
  else if Req_dec_T k (IZR (Int_part k)) then Some (powerRZ x (Int_part k))
  else None.

(** [np.sum] of an array: finite when every entry is. *)
Fixpoint sum (a : list (option R)) : option R :=
  match a with
  | [] => Some 0
  | x :: a' => v <- x ;; s <- sum a' ;; Some (v + s)
  end.

(** Elementwise binary and ternary operations on arrays of one shape. *)
Fixpoint map2 {A B C : Type} (f : A -> B -> C) (a : list A) (b : list B)
  : list C :=
  match a, b with
  | x :: a', y :: b' => f x y :: map2 f a' b'
  | _, _ => []
  end.

Fixpoint map3 {A B C D : Type} (f : A -> B -> C -> D)
  (a : list A) (b : list B) (c : list C) : list D :=
  match a, b, c with
  | x :: a', y :: b', z :: c' => f x y z :: map3 f a' b' c'
  | _, _, _ => []
  end.

End Np.

(** ** scipy.stats distributions

    [links.CDFLink] is parameterised by a [scipy.stats] continuous
    distribution, of which it calls [ppf], [cdf] and [pdf].  scipy is not
    part of this repository: a distribution is a record of the three
    functions, and what a proof needs of them is the hypothesis [dist_ok]. *)

Record Dist : Type := mkDist {
  ppf : R -> R;
  cdf : R -> R;
  pdf : R -> R
}.

Record dist_ok (d : Dist) : Prop := mk_dist_ok {
  cdf_ppf : forall p, 0 < p < 1 -> cdf d (ppf d p) = p;
  ppf_cdf : forall z, ppf d (cdf d z) = z;
  cdf_range : forall z, 0 < cdf d z < 1;
  pdf_pos : forall z, 0 < pdf d z
}.

(** [scipy.stats.cauchy], the standard Cauchy distribution. *)
Definition scipy_stats_cauchy : Dist :=
  {| ppf := fun p => tan (PI * (p - / 2));
     cdf := fun z => / 2 + atan z / PI;
     pdf := fun z => / (PI * (1 + z ^ 2)) |}.

(** ** links.py *)

Module L.

(** The classes of [links.py]. *)
Inductive cls : Set :=
| Link | Logit | logit | Power | inverse_power | sqrt | inverse_squared
| identity | Log | log | CDFLink | probit | cauchy | CLogLog | cloglog
| NegativeBinomial | nbinom.

Definition cls_eqb (c d : cls) : bool :=
  match c, d with
  | Link, Link | Logit, Logit | logit, logit | Power, Power
  | inverse_power, inverse_power | sqrt, sqrt
  | inverse_squared, inverse_squared | identity, identity | Log, Log
  | log, log | CDFLink, CDFLink | probit, probit | cauchy, cauchy
  | CLogLog, CLogLog | cloglog, cloglog
  | NegativeBinomial, NegativeBinomial | nbinom, nbinom => true
  | _, _ => false
  end.

(** The base class written in each [class] statement; [None] is [object].
    [NegativeBinomial] is declared without a base: it is not a [Link]. *)
Definition base (c : cls) : option cls :=
  match c with
  | Link => None
  | Logit => Some Link
  | logit => Some Logit
  | Power => Some Link
  | inverse_power | sqrt | inverse_squared | identity => Some Power
  | Log => Some Link
  | log => Some Log
  | CDFLink => Some Logit
  | probit | cauchy => Some CDFLink
  | CLogLog => Some Logit
  | cloglog => Some CLogLog
  | NegativeBinomial => None
  | nbinom => Some NegativeBinomial
  end.

(** Method resolution order of a class (single inheritance): the class, its
    base, the base of its base, ...  No chain is longer than four classes. *)
Fixpoint mro_fuel (fuel : nat) (c : cls) : list cls :=
  match fuel with
  | O => [c]
  | S fuel' =>
      match base c with
      | Some b => c :: mro_fuel fuel' b
      | None => [c]
      end
  end.

Definition mro (c : cls) : list cls := mro_fuel 4 c.

Definition issubclass (c d : cls) : bool := existsb (cls_eqb d) (mro c).

(** [__name__] of a class and its [repr], [<class 'spglm.links.log'>]. *)
Definition name (c : cls) : string :=
  match c with
  | Link => "Link" | Logit => "Logit" | logit => "logit" | Power => "Power"
  | inverse_power => "inverse_power" | sqrt => "sqrt"
  | inverse_squared => "inverse_squared" | identity => "identity"
  | Log => "Log" | log => "log" | CDFLink => "CDFLink" | probit => "probit"
  | cauchy => "cauchy" | CLogLog => "CLogLog" | cloglog => "cloglog"
  | NegativeBinomial => "NegativeBinomial" | nbinom => "nbinom"
  end%string.

Definition repr_cls (c : cls) : string :=
  ("<class 'spglm.links." ++ name c ++ "'>")%string.

(** An instance: its class, the attributes its [__init__] sets ([None] when
    the class sets no such attribute) and the address [id] prints. *)
Record instance : Type := mkInstance {
  class_of : cls;
  power : option R;
  alpha : option R;
  dbn : option Dist;
  addr : string
}.

Definition isinstance (l : instance) (c : cls) : bool :=
  issubclass (class_of l) c.

(** No class defines [__str__] or [__repr__]: [str(link)] is [object]'s,
    [<spglm.links.Logit object at 0x7f...>]. *)
Definition str (l : instance) : string :=
  ("<spglm.links." ++ name (class_of l) ++ " object at " ++ addr l ++ ">")%string.

(** Which class of the MRO a method lookup stops at. *)
Definition lookup (defines : cls -> bool) (c : cls) : option cls :=
  find defines (mro c).

(** [__call__], [inverse], [deriv] and [inverse_deriv] are defined by the
    same seven classes. *)
Definition defines_transform (c : cls) : bool :=
  match c with
  | Link | Logit | Power | Log | CDFLink | CLogLog | NegativeBinomial => true
  | _ => false
  end.

Definition defines_clean (c : cls) : bool :=
  match c with
  | Logit | Log | NegativeBinomial => true
  | _ => false
  end.

(** *** Logit *)

Definition Logit_clean (p : R) : R :=
  Np.clip p Np.FLOAT_EPS (1 - Np.FLOAT_EPS).

Definition Logit_call (p : R) : option R :=
  let p := Logit_clean p in
  q <- Np.div p (1 - p) ;; Np.log q.

Definition Logit_inverse (z : R) : option R :=
  let t := exp (- z) in
  Np.div 1 (1 + t).

Definition Logit_deriv (p : R) : option R :=
  let p := Logit_clean p in
  Np.div 1 (p * (1 - p)).

Definition Logit_inverse_deriv (z : R) : option R :=
  let t := exp z in
  Np.div t ((1 + t) ^ 2).

Definition Logit_deriv2 (p : R) : option R :=
  let v := p * (1 - p) in
  Np.div (2 * p - 1) (v ^ 2).

(** *** Power *)

Definition Power_call (k : R) (p : R) : option R := Np.power p k.

(** [1.0 / self.power] is a Python float division: a zero power raises
    ZeroDivisionError ([None]). *)
Definition Power_inverse (k : R) (z : R) : option R :=
  e <- Np.div 1 k ;; Np.power z e.

Definition Power_deriv (k : R) (p : R) : option R :=
  x <- Np.power p (k - 1) ;; Some (k * x).

Definition Power_deriv2 (k : R) (p : R) : option R :=
  x <- Np.power p (k - 2) ;; Some (k * (k - 1) * x).

Definition Power_inverse_deriv (k : R) (z : R) : option R :=
  e <- Np.div (1 - k) k ;; x <- Np.power z e ;; Np.div x k.

(** *** Log *)

Definition Log_clean (x : R) : R := Np.clip_inf x Np.FLOAT_EPS.

Definition Log_call (p : R) : option R :=
  let x := Log_clean p in
  Np.log x.

Definition Log_inverse (z : R) : option R := Some (exp z).

Definition Log_deriv (p : R) : option R :=
  let p := Log_clean p in
  Np.div 1 p.

Definition Log_deriv2 (p : R) : option R :=
  let p := Log_clean p in
  Np.div (-1) (p ^ 2).

Definition Log_inverse_deriv (z : R) : option R := Some (exp z).

(** *** CDFLink (a subclass of Logit, for its [_clean]) *)

Definition CDFLink_call (d : Dist) (p : R) : option R :=
  let p := Logit_clean p in
  Some (ppf d p).

Definition CDFLink_inverse (d : Dist) (z : R) : option R := Some (cdf d z).

Definition CDFLink_deriv (d : Dist) (p : R) : option R :=
  let p := Logit_clean p in
  Np.div 1 (pdf d (ppf d p)).

Definition CDFLink_inverse_deriv (d : Dist) (z : R) : option R :=
  p <- CDFLink_inverse d z ;; g <- CDFLink_deriv d p ;; Np.div 1 g.

(** [cauchy.deriv2], the one method [cauchy] overrides. *)
Definition cauchy_deriv2 (p : R) : option R :=
  let a := PI * (p - / 2) in
  Np.div (2 * PI ^ 2 * sin a) (cos a ^ 3).

(** *** CLogLog (a subclass of Logit, for its [_clean]) *)

Definition CLogLog_call (p : R) : option R :=
  let p := Logit_clean p in
  a <- Np.log (1 - p) ;; Np.log (- a).

Definition CLogLog_inverse (z : R) : option R := Some (1 - exp (- exp z)).

Definition CLogLog_deriv (p : R) : option R :=
  let p := Logit_clean p in
  a <- Np.log (1 - p) ;; Np.div 1 ((p - 1) * a).

Definition CLogLog_deriv2 (p : R) : option R :=
  let p := Logit_clean p in
  fl <- Np.log (1 - p) ;;
  d2 <- Np.div (-1) ((1 - p) ^ 2 * fl) ;;
  r <- Np.div 1 fl ;;
  Some (d2 * (1 + r)).

Definition CLogLog_inverse_deriv (z : R) : option R :=
  Some (exp (z - exp z)).

(** *** NegativeBinomial *)

Definition NegativeBinomial_clean (x : R) : R := Np.clip_inf x Np.FLOAT_EPS.

(** [1 / self.alpha] is a Python float division: a zero alpha raises
    ZeroDivisionError ([None]). *)
Definition NegativeBinomial_call (a : R) (p : R) : option R :=
  let p := NegativeBinomial_clean p in
  ia <- Np.div 1 a ;; q <- Np.div p (p + ia) ;; Np.log q.

Definition NegativeBinomial_inverse (a : R) (z : R) : option R :=
  Np.div (-1) (a * (1 - exp (- z))).

Definition NegativeBinomial_deriv (a : R) (p : R) : option R :=
  Np.div 1 (p + a * p ^ 2).

Definition NegativeBinomial_deriv2 (a : R) (p : R) : option R :=
  let numer := - (1 + 2 * a * p) in
  let denom := (p + a * p ^ 2) ^ 2 in
  Np.div numer denom.

Definition NegativeBinomial_inverse_deriv (a : R) (z : R) : option R :=
  let t := exp z in
  Np.div t (a * (1 - t) ^ 2).

(** *** Method dispatch on an instance

    The placeholder methods of the base class [Link] return the class
    [NotImplementedError] itself, which is not a number: [None].  A missing
    attribute ([power], [alpha], [dbn]) is an AttributeError: [None]. *)

Definition call (l : instance) (p : R) : option R :=
  match lookup defines_transform (class_of l) with
  | Some Logit => Logit_call p
  | Some Power => k <- power l ;; Power_call k p
  | Some Log => Log_call p
  | Some CDFLink => d <- dbn l ;; CDFLink_call d p
  | Some CLogLog => CLogLog_call p
  | Some NegativeBinomial => a <- alpha l ;; NegativeBinomial_call a p
  | _ => None
  end.

Definition inverse (l : instance) (z : R) : option R :=
  match lookup defines_transform (class_of l) with
  | Some Logit => Logit_inverse z
  | Some Power => k <- power l ;; Power_inverse k z
  | Some Log => Log_inverse z
  | Some CDFLink => d <- dbn l ;; CDFLink_inverse d z
  | Some CLogLog => CLogLog_inverse z
  | Some NegativeBinomial => a <- alpha l ;; NegativeBinomial_inverse a z
  | _ => None
  end.

Definition deriv (l : instance) (p : R) : option R :=
  match lookup defines_transform (class_of l) with
  | Some Logit => Logit_deriv p
  | Some Power => k <- power l ;; Power_deriv k p
  | Some Log => Log_deriv p
  | Some CDFLink => d <- dbn l ;; CDFLink_deriv d p
  | Some CLogLog => CLogLog_deriv p
  | Some NegativeBinomial => a <- alpha l ;; NegativeBinomial_deriv a p
  | _ => None
  end.

(** [Link.inverse_deriv], the reference implementation the subclasses
    override: [1 / self.deriv(self.inverse(z))]. *)
Definition Link_inverse_deriv (l : instance) (z : R) : option R :=
  p <- inverse l z ;; g <- deriv l p ;; Np.div 1 g.

Definition inverse_deriv (l : instance) (z : R) : option R :=
  match lookup defines_transform (class_of l) with
  | Some Link => Link_inverse_deriv l z
  | Some Logit => Logit_inverse_deriv z
  | Some Power => k <- power l ;; Power_inverse_deriv k z
  | Some Log => Log_inverse_deriv z
  | Some CDFLink => d <- dbn l ;; CDFLink_inverse_deriv d z
  | Some CLogLog => CLogLog_inverse_deriv z
  | Some NegativeBinomial => a <- alpha l ;; NegativeBinomial_inverse_deriv a z
  | _ => None
  end.

(** [link._clean(p)]: [Power] and its subclasses have no such method
    (AttributeError, [None]). *)
Definition _clean (l : instance) (p : R) : option R :=
  match lookup defines_clean (class_of l) with
  | Some Logit => Some (Logit_clean p)
  | Some Log => Some (Log_clean p)
  | Some NegativeBinomial => Some (NegativeBinomial_clean p)
  | _ => None
  end.

(** *** Construction: [c()] with the default arguments of [c.__init__] *)

Definition defines_init (c : cls) : bool :=
  match c with
  | Power | inverse_power | sqrt | inverse_squared | identity
  | CDFLink | cauchy | NegativeBinomial => true
  | _ => false
  end.

Section Construction.

(** [scipy.stats.norm], the default [dbn] of [CDFLink]. *)
Variable scipy_stats_norm : Dist.

Definition new (c : cls) (a : string) : instance :=
  match lookup defines_init c with
  | Some Power => mkInstance c (Some 1) None None a
  | Some inverse_power => mkInstance c (Some (-1)) None None a
  | Some sqrt => mkInstance c (Some (/ 2)) None None a
  | Some inverse_squared => mkInstance c (Some (-2)) None None a
  | Some identity => mkInstance c (Some 1) None None a
  | Some CDFLink => mkInstance c None None (Some scipy_stats_norm) a
  | Some cauchy => mkInstance c None None (Some scipy_stats_cauchy) a
  | Some NegativeBinomial => mkInstance c None (Some 1) None a
  | _ => mkInstance c None None None a
  end.

End Construction.

End L.

(** ** varfuncs.py *)

Module V.

(** The variance function classes, with the attribute each [__init__] sets. *)
Inductive varfunc : Type :=
| VarianceFunction
| Power (power : R)
| Binomial (n : R)
| NegativeBinomial (alpha : R).

Definition Binomial_clean (p : R) : R :=
  Np.clip p Np.FLOAT_EPS (1 - Np.FLOAT_EPS).

Definition NegativeBinomial_clean (p : R) : R :=
  Np.clip_inf p Np.FLOAT_EPS.

(** [__call__] *)
Definition call (v : varfunc) (mu : R) : option R :=
  match v with
  | VarianceFunction => Some 1
  | Power k => Np.power (Np.fabs mu) k
  | Binomial n =>
      q <- Np.div mu n ;;
      let p := Binomial_clean q in
      Some (p * (1 - p) * n)
  | NegativeBinomial a =>
      let p := NegativeBinomial_clean mu in
      Some (p + a * p ^ 2)
  end.

Definition NegativeBinomial_deriv (a : R) (mu : R) : option R :=
  let p := NegativeBinomial_clean mu in
  Some (1 + 2 * a * p).

(** The module-level instances. *)
Definition constant : varfunc := VarianceFunction.
Definition mu : varfunc := Power 1.
Definition mu_squared : varfunc := Power 2.
Definition mu_cubed : varfunc := Power 3.
Definition binary : varfunc := Binomial 1.
Definition nbinom : varfunc := NegativeBinomial 1.

End V.

(** ** family.py *)

Module F.

(** The classes of [family.py]. *)
Inductive kind : Set :=
| Family | Poisson | QuasiPoisson | Gaussian | Gamma | Binomial.

(** The class attribute [links]: a list of link classes. *)
Definition links (k : kind) : list L.cls :=
  match k with
  | Family => []
  | Poisson => [L.log; L.identity; L.sqrt]
  | QuasiPoisson => [L.log; L.identity; L.sqrt]
  | Gaussian => [L.log; L.identity; L.inverse_power]
  | Gamma => [L.log; L.identity; L.inverse_power]
  | Binomial => [L.logit; L.probit; L.cauchy; L.log; L.cloglog; L.identity]
  end.

Definition safe_links (k : kind) : list L.cls :=
  match k with
  | Family => []
  | Poisson | QuasiPoisson | Gamma => [L.Log]
  | Gaussian => links Gaussian
  | Binomial => [L.Logit; L.CDFLink]
  end.

(** What can be assigned to the [link] property: an instance of a class of
    [links.py], or any other Python object (given by its [str]). *)
Inductive pyobj : Type :=
| Inst (l : L.instance)
| Foreign (s : string).

(** [Binomial.n]: the Python int 1 that [__init__] stores (shape [()]), or
    the 1-d array [endog.sum(1)] that [initialize] stores. *)
Inductive nval : Type :=
| NScalar (r : R)
| NArray (a : list R).

(** An instance of a family class.  [_link] is [None] until the first
    assignment; [n] is [None] for the classes that have no such attribute. *)
Record family : Type := mkFamily {
  kind_of : kind;
  _link : option pyobj;
  variance : V.varfunc;
  n : option nval
}.

Inductive exn : Set :=
| TypeError (msg : string)
| ValueError (msg : string).

Inductive res (A : Type) : Type :=
| Ok (a : A)
| Raise (e : exn).

Arguments Ok {A} a.
Arguments Raise {A} e.

(** [isinstance(link, c)] for any object. *)
Definition isinstance (link : pyobj) (c : L.cls) : bool :=
  match link with
  | Inst l => L.isinstance l c
  | Foreign _ => false
  end.

Definition str (link : pyobj) : string :=
  match link with
  | Inst l => L.str l
  | Foreign s => s
  end.

(** [repr] of a list of classes: [[<class ...>, <class ...>]]. *)
Fixpoint join (sep : string) (l : list string) : string :=
  match l with
  | [] => ""
  | [s] => s
  | s :: l' => s ++ sep ++ join sep l'
  end%string.

Definition repr_links (ls : list L.cls) : string :=
  ("[" ++ join ", " (map L.repr_cls ls) ++ "]")%string.

(** ["Invalid link for family, should be in %s. (got %s)" % (r, s)] *)
Definition errmsg (r s : string) : string :=
  ("Invalid link for family, should be in " ++ r ++ ". (got " ++ s ++ ")")%string.

(** [max] of a list of booleans; of the empty list it raises ValueError
    (the text is CPython's). *)
Definition max (bs : list bool) : res bool :=
  match bs with
  | [] => Raise (ValueError "max() arg is an empty sequence")
  | b :: bs' => Ok (fold_left orb bs' b)
  end.

(** [Family._setlink]: the new state of [self] and the outcome.  Every class
    has the attribute [links], so [hasattr(self, "links")] holds; the first
    value of [validlink] ([link in self.links]) is overwritten unread. *)
Definition _setlink (self : family) (link : pyobj) : family * res unit :=
  let self :=
    mkFamily (kind_of self) (Some link) (variance self) (n self) in
  if negb (isinstance link L.Link) then
    (self, Raise (TypeError "The input should be a valid Link object."))
  else
    match max (map (isinstance link) (links (kind_of self))) with
    | Raise e => (self, Raise e)
    | Ok validlink =>
        if negb validlink then
          (self, Raise (ValueError
                   (errmsg (repr_links (links (kind_of self))) (str link))))
        else (self, Ok tt)
    end.

Definition _getlink (self : family) : option pyobj := _link self.

(** The link as the numeric methods use it. *)
Definition link (self : family) : option L.instance :=
  match _getlink self with
  | Some (Inst l) => Some l
  | _ => None
  end.

Section Construction.

Variable scipy_stats_norm : Dist.

(** The [__init__] of the five subclasses: set the attributes, then
    [self.link = link()].  The object exists only if no exception is raised.
    [a] is the address of the new link instance. *)
Definition init_with (self : family) (c : L.cls) (a : string) : res family :=
  match _setlink self (Inst (L.new scipy_stats_norm c a)) with
  | (self', Ok _) => Ok self'
  | (_, Raise e) => Raise e
  end.

Definition Poisson_init (c : L.cls) (a : string) : res family :=
  init_with (mkFamily Poisson None V.mu None) c a.

Definition QuasiPoisson_init (c : L.cls) (a : string) : res family :=
  init_with (mkFamily QuasiPoisson None V.mu None) c a.

Definition Gaussian_init (c : L.cls) (a : string) : res family :=
  init_with (mkFamily Gaussian None V.constant None) c a.

Definition Gamma_init (c : L.cls) (a : string) : res family :=
  init_with (mkFamily Gamma None V.mu_squared None) c a.

Definition Binomial_init (c : L.cls) (a : string) : res family :=
  init_with (mkFamily Binomial None (V.Binomial 1) (Some (NScalar 1))) c a.

(** [Family.__init__(link, variance)] assigns the link first. *)
Definition Family_init (c : L.cls) (v : V.varfunc) (a : string) : res family :=
  init_with (mkFamily Family None v None) c a.

(** Construction of a family of class [k] with link class [c]. *)
Definition init (k : kind) (c : L.cls) (a : string) : res family :=
  match k with
  | Family => Family_init c V.constant a
  | Poisson => Poisson_init c a
  | QuasiPoisson => QuasiPoisson_init c a
  | Gaussian => Gaussian_init c a
  | Gamma => Gamma_init c a
  | Binomial => Binomial_init c a
  end.

(** The default value of the [link] argument. *)
Definition default_link (k : kind) : L.cls :=
  match k with
  | Poisson | QuasiPoisson => L.log
  | Gaussian => L.identity
  | Gamma => L.inverse_power
  | Binomial => L.logit
  | Family => L.Link
  end.

End Construction.

(** *** Family: the methods every class inherits *)

Definition weights (self : family) (mu : R) : option R :=
  l <- link self ;;
  d <- L.deriv l mu ;;
  v <- V.call (variance self) mu ;;
  Np.div 1 (d ^ 2 * v).

Definition fitted (self : family) (lin_pred : R) : option R :=
  l <- link self ;; L.inverse l lin_pred.

Definition predict (self : family) (mu : R) : option R :=
  l <- link self ;; L.call l mu.

(** *** Poisson and QuasiPoisson (the same bodies) *)

Definition Poisson_clean (x : R) : R := Np.clip_inf x Np.FLOAT_EPS.

Definition Poisson_resid_dev (endog mu : list R) (scale : R)
  : list (option R) :=
  Np.map2 (fun y m =>
    q <- Np.div y m ;;
    let endog_mu := Poisson_clean q in
    lg <- Np.log endog_mu ;;
    s <- Np.sqrt (2 * (y * lg - (y - m))) ;;
    Np.div (Np.sign (y - m) * s) scale) endog mu.

Definition Poisson_deviance (endog mu freq_weights : list R) (scale : R)
  : option R :=
  s <- Np.sum (Np.map3 (fun y m w =>
         q <- Np.div y m ;;
         let endog_mu := Poisson_clean q in
         lg <- Np.log endog_mu ;;
         Some (y * w * lg)) endog mu freq_weights) ;;
  Np.div (2 * s) scale.

(** *** Gaussian *)

Definition Gaussian_resid_dev (self : family) (endog mu : list R) (scale : R)
  : list (option R) :=
  Np.map2 (fun y m =>
    v <- V.call (variance self) m ;;
    s <- Np.sqrt v ;;
    r <- Np.div (y - m) s ;;
    Np.div r scale) endog mu.

Definition Gaussian_deviance (endog mu freq_weights : list R) (scale : R)
  : option R :=
  s <- Np.sum (Np.map3 (fun y m w => Some (w * (y - m) ^ 2))
         endog mu freq_weights) ;;
  Np.div s scale.

(** [isinstance(self.link, L.Power) and self.link.power == 1] *)
Definition is_identity_power (self : family) : bool :=
  match link self with
  | Some l =>
      L.isinstance l L.Power &&
      match L.power l with
      | Some k => if Req_dec_T k 1 then true else false
      | None => false
      end
  | None => false
  end.

Definition Gaussian_loglike (self : family) (endog mu freq_weights : list R)
  (scale : R) : option R :=
  if is_identity_power self then
    let nobs2 := INR (List.length endog) / 2 in
    SSR <- Np.sum (Np.map2 (fun y m =>
             f <- fitted self m ;; Some ((y - f) ^ 2)) endog mu) ;;
    lg <- Np.log SSR ;;
    let llf := - lg * nobs2 in
    q <- Np.div PI nobs2 ;;
    lq <- Np.log q ;;
    Some (llf - (1 + lq) * nobs2)
  else
    Np.sum (Np.map3 (fun y m w =>
      a <- Np.div (y * m - m ^ 2 / 2) scale ;;
      b <- Np.div (y ^ 2) (2 * scale) ;;
      lg <- Np.log (2 * PI * scale) ;;
      Some (w * (a - b - / 2 * lg))) endog mu freq_weights).

(** *** Gamma ([scale] is accepted and not used) *)

Definition Gamma_clean (x : R) : R := Np.clip_inf x Np.FLOAT_EPS.

Definition Gamma_deviance (endog mu freq_weights : list R) (scale : R)
  : option R :=
  s <- Np.sum (Np.map3 (fun y m w =>
         q <- Np.div y m ;;
         let endog_mu := Gamma_clean q in
         r <- Np.div (y - m) m ;;
         lg <- Np.log endog_mu ;;
         Some (w * (r - lg))) endog mu freq_weights) ;;
  Some (2 * s).

Definition Gamma_resid_dev (endog mu : list R) (scale : R)
  : list (option R) :=
  Np.map2 (fun y m =>
    q <- Np.div y m ;;
    let endog_mu := Gamma_clean q in
    r <- Np.div (- (y - m)) m ;;
    lg <- Np.log endog_mu ;;
    s <- Np.sqrt (-2 * (r + lg)) ;;
    Some (Np.sign (y - m) * s)) endog mu.

(** *** Binomial *)

(** The guard [1e-200] added inside the logarithms. *)
Definition tiny : R := / 10 ^ 200.

(** An [endog] array: 1-d, or 2-d with [ncols] columns. *)
Inductive ndarray (A : Type) : Type :=
| A1 (a : list A)
| A2 (ncols : nat) (rows : list (list A)).

Arguments A1 {A} a.
Arguments A2 {A} ncols rows.

Definition nd_map {A B : Type} (f : A -> B) (e : ndarray A) : ndarray B :=
  match e with
  | A1 a => A1 (map f a)
  | A2 c rows => A2 c (map (map f) rows)
  end.

(** [endog.shape[0]] *)
Definition shape0 {A : Type} (e : ndarray A) : nat :=
  match e with
  | A1 a => List.length a
  | A2 _ rows => List.length rows
  end.

(** [Binomial.initialize]: the new state of [self] and the returned pair.
    For a 2-d [endog] with more than one column, [y] is column 0 and [n] the
    row sums.  [freq_weights] is not read. *)
Definition initialize (self : family) (endog : ndarray R)
  (freq_weights : list R)
  : family * (ndarray (option R) * list R) :=
  match endog with
  | A2 ncols rows =>
      if (1 <? ncols)%nat then
        let y := map (fun row => nth 0 row 0) rows in
        let n' := map (fun row => fold_right Rplus 0 row) rows in
        let self :=
          mkFamily (kind_of self) (_link self) (variance self)
                   (Some (NArray n')) in
        (self, (A1 (Np.map2 (fun yi ni => Np.div (yi * 1) ni) y n'), n'))
      else (self, (nd_map Some endog, repeat 1 (shape0 endog)))
  | A1 _ => (self, (nd_map Some endog, repeat 1 (shape0 endog)))
  end.

(** [np.shape(self.n) == () and self.n == 1] *)
Definition n_is_one (self : family) : option bool :=
  nv <- n self ;;
  Some match nv with
       | NScalar r => if Req_dec_T r 1 then true else false
       | NArray _ => false
       end.

(** [self.n] broadcast against an array of [len] observations. *)
Definition n_array (nv : nval) (len : nat) : list R :=
  match nv with
  | NScalar r => repeat r len
  | NArray a => a
  end.

(** [np.equal(endog, 1)] as a number *)
Definition equal_one (y : R) : R := if Req_dec_T y 1 then 1 else 0.

Definition Binomial_deviance (self : family) (endog mu freq_weights : list R)
  (scale : R) : option R :=
  b <- n_is_one self ;;
  if (b : bool) then
    s <- Np.sum (Np.map3 (fun y m w =>
           let one := equal_one y in
           l1 <- Np.log (m + tiny) ;;
           l0 <- Np.log (1 - m + tiny) ;;
           Some ((one * l1 + (1 - one) * l0) * w)) endog mu freq_weights) ;;
    Some (-2 * s)
  else
    nv <- n self ;;
    let nw := Np.map2 Rmult (n_array nv (List.length endog)) freq_weights in
    s <- Np.sum (Np.map3 (fun nwi y m =>
           q1 <- Np.div y m ;;
           l1 <- Np.log (q1 + tiny) ;;
           q0 <- Np.div (1 - y) (1 - m) ;;
           l0 <- Np.log (q0 + tiny) ;;
           Some (nwi * (y * l1 + (1 - y) * l0))) nw endog mu) ;;
    Some (2 * s).

(** [self.link._clean] is looked up once, before the arrays are read: a link
    without [_clean] makes the whole call raise (outer [None]). *)
Definition Binomial_resid_dev (self : family) (endog mu : list R) (scale : R)
  : option (list (option R)) :=
  l <- link self ;;
  _ <- L._clean l 0 ;;
  b <- n_is_one self ;;
  if (b : bool) then
    Some (Np.map2 (fun y m =>
      m <- L._clean l m ;;
      let one := equal_one y in
      lg <- Np.log (one * m + (1 - one) * (1 - m)) ;;
      s <- Np.sqrt (-2 * lg) ;;
      Np.div (Np.sign (y - m) * s) scale) endog mu)
  else
    nv <- n self ;;
    Some (Np.map3 (fun ni y m =>
      m <- L._clean l m ;;
      q1 <- Np.div y m ;;
      l1 <- Np.log (q1 + tiny) ;;
      q0 <- Np.div (1 - y) (1 - m) ;;
      l0 <- Np.log (q0 + tiny) ;;
      s <- Np.sqrt (2 * ni * (y * l1 + (1 - y) * l0)) ;;
      Np.div (Np.sign (y - m) * s) scale)
      (n_array nv (List.length endog)) endog mu).

(** *** Dispatch on the class of [self]

    The base class raises NotImplementedError ([None]). *)

Definition resid_dev (self : family) (endog mu : list R) (scale : R)
  : option (list (option R)) :=
  match kind_of self with
  | Family => None
  | Poisson | QuasiPoisson => Some (Poisson_resid_dev endog mu scale)
  | Gaussian => Some (Gaussian_resid_dev self endog mu scale)
  | Gamma => Some (Gamma_resid_dev endog mu scale)
  | Binomial => Binomial_resid_dev self endog mu scale
  end.

Definition deviance (self : family) (endog mu freq_weights : list R)
  (scale : R) : option R :=
  match kind_of self with
  | Family => None
  | Poisson | QuasiPoisson => Poisson_deviance endog mu freq_weights scale
  | Gaussian => Gaussian_deviance endog mu freq_weights scale
  | Gamma => Gamma_deviance endog mu freq_weights scale
  | Binomial => Binomial_deviance self endog mu freq_weights scale
  end.

End F.

(** The frequency-weighted sum of the squares of an array of residuals. *)
Definition weighted_sum_sq (freq_weights : list R) (resid : list (option R))
  : option R :=
  Np.sum (Np.map2 (fun w r => v <- r ;; Some (w * v ^ 2)) freq_weights resid).

(** [sub in s], for Python strings. *)
Fixpoint contains (sub s : string) : bool :=
  prefix sub s ||
  match s with
  | EmptyString => false
  | String _ s' => contains sub s'
  end.

(** Text of an exception. *)
Definition exn_msg (e : F.exn) : string :=
  match e with
  | F.TypeError m => m
  | F.ValueError m => m
  end.

(** The error an invalid link is rejected with: TypeError with a fixed text
    for an object that is not a [Link]; for a [Link], ValueError with a text
    that contains [repr] of the accepted classes and [str] of the link. *)
Definition invalid_link_error (k : F.kind) (link : F.pyobj) (e : F.exn) : Prop :=
  (F.isinstance link L.Link = false /\
   e = F.TypeError "The input should be a valid Link object.") \/
  (F.isinstance link L.Link = true /\
   e = F.ValueError (F.errmsg (F.repr_links (F.links k)) (F.str link)) /\
   contains (F.str link) (exn_msg e) = true /\
   contains (F.repr_links (F.links k)) (exn_msg e) = true).

(** The Binomial variance formula with [n] trials, as the specification
    writes it: [clip(mu/n, eps, 1-eps) * (1 - clip(mu/n, eps, 1-eps)) * n]. *)
Definition binomial_variance_formula (n mu : R) : R :=
  Np.clip (mu / n) Np.FLOAT_EPS (1 - Np.FLOAT_EPS) *
  (1 - Np.clip (mu / n) Np.FLOAT_EPS (1 - Np.FLOAT_EPS)) * n.

(** A two-column [endog]: one row [(successes, failures)] per observation. *)
Definition two_columns (successes failures : list R) : F.ndarray R :=
  F.A2 2 (Np.map2 (fun s f => [s; f]) successes failures).

(** The sum of squared differences between the response and the fitted
    means, and the closed form of the OLS log-likelihood,
    [-(n/2) ln(SSR) - (n/2) (1 + ln(2 pi / n))]. *)
Definition SSR (endog mu : list R) : R :=
  fold_right Rplus 0 (Np.map2 (fun y m => (y - m) ^ 2) endog mu).

Definition ols_loglike (endog mu : list R) : R :=
  let n := INR (List.length endog) in
  - (n / 2) * ln (SSR endog mu) - (n / 2) * (1 + ln (2 * PI / n)).

(** ** Double precision

    The boundary behaviour of the Logit clipping depends on the arithmetic of
    doubles ([1.0 - eps] must be a double below 1).  The operations of
    [Logit] that need no logarithm are evaluated here on IEEE binary64
    numbers, as numpy evaluates them. *)

Module Fl.

Definition FLOAT_EPS : float := 0x1p-52%float.

(** [np.maximum] and [np.minimum] (the bounds are never nan). *)
Definition maximum (x y : float) : float :=
  if PrimFloat.ltb x y then y else x.

Definition minimum (x y : float) : float :=
  if PrimFloat.ltb y x then y else x.

Definition clip (x lo hi : float) : float := minimum (maximum x lo) hi.

Definition Logit_clean (p : float) : float :=
  clip p FLOAT_EPS (1 - FLOAT_EPS)%float.

(** The argument [p / (1. - p)] that [Logit.__call__] passes to [np.log]. *)
Definition Logit_call_arg (p : float) : float :=
  let p := Logit_clean p in
  (p / (1 - p))%float.

Definition Logit_deriv (p : float) : float :=
  let p := Logit_clean p in
  (1 / (p * (1 - p)))%float.

(** [y * 1.0 / self.n] of [Binomial.initialize]. *)
Definition proportion (y n : float) : float := (y * 1 / n)%float.

Definition is_finite (x : float) : bool :=
  match PrimFloat.classify x with
  | PInf | NInf | NaN => false
  | _ => true
  end.

End Fl.

(** The means at which the IRLS weight of a family of class [k] with a link
    of class [c] is finite and positive: the interior of the support of the
    Poisson, QuasiPoisson and Gamma families; every mean for Gaussian, 0
    excepted under the inverse link; every mean for Binomial, whose links and
    variance clip. *)
Definition weight_domain (k : F.kind) (c : L.cls) (mu : R) : Prop :=
  match k with
  | F.Family => False
  | F.Poisson | F.QuasiPoisson | F.Gamma => 0 < mu
  | F.Gaussian => c = L.inverse_power -> mu <> 0
  | F.Binomial => True
  end.

(** ** Domains of the link transforms *)

(** The class whose transform methods an instance runs. *)
Definition transform_of (l : L.instance) : option L.cls :=
  L.lookup L.defines_transform (L.class_of l).

(** The instances whose transform is a bijection: a [Power] with a non-zero
    exponent, a [CDFLink] over a distribution that satisfies [dist_ok], a
    [NegativeBinomial] with a positive [alpha]; the placeholder class [Link]
    is none. *)
Definition link_ok (l : L.instance) : Prop :=
  match transform_of l with
  | Some L.Logit | Some L.Log | Some L.CLogLog => True
  | Some L.Power => exists k, L.power l = Some k /\ k <> 0
  | Some L.CDFLink => exists d, L.dbn l = Some d /\ dist_ok d
  | Some L.NegativeBinomial => exists a, L.alpha l = Some a /\ 0 < a
  | _ => False
  end.

(** Where a [Power] transform and its inverse are both defined: the positive
    numbers, and every number when the exponent is 1 (the identity link). *)
Definition power_domain (l : L.instance) (x : R) : Prop :=
  0 < x \/ L.power l = Some 1.

(** The interior of the valid mean range of a link. *)
Definition mean_range (l : L.instance) (p : R) : Prop :=
  match transform_of l with
  | Some L.Logit | Some L.CDFLink | Some L.CLogLog => 0 < p < 1
  | Some L.Log | Some L.NegativeBinomial => 0 < p
  | Some L.Power => power_domain l p
  | _ => False
  end.

(** The means that the clipping of the forward transform leaves unchanged. *)
Definition clipped_range (l : L.instance) (p : R) : Prop :=
  match transform_of l with
  | Some L.Logit | Some L.CDFLink | Some L.CLogLog =>
      Np.FLOAT_EPS <= p <= 1 - Np.FLOAT_EPS
  | Some L.Log | Some L.NegativeBinomial => Np.FLOAT_EPS <= p
  | Some L.Power => power_domain l p
  | _ => False
  end.

(** The range of the linear predictor: the image of [mean_range] under the
    mathematical transform. *)
Definition predictor_range (l : L.instance) (z : R) : Prop :=
  match transform_of l with
  | Some L.Power => power_domain l z
  | Some L.NegativeBinomial => z < 0
  | Some L.Logit | Some L.CDFLink | Some L.CLogLog | Some L.Log => True
  | _ => False
  end.

(** The means on which the round trip through a link is well conditioned in
    double precision: away from the ends of the unit interval by [2^-10] for
    [Logit], [CDFLink] and [CLogLog] (close to them [1 - p] loses its
    digits); between eps and [2^1000] for [Log]; for the negative binomial
    link, [alpha * p] between [2^-64] and [2^10] (above, [p / (p + 1/alpha)]
    rounds to 1); for a [Power] link other than the identity, a mean between
    [2^-64] and [2^64] and an exponent between 1/8 and 8 in absolute value,
    so that no power overflows. *)
Definition stable_range (l : L.instance) (p : R) : Prop :=
  match transform_of l with
  | Some L.Logit | Some L.CDFLink | Some L.CLogLog =>
      / 2 ^ 10 <= p <= 1 - / 2 ^ 10
  | Some L.Log => Np.FLOAT_EPS <= p <= 2 ^ 1000
  | Some L.NegativeBinomial =>
      Np.FLOAT_EPS <= p <= 2 ^ 64 /\
      exists a, L.alpha l = Some a /\ / 2 ^ 64 <= a * p <= 2 ^ 10
  | Some L.Power =>
      L.power l = Some 1 \/
      (/ 2 ^ 64 <= p <= 2 ^ 64 /\
       exists k, L.power l = Some k /\ / 8 <= Rabs k <= 8)
  | _ => False
  end.

(** ** Data of a fit

    One observation: the response, the fitted mean, the frequency weight and
    (Binomial) the number of trials.  The arrays the methods take are the
    columns of a list of observations, so they have one shape. *)
Record observation : Type := mkObs {
  obs_y : R;
  obs_mu : R;
  obs_w : R;
  obs_n : R
}.

Definition rsum (f : observation -> R) (data : list observation) : R :=
  fold_right (fun o acc => f o + acc) 0 data.

(** A valid (response, mean) pair of a Binomial family of link [l]: the mean
    is inside the clipping range of the link, the response is a proportion
    (0 or 1 when [n] is the scalar 1), weights and trials are not negative. *)
Definition binomial_obs (l : L.instance) (binary : bool) (o : observation)
  : Prop :=
  L._clean l (obs_mu o) = Some (obs_mu o) /\
  Np.FLOAT_EPS <= obs_mu o <= 1 - Np.FLOAT_EPS /\
  0 <= obs_w o /\ 0 <= obs_n o /\
  if binary then obs_y o = 0 \/ obs_y o = 1 else 0 <= obs_y o <= 1.

(** A response separated from the mean: equal to it, or at a distance of
    [tol] or more.  The deviance residuals take the square root of a
    quantity that vanishes to second order at [y = mu]; for a response
    within a few units in the last place of the mean, the rounding of
    [y / mu] in binary64 can make that quantity negative and the residual
    nan, which the exact reals of this embedding do not show.  The
    properties of the residuals are stated for separated data. *)
Definition separated (tol y mu : R) : Prop :=
  y = mu \/ tol <= Rabs (y - mu).

(** Valid data of a family: counts that are not negative and positive means
    for Poisson and QuasiPoisson, positive responses and means for Gamma,
    in both cases separated by the relative distance [2^-20]; anything for a
    Gaussian family (whose variance is the constant one); for Binomial,
    [binomial_obs], a link that has a [_clean] method, the trials [self.n],
    and in the grouped branch proportions separated from the mean by
    [2^-20]. *)
Definition valid_data (self : F.family) (data : list observation) : Prop :=
  match F.kind_of self with
  | F.Family => False
  | F.Poisson | F.QuasiPoisson =>
      Forall (fun o => 0 <= obs_y o /\ 0 < obs_mu o /\
                       separated (obs_mu o / 2 ^ 20) (obs_y o) (obs_mu o))
        data
  | F.Gaussian => F.variance self = V.constant
  | F.Gamma =>
      Forall (fun o => 0 < obs_y o /\ 0 < obs_mu o /\
                       separated (obs_mu o / 2 ^ 20) (obs_y o) (obs_mu o))
        data
  | F.Binomial =>
      exists l nv b,
        F.link self = Some l /\ L._clean l 0 <> None /\
        F.n self = Some nv /\ F.n_is_one self = Some b /\
        F.n_array nv (List.length data) = map obs_n data /\
        Forall (binomial_obs l b) data /\
        (b = false ->
         Forall (fun o => separated (/ 2 ^ 20) (obs_y o) (obs_mu o)) data)
  end.

(** How the weighted sum [s] of the squared deviance residuals relates to the
    deviance [d]: the Poisson deviance leaves out the term [y - mu] that the
    residuals carry. *)
Definition residual_gap (self : F.family) (data : list observation)
  (s d : R) : Prop :=
  match F.kind_of self with
  | F.Family => False
  | F.Poisson | F.QuasiPoisson =>
      s = d - 2 * rsum (fun o => obs_w o * (obs_y o - obs_mu o)) data
  | F.Gaussian | F.Gamma => s = d
  | F.Binomial =>
      Rabs (s - d) <=
      2 * (F.tiny / Np.FLOAT_EPS) * rsum (fun o => obs_n o * obs_w o) data
  end.

(** The number held by a finite value (0 stands in for a non-finite one). *)
Definition value (x : option R) : R :=
  match x with
  | Some v => v
  | None => 0
  end.

(** ** Starting values and Anscombe residuals ([family.py]) *)

(** [y.mean()]: the mean of an empty array is nan. *)
Definition mean (y : list R) : option R :=
  Np.div (fold_right Rplus 0 y) (INR (List.length y)).

(** [Family.starting_mu], which every class but Binomial inherits. *)
Definition Family_starting_mu (y : list R) : list (option R) :=
  map (fun yi => m <- mean y ;; Some ((yi + m) / 2)) y.

(** [Binomial.starting_mu]; 0.5 is [/ 2]. *)
Definition Binomial_starting_mu (y : list R) : list (option R) :=
  map (fun yi => Some ((yi + / 2) / 2)) y.

Definition starting_mu (self : F.family) (y : list R) : list (option R) :=
  match F.kind_of self with
  | F.Binomial => Binomial_starting_mu y
  | _ => Family_starting_mu y
  end.

(** [Poisson.resid_anscombe] and [QuasiPoisson.resid_anscombe] (the same
    body); [**] on arrays is [np.power]. *)
Definition Poisson_resid_anscombe (endog mu : list R) : list (option R) :=
  Np.map2 (fun y m =>
    a <- Np.power y (2 / 3) ;;
    b <- Np.power m (2 / 3) ;;
    c <- Np.power m (1 / 6) ;;
    Np.div (3 / 2 * (a - b)) c) endog mu.

Definition Gaussian_resid_anscombe (endog mu : list R) : list (option R) :=
  Np.map2 (fun y m => Some (y - m)) endog mu.

Definition Gamma_resid_anscombe (endog mu : list R) : list (option R) :=
  Np.map2 (fun y m =>
    a <- Np.power y (1 / 3) ;;
    b <- Np.power m (1 / 3) ;;
    c <- Np.power m (1 / 3) ;;
    Np.div (3 * (a - b)) c) endog mu.

(** ** Statements about derivatives *)

(** [g x] is finite and is the derivative at [x] of the function that [f]
    computes. *)
Definition derivative_at (f g : R -> option R) (x : R) : Prop :=
  exists d, g x = Some d /\ derivable_pt_lim (fun t => value (f t)) x d.

(** The links whose transform, inverse and derivatives are written in closed
    form: a [CDFLink] over [scipy.stats.norm] is none (its [ppf], [cdf] and
    [pdf] are scipy's). *)
Definition closed_form (l : L.instance) : Prop :=
  match transform_of l with
  | Some L.Logit | Some L.Log | Some L.CLogLog => True
  | Some L.Power => exists k, L.power l = Some k /\ k <> 0
  | Some L.CDFLink => L.dbn l = Some scipy_stats_cauchy
  | Some L.NegativeBinomial => exists a, L.alpha l = Some a /\ 0 < a
  | _ => False
  end.

(** The means strictly inside the range that the clipping of a link leaves
    unchanged. *)
Definition open_range (l : L.instance) (p : R) : Prop :=
  match transform_of l with
  | Some L.Logit | Some L.CDFLink | Some L.CLogLog =>
      Np.FLOAT_EPS < p < 1 - Np.FLOAT_EPS
  | Some L.Log | Some L.NegativeBinomial => Np.FLOAT_EPS < p
  | Some L.Power => 0 < p
  | _ => False
  end.

(** The linear predictors at which [inverse] is differentiated, bounded so
    that no [exp] and no power overflows in double precision: for a [Power]
    link, [z] between [2^-64] and [2^64] and an exponent between 1/8 and 8
    in absolute value; for the negative binomial link, [z] between -300 and
    [-2^-10] and [alpha] between [2^-64] and [2^64]; [|z| <= 300] for
    [Logit] (whose [inverse_deriv] squares [1 + exp(z)]), [|z| <= 700] for
    [Log], [-700 <= z <= 6] for [CLogLog]; for a [CDFLink], whose
    [inverse_deriv] goes through [deriv] and its clipping, the [z] whose
    mean is away from 0 and 1 by [2^-10]. *)
Definition open_predictor_range (l : L.instance) (z : R) : Prop :=
  match transform_of l with
  | Some L.Power =>
      / 2 ^ 64 <= z <= 2 ^ 64 /\
      exists k, L.power l = Some k /\ / 8 <= Rabs k <= 8
  | Some L.NegativeBinomial =>
      -300 <= z <= - / 2 ^ 10 /\
      exists a, L.alpha l = Some a /\ / 2 ^ 64 <= a <= 2 ^ 64
  | Some L.CDFLink =>
      exists d, L.dbn l = Some d /\
                / 2 ^ 10 <= cdf d z <= 1 - / 2 ^ 10
  | Some L.Logit => -300 <= z <= 300
  | Some L.Log => -700 <= z <= 700
  | Some L.CLogLog => -700 <= z <= 6
  | _ => False
  end.

(** ** Data of a perfect fit *)

(** Responses for which the fitted mean can equal the response: positive for
    the Poisson, QuasiPoisson and Gamma families, anything for a Gaussian
    family with its constant variance. *)
Definition perfect_fit_data (self : F.family) (y : list R) : Prop :=
  match F.kind_of self with
  | F.Poisson | F.QuasiPoisson | F.Gamma => Forall (fun v => 0 < v) y
  | F.Gaussian => F.variance self = V.constant
  | _ => False
  end.

(** ** Second derivatives of the links

    [Link.deriv2] and [CDFLink.deriv2] differentiate [self.deriv]
    numerically with [approx_fprime_cs] and [approx_fprime(centered=True)] of
    [statsmodels.tools.numdiff], which is not part of this repository: the
    two are parameters.  The other classes give [deriv2] in closed form. *)

Definition defines_deriv2 (c : L.cls) : bool :=
  match c with
  | L.Link | L.Logit | L.Power | L.Log | L.CDFLink | L.cauchy | L.CLogLog
  | L.NegativeBinomial => true
  | _ => false
  end.

Section Numdiff.

Variable approx_fprime_cs : (R -> option R) -> R -> option R.
Variable approx_fprime_centered : (R -> option R) -> R -> option R.

Definition deriv2 (l : L.instance) (p : R) : option R :=
  match L.lookup defines_deriv2 (L.class_of l) with
  | Some L.Link => approx_fprime_cs (L.deriv l) p
  | Some L.Logit => L.Logit_deriv2 p
  | Some L.Power => k <- L.power l ;; L.Power_deriv2 k p
  | Some L.Log => L.Log_deriv2 p
  | Some L.CDFLink => approx_fprime_centered (L.deriv l) p
  | Some L.cauchy => L.cauchy_deriv2 p
  | Some L.CLogLog => L.CLogLog_deriv2 p
  | Some L.NegativeBinomial => a <- L.alpha l ;; L.NegativeBinomial_deriv2 a p
  | _ => None
  end.

End Numdiff.

(** The instances whose [deriv2] is in closed form. *)
Definition closed_form_deriv2 (l : L.instance) : Prop :=
  match L.lookup defines_deriv2 (L.class_of l) with
  | Some L.Logit | Some L.Log | Some L.CLogLog => True
  | Some L.Power => exists k, L.power l = Some k
  | Some L.cauchy => L.dbn l = Some scipy_stats_cauchy
  | Some L.NegativeBinomial => exists a, L.alpha l = Some a /\ 0 < a
  | _ => False
  end.

(** ** Data of the further properties *)

(** Responses from which the IRLS algorithm can start: proportions for a
    Binomial family; counts or amounts that are not negative and not all
    zero for the others. *)
Definition starting_data (self : F.family) (y : list R) : Prop :=
  match F.kind_of self with
  | F.Binomial => Forall (fun v => 0 <= v <= 1) y
  | _ => Forall (fun v => 0 <= v) y /\ Exists (fun v => 0 < v) y
  end.

(** The IRLS weight of a family under its default (canonical) link, and the
    means at which the clipping of the link and of the variance function
    changes nothing. *)
Definition canonical_weight (k : F.kind) (mu : R) : R :=
  match k with
  | F.Poisson | F.QuasiPoisson => mu
  | F.Gaussian => 1
  | F.Gamma => mu ^ 2
  | F.Binomial => mu * (1 - mu)
  | F.Family => 0
  end.

Definition canonical_domain (k : F.kind) (mu : R) : Prop :=
  match k with
  | F.Poisson | F.QuasiPoisson => Np.FLOAT_EPS <= mu
  | F.Gaussian => True
  | F.Gamma => 0 < mu
  | F.Binomial => Np.FLOAT_EPS <= mu <= 1 - Np.FLOAT_EPS
  | F.Family => False
  end.

(** The arguments at which a variance function is finite and positive. *)
Definition varfunc_domain (v : V.varfunc) (mu : R) : Prop :=
  match v with
  | V.VarianceFunction => True
  | V.Power _ => mu <> 0
  | V.Binomial n => 0 < n
  | V.NegativeBinomial a => 0 <= a
  end.

(** A residual [r] that has the sign of [y - mu] and vanishes only at
    [y = mu]. *)
Definition signed_residual (o : observation) (r : R) : Prop :=
  0 <= r * (obs_y o - obs_mu o) /\ (r = 0 <-> obs_y o = obs_mu o).

(** The links that clip the mean before a strictly increasing transform. *)
Definition increasing_link (l : L.instance) : Prop :=
  match transform_of l with
  | Some L.Logit | Some L.Log | Some L.CLogLog => True
  | Some L.CDFLink => L.dbn l = Some scipy_stats_cauchy
  | Some L.NegativeBinomial => exists a, L.alpha l = Some a /\ 0 < a
  | _ => False
  end.

(** The linear predictor that [predict] returns for the mean [fitted(z)]
    under the log and logit links: [z] clipped to the transforms of the
    clipping bounds of the mean. *)
Definition saturated (c : L.cls) (z : R) : R :=
  match c with
  | L.log => Np.clip_inf z (ln Np.FLOAT_EPS)
  | _ => Np.clip z (ln (Np.FLOAT_EPS / (1 - Np.FLOAT_EPS)))
                   (ln ((1 - Np.FLOAT_EPS) / Np.FLOAT_EPS))
  end.

(** The linear predictors at which [predict] after [fitted] is well
    conditioned in double precision: up to 700 under the log link (beyond,
    [exp] overflows); up to 6, or from 40 on, under the logit link (in
    between, the fitted mean is so close to 1 that [1 - mean] loses its
    digits; from 40 on the mean is clipped). *)
Definition conditioned_predictor (c : L.cls) (z : R) : Prop :=
  match c with
  | L.log => z <= 700
  | L.logit => z <= 6 \/ 40 <= z
  | _ => False
  end.

(** The linear predictors that [fitted] maps strictly inside the range the
    clipping leaves unchanged, with a margin that binary64 keeps: beyond
    them the computed mean reaches the boundary (the logit mean is exactly
    1.0 from [z] about 37, the cloglog mean from [z] about 3.6) or [exp]
    overflows (above [z] about 709.78). *)
Definition moderate_predictor (c : L.cls) (z : R) : Prop :=
  match c with
  | L.logit => -25 <= z <= 25
  | L.cloglog => -25 <= z <= 2
  | L.log => -700 <= z <= 700
  | _ => False
  end.

(** ** Log-likelihoods that call [scipy.special.gammaln]

    scipy is not part of this repository: [gammaln] is a parameter. *)

Section Special.

Variable scipy_special_gammaln : R -> option R.

(** [Poisson.loglike] *)
Definition Poisson_loglike (endog mu freq_weights : list R) (scale : R)
  : option R :=
  loglike <- Np.sum (Np.map3 (fun y m w =>
               lg <- Np.log m ;;
               g <- scipy_special_gammaln (y + 1) ;;
               Some (w * (y * lg - m - g))) endog mu freq_weights) ;;
  Some (scale * loglike).

(** [Gamma.loglike]; [-1.0 / scale] is a Python float division. *)
Definition Gamma_loglike (endog mu freq_weights : list R) (scale : R)
  : option R :=
  i <- Np.div (-1) scale ;;
  s <- Np.sum (Np.map3 (fun y m w =>
         q <- Np.div y m ;;
         lm <- Np.log m ;;
         ly <- Np.log y ;;
         ls <- Np.log scale ;;
         r <- Np.div 1 scale ;;
         g <- scipy_special_gammaln r ;;
         Some ((q + lm + (scale - 1) * ly + ls + scale * g) * w))
         endog mu freq_weights) ;;
  Some (i * s).

(** Data on which a log-likelihood ratio is finite: positive responses and
    means, a ratio [y / mu] that the clipping of the deviance leaves
    unchanged, a response equal to the mean or away from it by the relative
    distance [2^-10] (nearer, the difference of the two log-likelihoods
    cancels in binary64), and a finite [gammaln(y + 1)]. *)
Definition likelihood_obs (o : observation) : Prop :=
  0 < obs_y o /\ 0 < obs_mu o /\
  Np.FLOAT_EPS * obs_mu o <= obs_y o /\
  separated (obs_mu o / 2 ^ 10) (obs_y o) (obs_mu o) /\
  scipy_special_gammaln (obs_y o + 1) <> None.

End Special.

(** * Properties *)

(** ** Machine epsilon and the numpy primitives *)

Lemma eps_value : Np.FLOAT_EPS = / 4503599627370496.
Proof. unfold Np.FLOAT_EPS. f_equal. lra. Qed.

Lemma eps_bounds : 0 < Np.FLOAT_EPS < / 1000000.
Proof. rewrite eps_value. lra. Qed.

Lemma div_some (x y : R) : y <> 0 -> Np.div x y = Some (x / y).
Proof.
  intros Hy. unfold Np.div. destruct (Req_dec_T y 0); [contradiction | reflexivity].
Qed.

Lemma div_zero (x : R) : Np.div x 0 = None.
Proof.
  unfold Np.div. destruct (Req_dec_T 0 0); [reflexivity | congruence].
Qed.

Lemma log_some (x : R) : 0 < x -> Np.log x = Some (ln x).
Proof.
  intros Hx. unfold Np.log. destruct (Rlt_dec 0 x); [reflexivity | contradiction].
Qed.

Lemma sqrt_some (x : R) : 0 <= x -> Np.sqrt x = Some (R_sqrt.sqrt x).
Proof.
  intros Hx. unfold Np.sqrt. destruct (Rle_dec 0 x); [reflexivity | contradiction].
Qed.

Lemma clip_bounds (x lo hi : R) : lo <= hi -> lo <= Np.clip x lo hi <= hi.
Proof.
  intros H. unfold Np.clip, Rmin, Rmax.
  destruct (Rle_dec x lo); destruct (Rle_dec _ hi); lra.
Qed.

Lemma clip_id (x lo hi : R) : lo <= x <= hi -> Np.clip x lo hi = x.
Proof.
  intros H. unfold Np.clip, Rmin, Rmax.
  destruct (Rle_dec x lo); destruct (Rle_dec _ hi); lra.
Qed.

Lemma clip_low (x lo hi : R) : lo <= hi -> x <= lo -> Np.clip x lo hi = lo.
Proof.
  intros H1 H2. unfold Np.clip, Rmin, Rmax.
  destruct (Rle_dec x lo); destruct (Rle_dec _ hi); lra.
Qed.

Lemma clip_high (x lo hi : R) : lo <= hi -> hi <= x -> Np.clip x lo hi = hi.
Proof.
  intros H1 H2. unfold Np.clip, Rmin, Rmax.
  destruct (Rle_dec x lo); destruct (Rle_dec _ hi); lra.
Qed.

Lemma clip_inf_bound (x lo : R) : lo <= Np.clip_inf x lo.
Proof. apply Rmax_r. Qed.

Lemma clip_inf_id (x lo : R) : lo <= x -> Np.clip_inf x lo = x.
Proof. intros H. apply Rmax_left, H. Qed.

Lemma clip_inf_low (x lo : R) : x <= lo -> Np.clip_inf x lo = lo.
Proof. intros H. apply Rmax_right, H. Qed.

Lemma Logit_clean_bounds (p : R) :
  Np.FLOAT_EPS <= L.Logit_clean p <= 1 - Np.FLOAT_EPS.
Proof.
  apply clip_bounds. pose proof eps_bounds. lra.
Qed.

(** ** Strings *)

Lemma prefix_app (s t : string) : prefix s (s ++ t) = true.
Proof.
  induction s as [|c s IH]; simpl.
  - destruct t; reflexivity.
  - destruct (ascii_dec c c); [exact IH | congruence].
Qed.

Lemma contains_prefix (sub s : string) :
  prefix sub s = true -> contains sub s = true.
Proof.
  intros H. destruct s; cbn [contains]; rewrite H; reflexivity.
Qed.

Lemma contains_app (sub a b : string) :
  contains sub (a ++ sub ++ b) = true.
Proof.
  induction a as [|c a IH].
  - cbn [append]. apply contains_prefix, prefix_app.
  - cbn [append contains]. rewrite IH. apply orb_true_r.
Qed.

Lemma contains_app_l (sub a t : string) :
  contains sub t = true -> contains sub (a ++ t) = true.
Proof.
  intros H. induction a as [|c a IH].
  - exact H.
  - cbn [append contains]. rewrite IH. apply orb_true_r.
Qed.

Lemma errmsg_names (r s : string) :
  contains r (F.errmsg r s) = true /\ contains s (F.errmsg r s) = true.
Proof.
  unfold F.errmsg. split.
  - apply contains_app.
  - apply contains_app_l, contains_app_l, contains_app.
Qed.

(** ** Link assignment *)

(** The fuel of [mro] reaches the root of every class: more fuel gives the
    same order. *)
Lemma mro_complete (c : L.cls) : L.mro c = L.mro_fuel 17 c.
Proof. destruct c; reflexivity. Qed.

(** Every class but [NegativeBinomial] and [nbinom] derives from [Link]. *)
Lemma issubclass_Link (c : L.cls) :
  L.issubclass c L.Link =
  match c with
  | L.NegativeBinomial | L.nbinom => false
  | _ => true
  end.
Proof. destruct c; reflexivity. Qed.

Lemma setlink_state (self : F.family) (link : F.pyobj) :
  fst (F._setlink self link) =
  F.mkFamily (F.kind_of self) (Some link) (F.variance self) (F.n self).
Proof.
  unfold F._setlink.
  destruct (negb (F.isinstance link L.Link)); [reflexivity|].
  destruct (F.max _); [|reflexivity].
  destruct (negb a); reflexivity.
Qed.

Lemma max_existsb (bs : list bool) (b : bool) :
  F.max bs = F.Ok b -> b = existsb (fun x => x) bs.
Proof.
  destruct bs as [|b0 bs]; simpl; [discriminate|].
  intros H. injection H as <-.
  revert b0. induction bs as [|b1 bs IH]; intros b0; simpl.
  - rewrite orb_false_r. reflexivity.
  - rewrite IH. destruct b0, b1; reflexivity.
Qed.

Lemma max_nonempty (bs : list bool) :
  bs <> [] -> F.max bs = F.Ok (existsb (fun x => x) bs).
Proof.
  intros H. destruct bs as [|b0 bs]; [contradiction|].
  destruct (F.max (b0 :: bs)) eqn:E.
  - apply max_existsb in E. subst. reflexivity.
  - discriminate.
Qed.

Lemma existsb_map {A : Type} (f : A -> bool) (l : list A) :
  existsb (fun x => x) (map f l) = existsb f l.
Proof.
  induction l as [|x l IH]; simpl; [reflexivity | rewrite IH; reflexivity].
Qed.

Lemma links_nonempty (k : F.kind) : k <> F.Family -> F.links k <> [].
Proof. destruct k; intros H; try discriminate; contradiction. Qed.

(** The outcome of [_setlink] on a family class other than the base class. *)
Lemma setlink_outcome (self : F.family) (link : F.pyobj) :
  F.kind_of self <> F.Family ->
  snd (F._setlink self link) =
  if negb (F.isinstance link L.Link) then
    F.Raise (F.TypeError "The input should be a valid Link object.")
  else if existsb (F.isinstance link) (F.links (F.kind_of self)) then F.Ok tt
  else F.Raise (F.ValueError
         (F.errmsg (F.repr_links (F.links (F.kind_of self))) (F.str link))).
Proof.
  intros Hk. unfold F._setlink.
  destruct (negb (F.isinstance link L.Link)); [reflexivity|].
  cbn [F.kind_of].
  rewrite max_nonempty.
  - rewrite existsb_map.
    destruct (existsb _ _); reflexivity.
  - intros H. apply map_eq_nil in H. revert H. apply links_nonempty, Hk.
Qed.

(** C10: [_setlink] stores the candidate in [_link] before it validates it:
    whenever the assignment raises (TypeError for an object that is not a
    [Link], ValueError for a [Link] the family does not accept) the family
    holds the rejected link, its other attributes unchanged. *)
Theorem setlink_not_atomic (self self' : F.family) (link : F.pyobj) (e : F.exn) :
  F._setlink self link = (self', F.Raise e) ->
  F._getlink self' = Some link /\
  F.kind_of self' = F.kind_of self /\
  F.variance self' = F.variance self /\
  F.n self' = F.n self /\
  (F.isinstance link L.Link = false ->
   e = F.TypeError "The input should be a valid Link object.") /\
  (F.isinstance link L.Link = true -> exists m, e = F.ValueError m).
Proof.
  intros H.
  pose proof (setlink_state self link) as Hs. rewrite H in Hs. cbn [fst] in Hs.
  subst self'. repeat split.
  - intros Hi. unfold F._setlink in H. rewrite Hi in H. cbn [negb] in H.
    congruence.
  - intros Hi. unfold F._setlink in H. rewrite Hi in H. cbn [negb] in H.
    destruct (F.max _) as [b|e'] eqn:E.
    + destruct (negb b); [|discriminate]. injection H as <-. eauto.
    + injection H as <-.
      destruct (map _ _); [|discriminate]. simpl in E.
      injection E as <-. eauto.
Qed.

(** A Poisson family holding a [log] link is assigned a [Logit] instance:
    ValueError, and the family holds the [Logit] instance. *)
Lemma setlink_not_atomic_witness :
  let old := F.Inst (L.new scipy_stats_cauchy L.log "0x7f01") in
  let link := F.Inst (L.new scipy_stats_cauchy L.Logit "0x7f02") in
  let self := F.mkFamily F.Poisson (Some old) V.mu None in
  F._getlink (fst (F._setlink self link)) = Some link /\
  exists m, snd (F._setlink self link) = F.Raise (F.ValueError m).
Proof.
  intros old link self.
  destruct (F._setlink self link) as [self' r] eqn:E.
  assert (Hr : exists e, r = F.Raise e).
  { pose proof (setlink_outcome self link) as Ho. rewrite E in Ho.
    cbn [snd] in Ho. rewrite Ho by discriminate. eexists. reflexivity. }
  destruct Hr as [e ->].
  destruct (setlink_not_atomic self self' link e E) as (H1 & _ & _ & _ & _ & H6).
  split; [exact H1|].
  destruct (H6 eq_refl) as [m ->]. exists m. reflexivity.
Defined.

Lemma existsb_pointwise {A : Type} (f g : A -> bool) (l : list A) :
  (forall x, f x = g x) -> existsb f l = existsb g l.
Proof.
  intros H. induction l as [|x l IH]; simpl; [reflexivity|].
  rewrite H, IH. reflexivity.
Qed.

Lemma new_class (norm : Dist) (c : L.cls) (a : string) :
  L.class_of (L.new norm c a) = c.
Proof. destruct c; reflexivity. Qed.

Lemma init_setlink (norm : Dist) (k : F.kind) (c : L.cls) (a : string) :
  exists self0,
    F.kind_of self0 = k /\
    F.init norm k c a =
    match F._setlink self0 (F.Inst (L.new norm c a)) with
    | (self', F.Ok _) => F.Ok self'
    | (_, F.Raise e) => F.Raise e
    end.
Proof.
  destruct k; eexists; (split; [|reflexivity]); reflexivity.
Qed.

Lemma invalid_link_error_of (self : F.family) (link : F.pyobj) :
  F.kind_of self <> F.Family ->
  existsb (F.isinstance link) (F.links (F.kind_of self)) = false ->
  exists e, snd (F._setlink self link) = F.Raise e /\
            invalid_link_error (F.kind_of self) link e.
Proof.
  intros Hk Hv. rewrite (setlink_outcome self link Hk), Hv.
  destruct (F.isinstance link L.Link) eqn:Hi; cbn [negb].
  - eexists. split; [reflexivity|]. right.
    split; [exact Hi|]. split; [reflexivity|]. cbn [exn_msg]. split.
    + apply (proj2 (errmsg_names _ _)).
    + apply (proj1 (errmsg_names _ _)).
  - eexists. split; [reflexivity|]. left. split; [exact Hi | reflexivity].
Qed.

Lemma invalid_link_error_at_init (norm : Dist) (k : F.kind) (c : L.cls)
  (a : string) :
  k <> F.Family ->
  existsb (L.issubclass c) (F.links k) = false ->
  exists e, F.init norm k c a = F.Raise e /\
            invalid_link_error k (F.Inst (L.new norm c a)) e.
Proof.
  intros Hk Hv.
  destruct (init_setlink norm k c a) as (self0 & Hk0 & ->).
  destruct (invalid_link_error_of self0 (F.Inst (L.new norm c a))) as (e & He & Hm).
  - rewrite Hk0. exact Hk.
  - rewrite Hk0, <- Hv. apply existsb_pointwise. intros d.
    cbn [F.isinstance]. unfold L.isinstance. rewrite new_class. reflexivity.
  - exists e. rewrite Hk0 in Hm. split; [|exact Hm].
    destruct (F._setlink self0 _) as [s r]. cbn [snd] in He. subst r.
    reflexivity.
Qed.

(** C3 (as amended): on every family class, assigning an object that is an
    instance of none of the family's accepted link classes raises, through
    the [link] property and at construction alike.  A [Link] instance is
    rejected with a ValueError whose text contains [repr] of the accepted
    classes and [str] of the link; an object that is not a [Link] is rejected
    with a TypeError whose text is fixed. *)
Theorem invalid_link_raises :
  (forall (self : F.family) (link : F.pyobj),
     F.kind_of self <> F.Family ->
     existsb (F.isinstance link) (F.links (F.kind_of self)) = false ->
     exists e, snd (F._setlink self link) = F.Raise e /\
               invalid_link_error (F.kind_of self) link e) /\
  (forall (norm : Dist) (k : F.kind) (c : L.cls) (a : string),
     k <> F.Family ->
     existsb (L.issubclass c) (F.links k) = false ->
     exists e, F.init norm k c a = F.Raise e /\
               invalid_link_error k (F.Inst (L.new norm c a)) e).
Proof.
  split.
  - exact invalid_link_error_of.
  - exact invalid_link_error_at_init.
Qed.

(** A Gamma family is assigned, and constructed with, the [logit] link. *)
Lemma invalid_link_raises_witness :
  let link := F.Inst (L.new scipy_stats_cauchy L.logit "0x7f04") in
  let self := F.mkFamily F.Gamma None V.mu_squared None in
  (exists e, snd (F._setlink self link) = F.Raise e /\
             invalid_link_error F.Gamma link e) /\
  (exists e, F.init scipy_stats_cauchy F.Gamma L.logit "0x7f04" = F.Raise e /\
             invalid_link_error F.Gamma link e).
Proof.
  intros link self. split.
  - apply (proj1 invalid_link_raises self link); [discriminate | reflexivity].
  - apply (proj2 invalid_link_raises scipy_stats_cauchy F.Gamma L.logit);
      [discriminate | reflexivity].
Defined.

(** C3 as stated fails for an object that is not a [Link]: the TypeError
    text names neither the object nor the accepted classes.  A Poisson family
    is assigned an instance of the negative binomial link [nbinom], whose
    class does not derive from [Link], and the string ['log']. *)
Lemma invalid_link_message_counterexample :
  let link := F.Inst (L.new scipy_stats_cauchy L.nbinom "0x7f03") in
  let text := F.Foreign "log" in
  let self := F.mkFamily F.Poisson None V.mu None in
  existsb (F.isinstance link) (F.links F.Poisson) = false /\
  snd (F._setlink self link) =
    F.Raise (F.TypeError "The input should be a valid Link object.") /\
  F.Poisson_init scipy_stats_cauchy L.nbinom "0x7f03" =
    F.Raise (F.TypeError "The input should be a valid Link object.") /\
  contains (F.str link) "The input should be a valid Link object." = false /\
  contains (F.repr_links (F.links F.Poisson))
    "The input should be a valid Link object." = false /\
  existsb (F.isinstance text) (F.links F.Poisson) = false /\
  snd (F._setlink self text) =
    F.Raise (F.TypeError "The input should be a valid Link object.") /\
  contains (F.str text) "The input should be a valid Link object." = false.
Proof.
  repeat split; reflexivity.
Qed.

(** ** Binomial initialization *)

Lemma init_with_ok (norm : Dist) (self0 self : F.family) (c : L.cls) (a : string) :
  F.init_with norm self0 c a = F.Ok self ->
  self = F.mkFamily (F.kind_of self0) (Some (F.Inst (L.new norm c a)))
           (F.variance self0) (F.n self0).
Proof.
  unfold F.init_with. intros H.
  pose proof (setlink_state self0 (F.Inst (L.new norm c a))) as Hs.
  destruct (F._setlink self0 _) as [s r]. cbn [fst] in Hs.
  destruct r; [|discriminate]. injection H as <-. exact Hs.
Qed.

Lemma Binomial_init_ok (norm : Dist) (self : F.family) (c : L.cls) (a : string) :
  F.Binomial_init norm c a = F.Ok self ->
  self = F.mkFamily F.Binomial (Some (F.Inst (L.new norm c a)))
           (V.Binomial 1) (Some (F.NScalar 1)).
Proof. intros H. apply init_with_ok in H. exact H. Qed.

Lemma two_columns_split (successes failures : list R) :
  map (fun row => nth 0 row 0)
      (Np.map2 (fun s f => [s; f]) successes failures) =
    Np.map2 (fun s _ => s) successes failures /\
  map (fun row => fold_right Rplus 0 row)
      (Np.map2 (fun s f => [s; f]) successes failures) =
    Np.map2 Rplus successes failures.
Proof.
  revert failures. induction successes as [|s ss IH]; intros [|f fs];
    try (split; reflexivity).
  destruct (IH fs) as [H1 H2]. cbn [Np.map2 map nth fold_right].
  rewrite H1, H2. split; [reflexivity|]. f_equal. lra.
Qed.

Lemma map2_diag {A B C D E : Type} (g : C -> D -> E) (f1 : A -> B -> C)
  (f2 : A -> B -> D) (a : list A) (b : list B) :
  Np.map2 g (Np.map2 f1 a b) (Np.map2 f2 a b) =
  Np.map2 (fun x y => g (f1 x y) (f2 x y)) a b.
Proof.
  revert b. induction a as [|x a IH]; intros [|y b]; try reflexivity.
  cbn [Np.map2]. rewrite IH. reflexivity.
Qed.

Lemma initialize_two_columns (self : F.family) (successes failures w : list R) :
  F.initialize self (two_columns successes failures) w =
  (F.mkFamily (F.kind_of self) (F._link self) (F.variance self)
     (Some (F.NArray (Np.map2 Rplus successes failures))),
   (F.A1 (Np.map2 (fun s f => Np.div (s * 1) (s + f)) successes failures),
    Np.map2 Rplus successes failures)).
Proof.
  unfold two_columns, F.initialize. cbn [Nat.ltb Nat.leb].
  destruct (two_columns_split successes failures) as [-> ->].
  rewrite map2_diag. reflexivity.
Qed.

(** C8: on a two-column (successes, failures) response, [initialize] sets [n]
    to the row sums successes + failures and returns successes / n in place
    of the response (successes=[3], failures=[7] gives n=[10] and response
    [0.3]); a single-column response is returned unchanged and [n] is left
    as it is, which is the 1 that [__init__] stored.  In double precision
    [3 * 1.0 / 10] is the double nearest to 0.3. *)
Theorem initialize_grouped (norm : Dist) (c : L.cls) (a : string)
  (self : F.family) :
  F.Binomial_init norm c a = F.Ok self ->
  (forall successes failures w,
     F.initialize self (two_columns successes failures) w =
     (F.mkFamily (F.kind_of self) (F._link self) (F.variance self)
        (Some (F.NArray (Np.map2 Rplus successes failures))),
      (F.A1 (Np.map2 (fun s f => Np.div (s * 1) (s + f)) successes failures),
       Np.map2 Rplus successes failures))) /\
  (forall w,
     F.n (fst (F.initialize self (two_columns [3] [7]) w)) =
       Some (F.NArray [10]) /\
     snd (F.initialize self (two_columns [3] [7]) w) =
       (F.A1 [Some (3 / 10)], [10])) /\
  (forall y w,
     F.initialize self (F.A1 y) w =
       (self, (F.A1 (map Some y), repeat 1 (List.length y))) /\
     F.n (fst (F.initialize self (F.A1 y) w)) = Some (F.NScalar 1)) /\
  (forall rows w,
     F.initialize self (F.A2 1 rows) w =
       (self, (F.A2 1 (map (map Some) rows), repeat 1 (List.length rows)))) /\
  Fl.proportion 3 10 = 0x1.3333333333333p-2%float.
Proof.
  intros Hinit. apply Binomial_init_ok in Hinit. repeat split.
  - intros. apply initialize_two_columns.
  - rewrite initialize_two_columns. cbn [fst F.n Np.map2].
    do 3 f_equal. lra.
  - rewrite initialize_two_columns. cbn [snd Np.map2].
    rewrite div_some by lra.
    f_equal; do 2 f_equal; [f_equal; field | lra].
  - subst self. reflexivity.
Qed.

Lemma initialize_grouped_witness :
  exists self,
    F.Binomial_init scipy_stats_cauchy L.logit "0x7f06" = F.Ok self /\
    snd (F.initialize self (two_columns [3] [7]) [1]) =
      (F.A1 [Some (3 / 10)], [10]).
Proof.
  eexists. split; [reflexivity|].
  apply (initialize_grouped scipy_stats_cauchy L.logit "0x7f06" _ eq_refl).
Defined.

Lemma Binomial_variance_one (mu : R) :
  V.call (V.Binomial 1) mu = Some (binomial_variance_formula 1 mu).
Proof.
  unfold V.call, binomial_variance_formula, V.Binomial_clean.
  rewrite div_some by lra. reflexivity.
Qed.

Lemma initialize_variance (self : F.family) (endog : F.ndarray R) (w : list R) :
  F.variance (fst (F.initialize self endog w)) = F.variance self /\
  F._link (fst (F.initialize self endog w)) = F._link self /\
  F.kind_of (fst (F.initialize self endog w)) = F.kind_of self.
Proof.
  destruct endog as [y|ncols rows]; cbn [F.initialize].
  - repeat split.
  - destruct (1 <? ncols)%nat; repeat split.
Qed.

(** C2 (as amended): [initialize] stores the derived [n] in the family, where
    it selects the grouped branch of [deviance] and [resid_dev]; it does not
    touch the variance function, which stays the [V.Binomial(n=1)] that
    [__init__] built: for every mean, [variance(mu)] is the Binomial variance
    formula with n = 1, whatever [n] was derived. *)
Theorem initialize_keeps_variance (norm : Dist) (c : L.cls) (a : string)
  (self : F.family) (successes failures w : list R) :
  F.Binomial_init norm c a = F.Ok self ->
  let self' := fst (F.initialize self (two_columns successes failures) w) in
  F.n self' = Some (F.NArray (Np.map2 Rplus successes failures)) /\
  F.n_is_one self' = Some false /\
  F.variance self' = V.Binomial 1 /\
  forall mu, V.call (F.variance self') mu = Some (binomial_variance_formula 1 mu).
Proof.
  intros Hinit self'. apply Binomial_init_ok in Hinit.
  assert (Hv : F.variance self' = V.Binomial 1).
  { unfold self'. rewrite (proj1 (initialize_variance _ _ _)).
    subst self. reflexivity. }
  assert (Hn : F.n self' = Some (F.NArray (Np.map2 Rplus successes failures))).
  { unfold self'. rewrite initialize_two_columns. reflexivity. }
  assert (H1 : F.n_is_one self' = Some false).
  { unfold F.n_is_one. rewrite Hn. reflexivity. }
  split; [exact Hn|]. split; [exact H1|]. split; [exact Hv|].
  intros mu. rewrite Hv. apply Binomial_variance_one.
Qed.

Lemma initialize_keeps_variance_witness :
  exists self,
    F.Binomial_init scipy_stats_cauchy L.logit "0x7f05" = F.Ok self /\
    let self' := fst (F.initialize self (two_columns [3] [7]) [1]) in
    F.variance self' = V.Binomial 1.
Proof.
  eexists. split; [reflexivity|].
  apply (initialize_keeps_variance scipy_stats_cauchy L.logit "0x7f05" _
           [3] [7] [1] eq_refl).
Defined.

(** C2 as stated fails: after successes=[3], failures=[7] the family holds
    n=[10], and at the mean 0.3 its variance function returns
    0.3 * 0.7 = 0.21, not the 0.03 * 0.97 * 10 = 0.291 of the formula with
    n = 10. *)
Lemma variance_ignores_n_counterexample :
  exists self,
    F.Binomial_init scipy_stats_cauchy L.logit "0x7f05" = F.Ok self /\
    let self' := fst (F.initialize self (two_columns [3] [7]) [1]) in
    F.n self' = Some (F.NArray [10]) /\
    V.call (F.variance self') (3 / 10) = Some (21 / 100) /\
    binomial_variance_formula 10 (3 / 10) = 291 / 1000 /\
    V.call (F.variance self') (3 / 10) <>
      Some (binomial_variance_formula 10 (3 / 10)).
Proof.
  eexists. split; [reflexivity|].
  pose proof eps_bounds as He.
  assert (H10 : binomial_variance_formula 10 (3 / 10) = 291 / 1000).
  { unfold binomial_variance_formula. rewrite clip_id by lra. field. }
  assert (Hc : V.call (V.Binomial 1) (3 / 10) = Some (21 / 100)).
  { rewrite Binomial_variance_one. unfold binomial_variance_formula.
    rewrite clip_id by lra. f_equal. field. }
  cbv zeta. rewrite initialize_two_columns. cbn [fst F.n F.variance Np.map2].
  repeat split.
  - do 3 f_equal. lra.
  - exact Hc.
  - exact H10.
  - rewrite Hc, H10. intros H. injection H as H. lra.
Qed.

(** ** Powers *)

Lemma Int_part_1 : Int_part 1 = 1%Z.
Proof. symmetry. apply Int_part_spec. simpl. lra. Qed.

Lemma power_pos (x k : R) : 0 < x -> Np.power x k = Some (Rpower x k).
Proof.
  intros Hx. unfold Np.power.
  destruct (Req_dec_T k 0) as [->|Hk].
  - rewrite Rpower_O by exact Hx. reflexivity.
  - destruct (Rlt_dec 0 x); [reflexivity | contradiction].
Qed.

Lemma power_0 (x : R) : Np.power x 0 = Some 1.
Proof.
  unfold Np.power. destruct (Req_dec_T 0 0); [reflexivity | congruence].
Qed.

Lemma power_1 (x : R) : Np.power x 1 = Some x.
Proof.
  unfold Np.power.
  destruct (Req_dec_T 1 0); [lra|].
  destruct (Rlt_dec 0 x) as [Hx|Hx].
  - rewrite Rpower_1 by exact Hx. reflexivity.
  - destruct (Req_dec_T x 0) as [->|Hx0].
    + destruct (Rlt_dec 0 1); [reflexivity | lra].
    + rewrite Int_part_1.
      destruct (Req_dec_T 1 1); [|congruence].
      rewrite powerRZ_1. reflexivity.
Qed.

(** ** Gaussian log-likelihood *)

Lemma Gaussian_init_ok (norm : Dist) (self : F.family) (c : L.cls) (a : string) :
  F.Gaussian_init norm c a = F.Ok self ->
  self = F.mkFamily F.Gaussian (Some (F.Inst (L.new norm c a)))
           V.constant None.
Proof. intros H. apply init_with_ok in H. exact H. Qed.

Lemma identity_fitted (norm : Dist) (a : string) (m : R) :
  F.fitted (F.mkFamily F.Gaussian (Some (F.Inst (L.new norm L.identity a)))
              V.constant None) m = Some m.
Proof.
  unfold F.fitted, F.link, F._getlink. cbn.
  unfold L.Power_inverse. rewrite div_some by lra. cbn [bind].
  replace (1 / 1) with 1 by field. apply power_1.
Qed.

Lemma sum_identity_fitted (self : F.family) (endog mu : list R) :
  (forall m, F.fitted self m = Some m) ->
  Np.sum (Np.map2 (fun y m => f <- F.fitted self m ;; Some ((y - f) ^ 2))
            endog mu) = Some (SSR endog mu).
Proof.
  intros Hf. unfold SSR. revert mu.
  induction endog as [|y ys IH]; intros [|m ms]; try reflexivity.
  cbn [Np.map2 Np.sum fold_right]. rewrite Hf, IH. reflexivity.
Qed.

(** C7: for the Gaussian family with the identity link, [loglike] returns
    the closed form of the OLS log-likelihood,
    [-(n/2) ln(SSR) - (n/2) (1 + ln(2 pi / n))], with n the number of
    observations and SSR the sum of the squared differences between the
    response and the fitted means; the frequency weights and the scale are
    not read. *)
Theorem Gaussian_identity_loglike (norm : Dist) (a : string) (self : F.family)
  (endog mu freq_weights : list R) (scale : R) :
  F.Gaussian_init norm L.identity a = F.Ok self ->
  List.length endog = List.length mu ->
  endog <> [] ->
  0 < SSR endog mu ->
  F.is_identity_power self = true /\
  F.Gaussian_loglike self endog mu freq_weights scale =
    Some (ols_loglike endog mu).
Proof.
  intros Hinit Hlen Hne Hssr. apply Gaussian_init_ok in Hinit. subst self.
  assert (Hid : F.is_identity_power
                  (F.mkFamily F.Gaussian
                     (Some (F.Inst (L.new norm L.identity a))) V.constant None)
                = true).
  { unfold F.is_identity_power. cbn.
    destruct (Req_dec_T 1 1); [reflexivity | congruence]. }
  split; [exact Hid|].
  unfold F.Gaussian_loglike. rewrite Hid.
  rewrite sum_identity_fitted by (intros m; apply identity_fitted).
  cbn [bind]. rewrite log_some by exact Hssr. cbn [bind].
  assert (Hn : 0 < INR (List.length endog)).
  { apply lt_0_INR. destruct endog; [congruence | simpl; lia]. }
  rewrite div_some by lra. cbn [bind].
  assert (Hq : PI / (INR (List.length endog) / 2) = 2 * PI / INR (List.length endog)).
  { field. lra. }
  rewrite Hq.
  assert (Hpos : 0 < 2 * PI / INR (List.length endog)).
  { apply Rdiv_lt_0_compat; [pose proof PI_RGT_0; lra | exact Hn]. }
  rewrite log_some by exact Hpos. cbn [bind].
  unfold ols_loglike. f_equal. lra.
Qed.

Lemma Gaussian_identity_loglike_witness :
  exists self,
    F.Gaussian_init scipy_stats_cauchy L.identity "0x7f07" = F.Ok self /\
    F.Gaussian_loglike self [1; 2] [0; 0] [1; 1] 1 =
      Some (ols_loglike [1; 2] [0; 0]).
Proof.
  eexists. split; [reflexivity|].
  apply (Gaussian_identity_loglike scipy_stats_cauchy "0x7f07" _
           [1; 2] [0; 0] [1; 1] 1 eq_refl eq_refl).
  - discriminate.
  - unfold SSR. simpl. lra.
Defined.

(** ** Logit at the boundary *)

Lemma Logit_call_some (p : R) :
  L.Logit_call p =
  Some (ln (L.Logit_clean p / (1 - L.Logit_clean p))).
Proof.
  pose proof (Logit_clean_bounds p) as Hc. pose proof eps_bounds as He.
  unfold L.Logit_call. rewrite div_some by lra. cbn [bind].
  apply log_some. apply Rdiv_lt_0_compat; lra.
Qed.

Lemma Logit_deriv_some (p : R) :
  L.Logit_deriv p =
  Some (1 / (L.Logit_clean p * (1 - L.Logit_clean p))).
Proof.
  pose proof (Logit_clean_bounds p) as Hc. pose proof eps_bounds as He.
  unfold L.Logit_deriv. apply div_some. nra.
Qed.

Lemma Logit_deriv_pos (p : R) :
  0 < 1 / (L.Logit_clean p * (1 - L.Logit_clean p)).
Proof.
  pose proof (Logit_clean_bounds p) as Hc. pose proof eps_bounds as He.
  apply Rdiv_lt_0_compat; nra.
Qed.

(** C9: the Logit link clips its input to [eps, 1 - eps] before it divides
    and takes the logarithm, so for every input, 0 and 1 included, the
    transform and its derivative are finite: the argument of the logarithm is
    positive and no divisor is zero.  In double precision the clipped values
    of 0 and 1 are eps and 1 - eps, the argument of the logarithm is a
    positive normal number and the derivative is finite. *)
Theorem Logit_finite_at_boundary :
  (forall p : R,
     Np.FLOAT_EPS <= L.Logit_clean p <= 1 - Np.FLOAT_EPS /\
     0 < L.Logit_clean p / (1 - L.Logit_clean p) /\
     (exists z, L.Logit_call p = Some z) /\
     (exists d, L.Logit_deriv p = Some d /\ 0 < d)) /\
  (forall (norm : Dist) (a : string) (p : R),
     L.call (L.new norm L.logit a) p = L.Logit_call p /\
     L.deriv (L.new norm L.logit a) p = L.Logit_deriv p) /\
  L.Logit_clean 0 = Np.FLOAT_EPS /\
  L.Logit_clean 1 = 1 - Np.FLOAT_EPS /\
  L.Logit_call 0 = Some (ln (Np.FLOAT_EPS / (1 - Np.FLOAT_EPS))) /\
  L.Logit_call 1 = Some (ln ((1 - Np.FLOAT_EPS) / (1 - (1 - Np.FLOAT_EPS)))) /\
  L.Logit_deriv 0 = Some (1 / (Np.FLOAT_EPS * (1 - Np.FLOAT_EPS))) /\
  L.Logit_deriv 1 =
    Some (1 / ((1 - Np.FLOAT_EPS) * (1 - (1 - Np.FLOAT_EPS)))) /\
  Fl.Logit_clean 0 = Fl.FLOAT_EPS /\
  Fl.Logit_clean 1 = (1 - Fl.FLOAT_EPS)%float /\
  PrimFloat.classify (Fl.Logit_call_arg 0) = PNormal /\
  PrimFloat.classify (Fl.Logit_call_arg 1) = PNormal /\
  Fl.is_finite (Fl.Logit_deriv 0) = true /\
  Fl.is_finite (Fl.Logit_deriv 1) = true.
Proof.
  pose proof eps_bounds as He.
  assert (H0 : L.Logit_clean 0 = Np.FLOAT_EPS).
  { unfold L.Logit_clean. apply clip_low; lra. }
  assert (H1 : L.Logit_clean 1 = 1 - Np.FLOAT_EPS).
  { unfold L.Logit_clean. apply clip_high; lra. }
  split.
  { intros p. pose proof (Logit_clean_bounds p) as Hc.
    split; [exact Hc|]. split; [apply Rdiv_lt_0_compat; lra|]. split.
    - eexists. apply Logit_call_some.
    - eexists. split; [apply Logit_deriv_some | apply Logit_deriv_pos]. }
  split.
  { intros norm a p. split; reflexivity. }
  split; [exact H0|]. split; [exact H1|].
  split; [rewrite Logit_call_some, H0; reflexivity|].
  split; [rewrite Logit_call_some, H1; reflexivity|].
  split; [rewrite Logit_deriv_some, H0; reflexivity|].
  split; [rewrite Logit_deriv_some, H1; reflexivity|].
  repeat split; vm_compute; reflexivity.
Qed.

(** ** The standard Cauchy distribution *)

Lemma cauchy_ok : dist_ok scipy_stats_cauchy.
Proof.
  pose proof PI_RGT_0 as Hpi.
  constructor; cbn [ppf cdf pdf scipy_stats_cauchy].
  - intros p Hp. rewrite atan_tan.
    + field. lra.
    + split; nra.
  - intros z. replace (PI * (/ 2 + atan z / PI - / 2)) with (atan z).
    + apply tan_atan.
    + field. lra.
  - intros z. pose proof (atan_bound z) as [Hl Hu].
    assert (H1 : - / 2 < atan z / PI).
    { apply Rmult_lt_reg_r with PI; [lra|].
      unfold Rdiv. rewrite Rmult_assoc, Rinv_l by lra. lra. }
    assert (H2 : atan z / PI < / 2).
    { apply Rmult_lt_reg_r with PI; [lra|].
      unfold Rdiv. rewrite Rmult_assoc, Rinv_l by lra. lra. }
    lra.
  - intros z. apply Rinv_0_lt_compat. nra.
Qed.

(** ** IRLS weights *)

Lemma Int_part_IZR (z : Z) : Int_part (IZR z) = z.
Proof. symmetry. apply Int_part_spec. lra. Qed.

Lemma power_neg_int (x : R) (z : Z) :
  x < 0 -> Np.power x (IZR z) = Some (powerRZ x z).
Proof.
  intros Hx. unfold Np.power.
  destruct (Req_dec_T (IZR z) 0) as [Hz|Hz].
  - apply eq_IZR in Hz. subst z. reflexivity.
  - destruct (Rlt_dec 0 x); [lra|].
    destruct (Req_dec_T x 0); [lra|].
    rewrite Int_part_IZR.
    destruct (Req_dec_T (IZR z) (IZR z)); [reflexivity | congruence].
Qed.

Lemma power_nonzero (x : R) (z : Z) :
  x <> 0 -> exists v, Np.power x (IZR z) = Some v /\ v <> 0.
Proof.
  intros Hx. destruct (Rlt_dec 0 x) as [Hp|Hn].
  - rewrite power_pos by exact Hp. eexists. split; [reflexivity|].
    unfold Rpower. pose proof (exp_pos (IZR z * ln x)). lra.
  - rewrite power_neg_int by lra. eexists. split; [reflexivity|].
    apply powerRZ_NOR, Hx.
Qed.

Lemma weights_pos (self : F.family) (l : L.instance) (mu d v : R) :
  F.link self = Some l ->
  L.deriv l mu = Some d -> d <> 0 ->
  V.call (F.variance self) mu = Some v -> 0 < v ->
  exists w, F.weights self mu = Some w /\ 0 < w.
Proof.
  intros Hl Hd Hd0 Hv Hv0. unfold F.weights.
  rewrite Hl. cbn [bind]. rewrite Hd. cbn [bind]. rewrite Hv. cbn [bind].
  assert (H : 0 < d ^ 2 * v) by (apply Rmult_lt_0_compat; nra).
  rewrite div_some by lra. eexists. split; [reflexivity|].
  apply Rdiv_lt_0_compat; lra.
Qed.

(** The derivative of each link class a family accepts, where it is finite
    and not zero. *)
Lemma accepted_deriv_nonzero (norm : Dist) (c : L.cls) (a : string) (mu : R) :
  dist_ok norm ->
  In c [L.log; L.identity; L.sqrt; L.inverse_power; L.logit; L.probit;
        L.cauchy; L.cloglog] ->
  (c = L.sqrt -> 0 < mu) ->
  (c = L.inverse_power -> mu <> 0) ->
  exists d, L.deriv (L.new norm c a) mu = Some d /\ d <> 0.
Proof.
  intros Hnorm Hin Hsqrt Hinv.
  pose proof eps_bounds as He.
  pose proof (Logit_clean_bounds mu) as Hc.
  cbn [In] in Hin.
  destruct Hin as [<-|[<-|[<-|[<-|[<-|[<-|[<-|[<-|[]]]]]]]]].
  - (* log *)
    change (L.deriv (L.new norm L.log a) mu) with (L.Log_deriv mu).
    unfold L.Log_deriv, L.Log_clean.
    pose proof (clip_inf_bound mu Np.FLOAT_EPS) as Hb.
    rewrite div_some by lra. eexists. split; [reflexivity|].
    apply Rgt_not_eq, Rdiv_lt_0_compat; lra.
  - (* identity *)
    change (L.deriv (L.new norm L.identity a) mu) with (L.Power_deriv 1 mu).
    unfold L.Power_deriv. replace (1 - 1) with 0 by lra.
    rewrite power_0. cbn [bind]. eexists. split; [reflexivity | lra].
  - (* sqrt *)
    change (L.deriv (L.new norm L.sqrt a) mu) with (L.Power_deriv (/ 2) mu).
    unfold L.Power_deriv. rewrite power_pos by (apply Hsqrt; reflexivity).
    cbn [bind]. eexists. split; [reflexivity|].
    unfold Rpower. pose proof (exp_pos ((/ 2 - 1) * ln mu)). lra.
  - (* inverse_power *)
    change (L.deriv (L.new norm L.inverse_power a) mu)
      with (L.Power_deriv (-1) mu).
    unfold L.Power_deriv. replace (-1 - 1) with (IZR (-2)) by lra.
    destruct (power_nonzero mu (-2) (Hinv eq_refl)) as (v & -> & Hv).
    cbn [bind]. eexists. split; [reflexivity | lra].
  - (* logit *)
    change (L.deriv (L.new norm L.logit a) mu) with (L.Logit_deriv mu).
    rewrite Logit_deriv_some. eexists. split; [reflexivity|].
    apply Rgt_not_eq, Logit_deriv_pos.
  - (* probit *)
    change (L.deriv (L.new norm L.probit a) mu) with (L.CDFLink_deriv norm mu).
    unfold L.CDFLink_deriv.
    pose proof (pdf_pos norm Hnorm (ppf norm (L.Logit_clean mu))) as Hp.
    rewrite div_some by lra. eexists. split; [reflexivity|].
    apply Rgt_not_eq, Rdiv_lt_0_compat; lra.
  - (* cauchy *)
    change (L.deriv (L.new norm L.cauchy a) mu)
      with (L.CDFLink_deriv scipy_stats_cauchy mu).
    unfold L.CDFLink_deriv.
    pose proof (pdf_pos _ cauchy_ok
                  (ppf scipy_stats_cauchy (L.Logit_clean mu))) as Hp.
    rewrite div_some by lra. eexists. split; [reflexivity|].
    apply Rgt_not_eq, Rdiv_lt_0_compat; lra.
  - (* cloglog *)
    change (L.deriv (L.new norm L.cloglog a) mu) with (L.CLogLog_deriv mu).
    unfold L.CLogLog_deriv. rewrite log_some by lra. cbn [bind].
    assert (Hln : ln (1 - L.Logit_clean mu) < 0).
    { rewrite <- ln_1. apply ln_increasing; lra. }
    assert (Hprod : 0 < (L.Logit_clean mu - 1) * ln (1 - L.Logit_clean mu))
      by nra.
    rewrite div_some by lra. eexists. split; [reflexivity|].
    apply Rgt_not_eq, Rdiv_lt_0_compat; lra.
Qed.

Lemma init_accepts (norm : Dist) (k : F.kind) (c : L.cls) (a : string)
  (self : F.family) :
  k <> F.Family ->
  F.init norm k c a = F.Ok self ->
  existsb (L.issubclass c) (F.links k) = true /\
  F.link self = Some (L.new norm c a) /\
  F.variance self =
    match k with
    | F.Poisson | F.QuasiPoisson => V.mu
    | F.Gamma => V.mu_squared
    | F.Binomial => V.Binomial 1
    | _ => V.constant
    end.
Proof.
  intros Hk Hinit. split.
  - destruct (existsb (L.issubclass c) (F.links k)) eqn:Hv; [reflexivity|].
    destruct (invalid_link_error_at_init norm k c a Hk Hv) as (e & He & _).
    congruence.
  - destruct k; try contradiction; apply init_with_ok in Hinit; subst self;
      split; reflexivity.
Qed.

Lemma accepted_variance_pos (k : F.kind) (mu : R) :
  (k = F.Binomial \/ k = F.Gaussian \/ mu <> 0) ->
  exists v,
    V.call match k with
           | F.Poisson | F.QuasiPoisson => V.mu
           | F.Gamma => V.mu_squared
           | F.Binomial => V.Binomial 1
           | _ => V.constant
           end mu = Some v /\ 0 < v.
Proof.
  intros H.
  assert (Hpow : forall j : R, mu <> 0 ->
            exists v, V.call (V.Power j) mu = Some v /\ 0 < v).
  { intros j Hmu. unfold V.call, Np.fabs.
    rewrite power_pos by (apply Rabs_pos_lt, Hmu).
    eexists. split; [reflexivity | apply exp_pos]. }
  assert (Hconst : exists v, V.call V.constant mu = Some v /\ 0 < v).
  { exists 1. split; [reflexivity | lra]. }
  destruct k; try exact Hconst;
    try (apply Hpow; destruct H as [H|[H|H]]; [discriminate | discriminate | exact H]).
  rewrite Binomial_variance_one. eexists. split; [reflexivity|].
  unfold binomial_variance_formula.
  pose proof (clip_bounds (mu / 1) Np.FLOAT_EPS (1 - Np.FLOAT_EPS)) as Hc.
  pose proof eps_bounds as He.
  assert (Hc' := Hc ltac:(lra)). nra.
Qed.

(** C6 (as amended): for every family class and each link class it accepts,
    the IRLS weight [1 / (link.deriv(mu)^2 * variance(mu))] is finite and
    strictly positive at every mean of [weight_domain]: mean > 0 for Poisson,
    QuasiPoisson and Gamma, any mean for Gaussian (0 excepted under the
    inverse link) and for Binomial.  [norm] stands for [scipy.stats.norm]. *)
Theorem irls_weight_positive (norm : Dist) (k : F.kind) (c : L.cls)
  (a : string) (self : F.family) (mu : R) :
  dist_ok norm ->
  F.init norm k c a = F.Ok self ->
  weight_domain k c mu ->
  exists w, F.weights self mu = Some w /\ 0 < w.
Proof.
  intros Hnorm Hinit Hdom.
  assert (Hk : k <> F.Family) by (intros ->; exact Hdom).
  destruct (init_accepts norm k c a self Hk Hinit) as (Hacc & Hl & Hv).
  assert (Hd : exists d, L.deriv (L.new norm c a) mu = Some d /\ d <> 0).
  { apply accepted_deriv_nonzero; [exact Hnorm | | | ].
    - destruct k, c; try discriminate Hacc; try contradiction;
        cbn [In]; tauto.
    - intros ->. destruct k; try discriminate Hacc; try contradiction;
        exact Hdom.
    - intros ->. destruct k; try discriminate Hacc; try contradiction;
        try (apply Rgt_not_eq; exact Hdom).
      exact (Hdom eq_refl). }
  destruct Hd as (d & Hd & Hd0).
  destruct (accepted_variance_pos k mu) as (v & Hvar & Hv0).
  { destruct k; try contradiction; auto;
      right; right; apply Rgt_not_eq; exact Hdom. }
  rewrite <- Hv in Hvar.
  exact (weights_pos self _ mu d v Hl Hd Hd0 Hvar Hv0).
Qed.

Lemma irls_weight_positive_witness :
  exists self w,
    F.init scipy_stats_cauchy F.Poisson L.log "0x7f08" = F.Ok self /\
    F.weights self 2 = Some w /\ 0 < w.
Proof.
  eexists.
  destruct (irls_weight_positive scipy_stats_cauchy F.Poisson L.log "0x7f08"
              _ 2 cauchy_ok eq_refl) as (w & Hw & Hpos).
  - simpl. lra.
  - exists w. split; [reflexivity|]. split; [exact Hw | exact Hpos].
Defined.

(** C6 as stated fails at the boundary of the Poisson support: at mean 0 the
    variance is 0, and the weight [1 / 0] is not finite; under the sqrt link
    the derivative [0.5 * 0 ** -0.5] is not finite either.  For Gaussian under
    the inverse link the derivative [-(0 ** -2)] at mean 0 is not finite. *)
Lemma irls_weight_boundary_counterexample :
  (exists self,
     F.Poisson_init scipy_stats_cauchy L.log "0x7f08" = F.Ok self /\
     L.deriv (L.new scipy_stats_cauchy L.log "0x7f08") 0 =
       Some (1 / Np.FLOAT_EPS) /\
     V.call (F.variance self) 0 = Some 0 /\
     F.weights self 0 = None) /\
  (exists self,
     F.Poisson_init scipy_stats_cauchy L.sqrt "0x7f10" = F.Ok self /\
     L.deriv (L.new scipy_stats_cauchy L.sqrt "0x7f10") 0 = None /\
     F.weights self 0 = None) /\
  (exists self,
     F.Gaussian_init scipy_stats_cauchy L.inverse_power "0x7f11" = F.Ok self /\
     L.deriv (L.new scipy_stats_cauchy L.inverse_power "0x7f11") 0 = None /\
     F.weights self 0 = None).
Proof.
  pose proof eps_bounds as He.
  assert (Hneg : forall k, k < 0 -> Np.power 0 k = None).
  { intros k Hk. unfold Np.power.
    destruct (Req_dec_T k 0); [lra|].
    destruct (Rlt_dec 0 0); [lra|].
    destruct (Req_dec_T 0 0); [|congruence].
    destruct (Rlt_dec 0 k); [lra | reflexivity]. }
  split; [|split].
  - eexists. split; [reflexivity|].
    assert (Hd : L.deriv (L.new scipy_stats_cauchy L.log "0x7f08") 0 =
                 Some (1 / Np.FLOAT_EPS)).
    { change (L.deriv (L.new scipy_stats_cauchy L.log "0x7f08") 0)
        with (L.Log_deriv 0).
      unfold L.Log_deriv, L.Log_clean. rewrite clip_inf_low by lra.
      apply div_some. lra. }
    assert (Hv : V.call V.mu 0 = Some 0).
    { unfold V.call, V.mu, Np.fabs. rewrite Rabs_R0. apply power_1. }
    split; [exact Hd|]. split; [exact Hv|].
    unfold F.weights. cbn [F.link F._getlink F._link bind].
    rewrite Hd. cbn [bind F.variance]. rewrite Hv. cbn [bind].
    replace ((1 / Np.FLOAT_EPS) ^ 2 * 0) with 0 by lra.
    apply div_zero.
  - eexists. split; [reflexivity|].
    assert (Hd : L.deriv (L.new scipy_stats_cauchy L.sqrt "0x7f10") 0 = None).
    { change (L.deriv (L.new scipy_stats_cauchy L.sqrt "0x7f10") 0)
        with (L.Power_deriv (/ 2) 0).
      unfold L.Power_deriv. rewrite Hneg by lra. reflexivity. }
    split; [exact Hd|].
    unfold F.weights. cbn [F.link F._getlink F._link bind].
    rewrite Hd. reflexivity.
  - eexists. split; [reflexivity|].
    assert (Hd : L.deriv (L.new scipy_stats_cauchy L.inverse_power "0x7f11") 0
                 = None).
    { change (L.deriv (L.new scipy_stats_cauchy L.inverse_power "0x7f11") 0)
        with (L.Power_deriv (-1) 0).
      unfold L.Power_deriv. rewrite Hneg by lra. reflexivity. }
    split; [exact Hd|].
    unfold F.weights. cbn [F.link F._getlink F._link bind].
    rewrite Hd. reflexivity.
Qed.

(** ** Forward and inverse transforms *)

Lemma ln_le_sub (x : R) : 0 < x -> ln x <= x - 1.
Proof.
  intros Hx. pose proof (exp_ineq1_le (ln x)) as H.
  rewrite exp_ln in H by exact Hx. lra.
Qed.

Lemma Logit_clean_id (p : R) :
  Np.FLOAT_EPS <= p <= 1 - Np.FLOAT_EPS -> L.Logit_clean p = p.
Proof. intros H. apply clip_id, H. Qed.

Lemma Logit_clean_near (p : R) :
  0 < p < 1 -> Rabs (L.Logit_clean p - p) < Np.FLOAT_EPS.
Proof.
  intros Hp. pose proof eps_bounds as He.
  unfold L.Logit_clean, Np.clip, Rmin, Rmax.
  destruct (Rle_dec p Np.FLOAT_EPS); destruct (Rle_dec _ (1 - Np.FLOAT_EPS));
    apply Rabs_def1; lra.
Qed.

Lemma clip_inf_near (p : R) :
  0 < p -> Rabs (Np.clip_inf p Np.FLOAT_EPS - p) < Np.FLOAT_EPS.
Proof.
  intros Hp. pose proof eps_bounds as He.
  unfold Np.clip_inf, Rmax.
  destruct (Rle_dec p Np.FLOAT_EPS); apply Rabs_def1; lra.
Qed.

Lemma Logit_inverse_some (z : R) :
  L.Logit_inverse z = Some (1 / (1 + exp (- z))) /\
  0 < 1 / (1 + exp (- z)) < 1.
Proof.
  pose proof (exp_pos (- z)) as He.
  unfold L.Logit_inverse. rewrite div_some by lra.
  split; [reflexivity|]. split.
  - apply Rdiv_lt_0_compat; lra.
  - apply Rmult_lt_reg_r with (1 + exp (- z)); [lra|].
    unfold Rdiv. rewrite Rmult_assoc, Rinv_l by lra. lra.
Qed.

(** The logit of the inverse logit, and the inverse logit of the logit. *)
Lemma logit_expit (z : R) :
  ln ((1 / (1 + exp (- z))) / (1 - 1 / (1 + exp (- z)))) = z.
Proof.
  pose proof (exp_pos z) as He.
  rewrite exp_Ropp.
  replace ((1 / (1 + / exp z)) / (1 - 1 / (1 + / exp z))) with (exp z).
  - apply ln_exp.
  - field. lra.
Qed.

Lemma expit_logit (p : R) :
  0 < p < 1 -> 1 / (1 + exp (- ln (p / (1 - p)))) = p.
Proof.
  intros Hp.
  assert (Hq : 0 < p / (1 - p)) by (apply Rdiv_lt_0_compat; lra).
  rewrite exp_Ropp, exp_ln by exact Hq. field. lra.
Qed.

Lemma Logit_forward_inverse (p : R) :
  Np.FLOAT_EPS <= p <= 1 - Np.FLOAT_EPS ->
  exists z, L.Logit_call p = Some z /\ L.Logit_inverse z = Some p.
Proof.
  intros Hp. pose proof eps_bounds as He.
  rewrite Logit_call_some, Logit_clean_id by exact Hp.
  eexists. split; [reflexivity|].
  rewrite (proj1 (Logit_inverse_some _)). f_equal. apply expit_logit. lra.
Qed.

Lemma Logit_inverse_forward (z p : R) :
  L.Logit_inverse z = Some p ->
  Np.FLOAT_EPS <= p <= 1 - Np.FLOAT_EPS ->
  L.Logit_call p = Some z.
Proof.
  intros Hi Hp. rewrite (proj1 (Logit_inverse_some z)) in Hi.
  injection Hi as <-.
  rewrite Logit_call_some, Logit_clean_id by exact Hp.
  f_equal. apply logit_expit.
Qed.

Lemma Log_forward_inverse (p : R) :
  Np.FLOAT_EPS <= p ->
  exists z, L.Log_call p = Some z /\ L.Log_inverse z = Some p.
Proof.
  intros Hp. pose proof eps_bounds as He.
  unfold L.Log_call, L.Log_clean, L.Log_inverse.
  rewrite clip_inf_id by exact Hp. rewrite log_some by lra.
  eexists. split; [reflexivity|]. f_equal. apply exp_ln. lra.
Qed.

Lemma Log_inverse_forward (z p : R) :
  L.Log_inverse z = Some p -> Np.FLOAT_EPS <= p -> L.Log_call p = Some z.
Proof.
  unfold L.Log_inverse. intros Hi Hp. injection Hi as <-.
  pose proof (exp_pos z) as He.
  unfold L.Log_call, L.Log_clean. rewrite clip_inf_id by exact Hp.
  rewrite log_some by exact He. f_equal. apply ln_exp.
Qed.

Lemma CLogLog_call_some (p : R) :
  L.CLogLog_call p = Some (ln (- ln (1 - L.Logit_clean p))) /\
  0 < - ln (1 - L.Logit_clean p).
Proof.
  pose proof (Logit_clean_bounds p) as Hc. pose proof eps_bounds as He.
  assert (Hln : ln (1 - L.Logit_clean p) < 0).
  { rewrite <- ln_1. apply ln_increasing; lra. }
  unfold L.CLogLog_call. rewrite log_some by lra. cbn [bind].
  rewrite log_some by lra. split; [reflexivity | lra].
Qed.

Lemma CLogLog_forward_inverse (p : R) :
  Np.FLOAT_EPS <= p <= 1 - Np.FLOAT_EPS ->
  exists z, L.CLogLog_call p = Some z /\ L.CLogLog_inverse z = Some p.
Proof.
  intros Hp. pose proof eps_bounds as He.
  destruct (CLogLog_call_some p) as [Hc Hpos].
  rewrite Logit_clean_id in Hc, Hpos by exact Hp.
  eexists. split; [exact Hc|]. unfold L.CLogLog_inverse. f_equal.
  rewrite exp_ln by exact Hpos. rewrite Ropp_involutive, exp_ln by lra. lra.
Qed.

Lemma CLogLog_inverse_range (z : R) : 0 < 1 - exp (- exp z) < 1.
Proof.
  pose proof (exp_pos z) as Hz. pose proof (exp_pos (- exp z)) as Hu.
  assert (exp (- exp z) < 1).
  { rewrite <- exp_0. apply exp_increasing. lra. }
  lra.
Qed.

Lemma CLogLog_inverse_forward (z p : R) :
  L.CLogLog_inverse z = Some p ->
  Np.FLOAT_EPS <= p <= 1 - Np.FLOAT_EPS ->
  L.CLogLog_call p = Some z.
Proof.
  unfold L.CLogLog_inverse. intros Hi Hp. injection Hi as <-.
  rewrite (proj1 (CLogLog_call_some _)), Logit_clean_id by exact Hp.
  f_equal. replace (1 - (1 - exp (- exp z))) with (exp (- exp z)) by lra.
  rewrite ln_exp, Ropp_involutive. apply ln_exp.
Qed.

Lemma CDFLink_forward_inverse (d : Dist) (p : R) :
  dist_ok d ->
  Np.FLOAT_EPS <= p <= 1 - Np.FLOAT_EPS ->
  exists z, L.CDFLink_call d p = Some z /\ L.CDFLink_inverse d z = Some p.
Proof.
  intros Hd Hp. pose proof eps_bounds as He.
  unfold L.CDFLink_call, L.CDFLink_inverse.
  rewrite Logit_clean_id by exact Hp.
  eexists. split; [reflexivity|]. f_equal. apply (cdf_ppf d Hd). lra.
Qed.

Lemma CDFLink_inverse_forward (d : Dist) (z p : R) :
  dist_ok d ->
  L.CDFLink_inverse d z = Some p ->
  Np.FLOAT_EPS <= p <= 1 - Np.FLOAT_EPS ->
  L.CDFLink_call d p = Some z.
Proof.
  unfold L.CDFLink_inverse. intros Hd Hi Hp. injection Hi as <-.
  unfold L.CDFLink_call. rewrite Logit_clean_id by exact Hp.
  f_equal. apply (ppf_cdf d Hd).
Qed.

Lemma Rpower_pos (x y : R) : 0 < Rpower x y.
Proof. unfold Rpower. apply exp_pos. Qed.

Lemma Power_forward_inverse (k p : R) :
  k <> 0 -> 0 < p ->
  exists z, L.Power_call k p = Some z /\ 0 < z /\
            L.Power_inverse k z = Some p.
Proof.
  intros Hk Hp. unfold L.Power_call, L.Power_inverse.
  rewrite power_pos by exact Hp.
  eexists. split; [reflexivity|]. split; [apply Rpower_pos|].
  rewrite div_some by exact Hk. cbn [bind].
  rewrite power_pos by apply Rpower_pos. f_equal.
  rewrite Rpower_mult. replace (k * (1 / k)) with 1 by (field; exact Hk).
  apply Rpower_1, Hp.
Qed.

Lemma Power_inverse_forward (k z p : R) :
  k <> 0 -> 0 < z ->
  L.Power_inverse k z = Some p ->
  L.Power_call k p = Some z.
Proof.
  intros Hk Hz. unfold L.Power_inverse, L.Power_call.
  rewrite div_some by exact Hk. cbn [bind].
  rewrite power_pos by exact Hz. intros Hi. injection Hi as <-.
  rewrite power_pos by apply Rpower_pos. f_equal.
  rewrite Rpower_mult. replace (1 / k * k) with 1 by (field; exact Hk).
  apply Rpower_1, Hz.
Qed.

Lemma NegativeBinomial_call_some (a p : R) :
  0 < a -> Np.FLOAT_EPS <= p ->
  L.NegativeBinomial_call a p = Some (ln (p / (p + 1 / a))) /\
  0 < p / (p + 1 / a) < 1.
Proof.
  intros Ha Hp. pose proof eps_bounds as He.
  assert (Hia : 0 < 1 / a) by (apply Rdiv_lt_0_compat; lra).
  assert (Hq : 0 < p / (p + 1 / a) < 1).
  { split.
    - apply Rdiv_lt_0_compat; lra.
    - apply Rmult_lt_reg_r with (p + 1 / a); [lra|].
      unfold Rdiv at 1. rewrite Rmult_assoc, Rinv_l by lra. lra. }
  unfold L.NegativeBinomial_call, L.NegativeBinomial_clean.
  rewrite clip_inf_id by exact Hp.
  rewrite div_some by lra. cbn [bind].
  rewrite div_some by lra. cbn [bind].
  rewrite log_some by lra. split; [reflexivity | exact Hq].
Qed.

Lemma NegativeBinomial_forward_inverse (a p : R) :
  0 < a -> Np.FLOAT_EPS <= p ->
  exists z, L.NegativeBinomial_call a p = Some z /\ z < 0 /\
            L.NegativeBinomial_inverse a z = Some p.
Proof.
  intros Ha Hp. pose proof eps_bounds as He.
  destruct (NegativeBinomial_call_some a p Ha Hp) as [Hc Hq].
  eexists. split; [exact Hc|]. split.
  - rewrite <- ln_1. apply ln_increasing; lra.
  - unfold L.NegativeBinomial_inverse.
    rewrite exp_Ropp, exp_ln by lra.
    assert (Hden : a * (1 - / (p / (p + 1 / a))) = - / p).
    { field. split; [lra|]. split; [lra|].
      assert (0 < p * a) by (apply Rmult_lt_0_compat; lra). lra. }
    rewrite Hden.
    assert (Hip : 0 < / p) by (apply Rinv_0_lt_compat; lra).
    rewrite div_some by lra. f_equal. field. lra.
Qed.

Lemma NegativeBinomial_inverse_some (a z : R) :
  0 < a -> z < 0 ->
  L.NegativeBinomial_inverse a z = Some (exp z / (a * (1 - exp z))) /\
  0 < exp z < 1.
Proof.
  intros Ha Hz. pose proof (exp_pos z) as Ht.
  assert (Ht1 : exp z < 1).
  { rewrite <- exp_0. apply exp_increasing, Hz. }
  unfold L.NegativeBinomial_inverse. rewrite exp_Ropp.
  assert (Hden : a * (1 - / exp z) <> 0).
  { assert (1 < / exp z).
    { rewrite <- Rinv_1 at 1. apply Rinv_lt_contravar; lra. }
    apply Rlt_not_eq. nra. }
  rewrite div_some by exact Hden. split; [|lra].
  f_equal. field. repeat split; lra.
Qed.

Lemma NegativeBinomial_inverse_forward (a z p : R) :
  0 < a -> z < 0 ->
  L.NegativeBinomial_inverse a z = Some p ->
  Np.FLOAT_EPS <= p ->
  L.NegativeBinomial_call a p = Some z.
Proof.
  intros Ha Hz Hi Hp.
  destruct (NegativeBinomial_inverse_some a z Ha Hz) as [Hs Ht].
  rewrite Hs in Hi. injection Hi as <-.
  rewrite (proj1 (NegativeBinomial_call_some a _ Ha Hp)). f_equal.
  transitivity (ln (exp z)); [|apply ln_exp].
  f_equal. field. repeat split; lra.
Qed.

Lemma stable_clipped (l : L.instance) (p : R) :
  stable_range l p -> clipped_range l p.
Proof.
  unfold stable_range, clipped_range, power_domain.
  pose proof eps_value as He.
  destruct (transform_of l) as [[]|]; try contradiction; try (rewrite He; lra).
  - intros [H | ((Hp & _) & _)]; [right; exact H | left].
    assert (0 < / 2 ^ 64) by (apply Rinv_0_lt_compat; lra). lra.
Qed.

(** The forward transform of a mean of the interior of the mean range is
    the forward transform of the clipped mean, less than eps away. *)
Lemma Logit_clip (p : R) :
  0 < p < 1 ->
  exists z q, L.Logit_call p = Some z /\
              Np.FLOAT_EPS <= q <= 1 - Np.FLOAT_EPS /\
              Rabs (q - p) < Np.FLOAT_EPS /\ L.Logit_call q = Some z.
Proof.
  intros Hp.
  destruct (Logit_forward_inverse (L.Logit_clean p) (Logit_clean_bounds p))
    as (z & Hc & _).
  exists z, (L.Logit_clean p).
  split; [|split; [apply Logit_clean_bounds |
                   split; [apply Logit_clean_near, Hp | exact Hc]]].
  rewrite <- Hc, !Logit_call_some.
  rewrite (Logit_clean_id (L.Logit_clean p)) by apply Logit_clean_bounds.
  reflexivity.
Qed.

Lemma CLogLog_clip (p : R) :
  0 < p < 1 ->
  exists z q, L.CLogLog_call p = Some z /\
              Np.FLOAT_EPS <= q <= 1 - Np.FLOAT_EPS /\
              Rabs (q - p) < Np.FLOAT_EPS /\ L.CLogLog_call q = Some z.
Proof.
  intros Hp.
  destruct (CLogLog_forward_inverse (L.Logit_clean p) (Logit_clean_bounds p))
    as (z & Hc & _).
  exists z, (L.Logit_clean p).
  split; [|split; [apply Logit_clean_bounds |
                   split; [apply Logit_clean_near, Hp | exact Hc]]].
  rewrite <- Hc, !(proj1 (CLogLog_call_some _)).
  rewrite (Logit_clean_id (L.Logit_clean p)) by apply Logit_clean_bounds.
  reflexivity.
Qed.

Lemma CDFLink_clip (d : Dist) (p : R) :
  0 < p < 1 ->
  exists z q, L.CDFLink_call d p = Some z /\
              Np.FLOAT_EPS <= q <= 1 - Np.FLOAT_EPS /\
              Rabs (q - p) < Np.FLOAT_EPS /\ L.CDFLink_call d q = Some z.
Proof.
  intros Hp.
  exists (ppf d (L.Logit_clean p)), (L.Logit_clean p).
  split; [reflexivity|]. split; [apply Logit_clean_bounds|].
  split; [apply Logit_clean_near, Hp|].
  unfold L.CDFLink_call.
  rewrite (Logit_clean_id (L.Logit_clean p)) by apply Logit_clean_bounds.
  reflexivity.
Qed.

Lemma Log_clip (p : R) :
  0 < p ->
  exists z q, L.Log_call p = Some z /\ Np.FLOAT_EPS <= q /\
              Rabs (q - p) < Np.FLOAT_EPS /\ L.Log_call q = Some z.
Proof.
  intros Hp.
  destruct (Log_forward_inverse (L.Log_clean p) (clip_inf_bound p _))
    as (z & Hc & _).
  exists z, (L.Log_clean p).
  split; [|split; [apply clip_inf_bound |
                   split; [apply clip_inf_near, Hp | exact Hc]]].
  rewrite <- Hc. unfold L.Log_call, L.Log_clean.
  rewrite (clip_inf_id (Np.clip_inf p _)) by apply clip_inf_bound.
  reflexivity.
Qed.

Lemma NegativeBinomial_clip (a p : R) :
  0 < a -> 0 < p ->
  exists z q, L.NegativeBinomial_call a p = Some z /\ Np.FLOAT_EPS <= q /\
              Rabs (q - p) < Np.FLOAT_EPS /\
              L.NegativeBinomial_call a q = Some z.
Proof.
  intros Ha Hp.
  destruct (NegativeBinomial_forward_inverse a (L.NegativeBinomial_clean p) Ha
              (clip_inf_bound p _)) as (z & Hc & _ & _).
  exists z, (L.NegativeBinomial_clean p).
  split; [|split; [apply clip_inf_bound |
                   split; [apply clip_inf_near, Hp | exact Hc]]].
  rewrite <- Hc. unfold L.NegativeBinomial_call, L.NegativeBinomial_clean.
  rewrite (clip_inf_id (Np.clip_inf p _)) by apply clip_inf_bound.
  reflexivity.
Qed.

Lemma identity_round_trip (x : R) :
  L.Power_call 1 x = Some x /\ L.Power_inverse 1 x = Some x.
Proof.
  unfold L.Power_call, L.Power_inverse. rewrite div_some by lra. cbn [bind].
  replace (1 / 1) with 1 by field. split; apply power_1.
Qed.

(** C4 (as amended): for every link whose transform is a bijection and
    every mean [p] of its stable range (where the round trip is well
    conditioned in double precision), [forward(p)] is finite, lies in the
    range of the linear predictor, and [inverse(forward(p)) = p]; for every
    linear predictor [z] of the range whose [inverse(z)] is a mean of the
    stable range, [forward(inverse(z)) = z].  On the interior of the mean
    range of a link that clips, [forward(p)] is finite and is the forward
    transform of the clipped mean [q], which the clipping leaves unchanged
    and which is less than eps away from [p]. *)
Theorem link_round_trip (l : L.instance) :
  link_ok l ->
  (forall p, stable_range l p ->
     exists z, L.call l p = Some z /\ predictor_range l z /\
               L.inverse l z = Some p) /\
  (forall z p, predictor_range l z -> L.inverse l z = Some p ->
     stable_range l p -> L.call l p = Some z) /\
  (forall p, mean_range l p -> transform_of l <> Some L.Power ->
     exists z q, L.call l p = Some z /\ clipped_range l q /\
                 Rabs (q - p) < Np.FLOAT_EPS /\ L.call l q = Some z).
Proof.
  intros Hok.
  assert (Hsc : forall p, stable_range l p -> clipped_range l p)
    by (intro p; apply stable_clipped).
  revert Hok Hsc.
  unfold link_ok, clipped_range, stable_range, predictor_range, mean_range,
    L.call, L.inverse, transform_of.
  destruct (L.lookup L.defines_transform (L.class_of l)) as [[]|];
    try contradiction; intros Hok Hsc.
  - (* Logit *)
    split; [|split].
    + intros p Hp.
      destruct (Logit_forward_inverse p (Hsc p Hp)) as (z & Hc & Hi).
      exists z. auto.
    + intros z p _ Hi Hp. apply Logit_inverse_forward; auto.
    + intros p Hp _. apply Logit_clip, Hp.
  - (* Power *)
    unfold power_domain in *. destruct Hok as (k & -> & Hk). cbn [bind].
    split; [|split].
    + intros p [Hk1 | ((Hpos & _) & _)].
      * injection Hk1 as ->. exists p.
        destruct (identity_round_trip p) as [Hc Hi]. auto.
      * assert (H64 : 0 < / 2 ^ 64) by (apply Rinv_0_lt_compat; lra).
        destruct (Power_forward_inverse k p Hk ltac:(lra))
          as (z & Hc & Hz & Hi).
        exists z. auto.
    + intros z p [Hz|Hk1] Hi _.
      * apply Power_inverse_forward; assumption.
      * injection Hk1 as ->. destruct (identity_round_trip z) as [Hc Hi'].
        rewrite Hi' in Hi. injection Hi as <-. exact Hc.
    + intros p _ Hn. contradiction Hn. reflexivity.
  - (* Log *)
    split; [|split].
    + intros p Hp.
      destruct (Log_forward_inverse p (Hsc p Hp)) as (z & Hc & Hi).
      exists z. auto.
    + intros z p _ Hi Hp. apply Log_inverse_forward; auto.
    + intros p Hp _. apply Log_clip, Hp.
  - (* CDFLink *)
    destruct Hok as (d & -> & Hd). cbn [bind]. split; [|split].
    + intros p Hp.
      destruct (CDFLink_forward_inverse d p Hd (Hsc p Hp)) as (z & Hc & Hi).
      exists z. auto.
    + intros z p _ Hi Hp. apply CDFLink_inverse_forward; auto.
    + intros p Hp _. apply CDFLink_clip, Hp.
  - (* CLogLog *)
    split; [|split].
    + intros p Hp.
      destruct (CLogLog_forward_inverse p (Hsc p Hp)) as (z & Hc & Hi).
      exists z. auto.
    + intros z p _ Hi Hp. apply CLogLog_inverse_forward; auto.
    + intros p Hp _. apply CLogLog_clip, Hp.
  - (* NegativeBinomial *)
    destruct Hok as (a & -> & Ha). cbn [bind]. split; [|split].
    + intros p ((Hp & _) & _).
      apply NegativeBinomial_forward_inverse; assumption.
    + intros z p Hz Hi ((Hp & _) & _).
      apply NegativeBinomial_inverse_forward with (z := z); assumption.
    + intros p Hp _. apply NegativeBinomial_clip; assumption.
Qed.

Lemma link_round_trip_witness :
  let l := L.new scipy_stats_cauchy L.cauchy "0x7f09" in
  exists z, L.call l (/ 2) = Some z /\ predictor_range l z /\
            L.inverse l z = Some (/ 2).
Proof.
  intros l.
  assert (Hok : link_ok l).
  { exists scipy_stats_cauchy. split; [reflexivity | exact cauchy_ok]. }
  apply (proj1 (link_round_trip l Hok)).
  change (/ 2 ^ 10 <= / 2 <= 1 - / 2 ^ 10). lra.
Defined.

Lemma ln_2_bounds : / 2 < ln 2 <= 1.
Proof.
  split; [exact ln_lt_2|]. pose proof (ln_le_sub 2). lra.
Qed.

Lemma ln_eps : ln Np.FLOAT_EPS = - (52 * ln 2).
Proof.
  unfold Np.FLOAT_EPS. rewrite ln_Rinv by (apply pow_lt; lra).
  rewrite ln_pow by lra. f_equal. f_equal.
  change 52%nat with (Z.to_nat 52). rewrite INR_IZR_INZ.
  rewrite Z2Nat.id by lia. reflexivity.
Qed.

Lemma exp_100_large : / (1 + exp 100) < Np.FLOAT_EPS.
Proof.
  pose proof ln_2_bounds as H2. pose proof eps_bounds as He.
  assert (Hexp : exp (ln Np.FLOAT_EPS) = Np.FLOAT_EPS) by (apply exp_ln; lra).
  assert (Hlt : exp (Ropp 100) < exp (ln Np.FLOAT_EPS)).
  { apply exp_increasing. rewrite ln_eps. lra. }
  rewrite Hexp, exp_Ropp in Hlt.
  pose proof (exp_pos 100) as Hp.
  apply Rlt_trans with (/ exp 100); [|exact Hlt].
  apply Rinv_lt_contravar; [nra | lra].
Qed.

(** C4 as stated fails.  For the logit link the linear predictor -100 is
    mapped by [inverse] to a mean below eps, which [forward] clips to eps:
    forward(inverse(-100)) = ln(eps / (1 - eps)) > -53.  For [Power] with
    exponent 0, forward(2) = 1 and inverse(1) divides 1.0 by the zero
    exponent. *)
Lemma link_round_trip_counterexample :
  let l := L.new scipy_stats_cauchy L.logit "0x7f0a" in
  let l0 := L.mkInstance L.Power (Some 0) None None "0x7f0b" in
  (exists p y,
     L.inverse l (-100) = Some p /\ 0 < p < 1 /\
     L.call l p = Some y /\
     y = ln (Np.FLOAT_EPS / (1 - Np.FLOAT_EPS)) /\ -53 < y) /\
  L.call l0 2 = Some 1 /\ L.inverse l0 1 = None.
Proof.
  intros l l0. pose proof eps_bounds as He. split.
  - destruct (Logit_inverse_some (-100)) as [Hi Hr].
    exists (1 / (1 + exp (- -100))), (ln (Np.FLOAT_EPS / (1 - Np.FLOAT_EPS))).
    split; [exact Hi|]. split; [exact Hr|].
    change (L.call l (1 / (1 + exp (- -100))))
      with (L.Logit_call (1 / (1 + exp (- -100)))).
    rewrite Logit_call_some.
    assert (Hc : L.Logit_clean (1 / (1 + exp (- -100))) = Np.FLOAT_EPS).
    { apply clip_low; [lra|]. replace (- -100) with 100 by lra.
      pose proof exp_100_large. unfold Rdiv. lra. }
    rewrite Hc. split; [reflexivity|]. split; [reflexivity|].
    pose proof ln_2_bounds as H2.
    apply Rlt_trans with (ln Np.FLOAT_EPS); [rewrite ln_eps; lra|].
    apply ln_increasing; [lra|].
    apply Rmult_lt_reg_r with (1 - Np.FLOAT_EPS); [lra|].
    unfold Rdiv. rewrite Rmult_assoc, Rinv_l by lra. nra.
  - split.
    + change (L.call l0 2) with (Np.power 2 0). apply power_0.
    + change (L.inverse l0 1) with (e <- Np.div 1 0 ;; Np.power 1 e).
      rewrite div_zero. reflexivity.
Qed.

(** ** The derivative of the inverse transform *)

Lemma Logit_inverse_deriv_consistent (z : R) :
  exists g p d,
    L.Logit_inverse_deriv z = Some g /\ L.Logit_inverse z = Some p /\
    L.Logit_deriv p = Some d /\ d <> 0 /\
    Rabs (g - 1 / d) <= 52 * Np.FLOAT_EPS /\
    (Np.FLOAT_EPS <= p <= 1 - Np.FLOAT_EPS -> g = 1 / d).
Proof.
  pose proof eps_bounds as He. pose proof (exp_pos z) as Ht.
  destruct (Logit_inverse_some z) as [Hi Hr].
  set (p := 1 / (1 + exp (- z))) in *.
  pose proof (Logit_clean_bounds p) as Hc.
  pose proof (Logit_clean_near p Hr) as Hn.
  pose proof (Logit_deriv_pos p) as Hd.
  exists (exp z / (1 + exp z) ^ 2), p, (1 / (L.Logit_clean p * (1 - L.Logit_clean p))).
  assert (Hg : exp z / (1 + exp z) ^ 2 = p * (1 - p)).
  { unfold p. rewrite exp_Ropp. field. lra. }
  assert (Hinv : 1 / (1 / (L.Logit_clean p * (1 - L.Logit_clean p))) =
                 L.Logit_clean p * (1 - L.Logit_clean p)).
  { field. nra. }
  split.
  { unfold L.Logit_inverse_deriv. apply div_some. nra. }
  split; [exact Hi|]. split; [apply Logit_deriv_some|].
  split; [lra|]. rewrite Hinv, Hg. split.
  - replace (p * (1 - p) - L.Logit_clean p * (1 - L.Logit_clean p))
      with ((L.Logit_clean p - p) * (L.Logit_clean p + p - 1)) by ring.
    rewrite Rabs_mult.
    assert (Rabs (L.Logit_clean p + p - 1) <= 1) by (apply Rabs_le; lra).
    pose proof (Rabs_pos (L.Logit_clean p - p)).
    pose proof (Rabs_pos (L.Logit_clean p + p - 1)). nra.
  - intros Hp. rewrite Logit_clean_id by exact Hp. reflexivity.
Qed.

Lemma Log_inverse_deriv_consistent (z : R) :
  exists g p d,
    L.Log_inverse_deriv z = Some g /\ L.Log_inverse z = Some p /\
    L.Log_deriv p = Some d /\ d <> 0 /\
    Rabs (g - 1 / d) <= 52 * Np.FLOAT_EPS /\
    (Np.FLOAT_EPS <= p -> g = 1 / d).
Proof.
  pose proof eps_bounds as He. pose proof (exp_pos z) as Ht.
  pose proof (clip_inf_bound (exp z) Np.FLOAT_EPS) as Hb.
  pose proof (clip_inf_near (exp z) Ht) as Hn.
  exists (exp z), (exp z), (1 / L.Log_clean (exp z)).
  assert (Hinv : 1 / (1 / L.Log_clean (exp z)) = L.Log_clean (exp z)).
  { unfold L.Log_clean. field. lra. }
  split; [reflexivity|]. split; [reflexivity|]. split.
  { unfold L.Log_deriv, L.Log_clean. apply div_some. lra. }
  split.
  { unfold L.Log_clean. apply Rgt_not_eq, Rdiv_lt_0_compat; lra. }
  rewrite Hinv. unfold L.Log_clean. split.
  - rewrite Rabs_minus_sym. lra.
  - intros Hp. rewrite clip_inf_id by exact Hp. reflexivity.
Qed.

Lemma Power_inverse_deriv_consistent (k z : R) :
  k <> 0 -> 0 < z ->
  exists g p d,
    L.Power_inverse_deriv k z = Some g /\ L.Power_inverse k z = Some p /\
    L.Power_deriv k p = Some d /\ d <> 0 /\ g = 1 / d.
Proof.
  intros Hk Hz.
  exists (Rpower z ((1 - k) / k) / k), (Rpower z (1 / k)),
         (k * Rpower (Rpower z (1 / k)) (k - 1)).
  assert (Hx : 0 < Rpower (Rpower z (1 / k)) (k - 1)) by apply Rpower_pos.
  split.
  { unfold L.Power_inverse_deriv. rewrite div_some by exact Hk. cbn [bind].
    rewrite power_pos by exact Hz. cbn [bind]. apply div_some, Hk. }
  split.
  { unfold L.Power_inverse. rewrite div_some by exact Hk. cbn [bind].
    apply power_pos, Hz. }
  split.
  { unfold L.Power_deriv. rewrite power_pos by apply Rpower_pos.
    reflexivity. }
  split.
  { apply Rmult_integral_contrapositive_currified; lra. }
  rewrite Rpower_mult.
  replace ((1 - k) / k) with (- (1 / k * (k - 1))) by (field; exact Hk).
  rewrite Rpower_Ropp. field. split; [|exact Hk].
  rewrite <- Rpower_mult. lra.
Qed.

Lemma NegativeBinomial_inverse_deriv_consistent (a z : R) :
  0 < a -> z < 0 ->
  exists g p d,
    L.NegativeBinomial_inverse_deriv a z = Some g /\
    L.NegativeBinomial_inverse a z = Some p /\
    L.NegativeBinomial_deriv a p = Some d /\ d <> 0 /\ g = 1 / d.
Proof.
  intros Ha Hz.
  destruct (NegativeBinomial_inverse_some a z Ha Hz) as [Hi Ht].
  set (t := exp z) in *. set (p := t / (a * (1 - t))) in *.
  assert (Hden : 0 < a * (1 - t) ^ 2) by (apply Rmult_lt_0_compat; nra).
  assert (Hsum : p + a * p ^ 2 = t / (a * (1 - t) ^ 2)).
  { unfold p. field. split; lra. }
  assert (Hpos : 0 < t / (a * (1 - t) ^ 2)) by (apply Rdiv_lt_0_compat; lra).
  exists (t / (a * (1 - t) ^ 2)), p, (1 / (p + a * p ^ 2)).
  split.
  { unfold L.NegativeBinomial_inverse_deriv. fold t. apply div_some. lra. }
  split; [exact Hi|]. split.
  { unfold L.NegativeBinomial_deriv. apply div_some. lra. }
  rewrite Hsum. split.
  - apply Rgt_not_eq, Rdiv_lt_0_compat; lra.
  - field. split; [|split]; lra.
Qed.

Lemma CDFLink_inverse_deriv_consistent (dist : Dist) (z : R) :
  dist_ok dist ->
  exists g p d,
    L.CDFLink_inverse_deriv dist z = Some g /\
    L.CDFLink_inverse dist z = Some p /\
    L.CDFLink_deriv dist p = Some d /\ d <> 0 /\ g = 1 / d.
Proof.
  intros Hd.
  pose proof (pdf_pos dist Hd (ppf dist (L.Logit_clean (cdf dist z)))) as Hp.
  assert (Hderiv : L.CDFLink_deriv dist (cdf dist z) =
            Some (1 / pdf dist (ppf dist (L.Logit_clean (cdf dist z))))).
  { unfold L.CDFLink_deriv. apply div_some. lra. }
  assert (Hnz : 1 / pdf dist (ppf dist (L.Logit_clean (cdf dist z))) <> 0).
  { apply Rgt_not_eq, Rdiv_lt_0_compat; lra. }
  exists (1 / (1 / pdf dist (ppf dist (L.Logit_clean (cdf dist z))))),
         (cdf dist z),
         (1 / pdf dist (ppf dist (L.Logit_clean (cdf dist z)))).
  split.
  { unfold L.CDFLink_inverse_deriv, L.CDFLink_inverse. cbn [bind].
    rewrite Hderiv. cbn [bind]. apply div_some, Hnz. }
  split; [reflexivity|]. split; [exact Hderiv|]. split; [exact Hnz|].
  reflexivity.
Qed.

Lemma neg_xlnx_mono (u v : R) :
  0 < u <= v -> 1 <= - ln v -> - (u * ln u) <= - (v * ln v).
Proof.
  intros [Hu Huv] Hv.
  assert (Hq : 0 < v / u) by (apply Rdiv_lt_0_compat; lra).
  pose proof (ln_le_sub (v / u) Hq) as H.
  unfold Rdiv in H at 1. rewrite ln_mult, ln_Rinv in H
    by (try apply Rinv_0_lt_compat; lra).
  assert (Hm : u * (v / u) = v) by (field; lra).
  assert (H1 : u * (ln v - ln u) <= v - u) by nra.
  nra.
Qed.

Lemma CLogLog_deriv_some (p : R) :
  L.CLogLog_deriv p =
    Some (1 / ((L.Logit_clean p - 1) * ln (1 - L.Logit_clean p))) /\
  0 < (L.Logit_clean p - 1) * ln (1 - L.Logit_clean p).
Proof.
  pose proof (Logit_clean_bounds p) as Hc. pose proof eps_bounds as He.
  assert (Hln : ln (1 - L.Logit_clean p) < 0).
  { rewrite <- ln_1. apply ln_increasing; lra. }
  assert (Hprod : 0 < (L.Logit_clean p - 1) * ln (1 - L.Logit_clean p))
    by nra.
  unfold L.CLogLog_deriv. rewrite log_some by lra. cbn [bind].
  rewrite div_some by lra. split; [reflexivity | exact Hprod].
Qed.

Lemma CLogLog_inverse_deriv_consistent (z : R) :
  exists g p d,
    L.CLogLog_inverse_deriv z = Some g /\ L.CLogLog_inverse z = Some p /\
    L.CLogLog_deriv p = Some d /\ d <> 0 /\
    Rabs (g - 1 / d) <= 52 * Np.FLOAT_EPS /\
    (Np.FLOAT_EPS <= p <= 1 - Np.FLOAT_EPS -> g = 1 / d).
Proof.
  pose proof eps_bounds as He. pose proof ln_2_bounds as H2.
  pose proof (exp_pos z) as Hz.
  pose proof (CLogLog_inverse_range z) as Hr.
  set (u := exp (- exp z)) in *.
  assert (Hu : 0 < u) by apply exp_pos.
  assert (Hlnu : ln u = - exp z) by apply ln_exp.
  destruct (CLogLog_deriv_some (1 - u)) as [Hd Hpos].
  set (pc := L.Logit_clean (1 - u)) in *.
  exists (exp (z - exp z)), (1 - u), (1 / ((pc - 1) * ln (1 - pc))).
  assert (Hg : exp (z - exp z) = - (u * ln u)).
  { unfold Rminus at 1. rewrite exp_plus. fold u. rewrite Hlnu. ring. }
  assert (Hinv : 1 / (1 / ((pc - 1) * ln (1 - pc))) = - ((1 - pc) * ln (1 - pc))).
  { replace (- ((1 - pc) * ln (1 - pc))) with ((pc - 1) * ln (1 - pc)) by ring.
    generalize dependent ((pc - 1) * ln (1 - pc)). intros X _ HX.
    field. lra. }
  split; [reflexivity|]. split; [reflexivity|]. split; [exact Hd|].
  split; [apply Rgt_not_eq, Rdiv_lt_0_compat; lra|].
  rewrite Hinv, Hg.
  assert (Hexact : Np.FLOAT_EPS <= 1 - u <= 1 - Np.FLOAT_EPS ->
            - (u * ln u) = - ((1 - pc) * ln (1 - pc))).
  { intros Hp. unfold pc. rewrite Logit_clean_id by exact Hp.
    replace (1 - (1 - u)) with u by lra. reflexivity. }
  split; [|exact Hexact].
  destruct (Rle_dec Np.FLOAT_EPS (1 - u)) as [Hlo|Hlo];
    [destruct (Rle_dec (1 - u) (1 - Np.FLOAT_EPS)) as [Hhi|Hhi]|].
  - rewrite Hexact by lra. replace (_ - _) with 0 by lra.
    rewrite Rabs_R0. lra.
  - (* u < eps: the clipped mean is 1 - eps *)
    assert (Hpc : pc = 1 - Np.FLOAT_EPS).
    { unfold pc, L.Logit_clean. apply clip_high; lra. }
    rewrite Hpc. replace (1 - (1 - Np.FLOAT_EPS)) with Np.FLOAT_EPS by lra.
    assert (Hmono : - (u * ln u) <= - (Np.FLOAT_EPS * ln Np.FLOAT_EPS)).
    { apply neg_xlnx_mono; [lra|]. rewrite ln_eps. lra. }
    assert (Hupos : 0 <= - (u * ln u)).
    { rewrite Hlnu. nra. }
    assert (Hb : - (Np.FLOAT_EPS * ln Np.FLOAT_EPS) <= 52 * Np.FLOAT_EPS).
    { rewrite ln_eps. nra. }
    apply Rabs_le. lra.
  - (* u > 1 - eps: the clipped mean is eps *)
    assert (Hpc : pc = Np.FLOAT_EPS).
    { unfold pc, L.Logit_clean. apply clip_low; lra. }
    rewrite Hpc.
    assert (Hl1 : - ln (1 - Np.FLOAT_EPS) <= 2 * Np.FLOAT_EPS).
    { rewrite <- ln_Rinv by lra.
      assert (Hip : 0 < / (1 - Np.FLOAT_EPS))
        by (apply Rinv_0_lt_compat; lra).
      pose proof (ln_le_sub (/ (1 - Np.FLOAT_EPS)) Hip) as H.
      assert (/ (1 - Np.FLOAT_EPS) - 1 <= 2 * Np.FLOAT_EPS); [|lra].
      apply Rmult_le_reg_r with (1 - Np.FLOAT_EPS); [lra|].
      rewrite Rmult_minus_distr_r, Rinv_l by lra. nra. }
    assert (Hl2 : 0 <= - ln (1 - Np.FLOAT_EPS)).
    { assert (ln (1 - Np.FLOAT_EPS) < ln 1) by (apply ln_increasing; lra).
      rewrite ln_1 in H. lra. }
    assert (Hl3 : ln (1 - Np.FLOAT_EPS) < ln u).
    { apply ln_increasing; lra. }
    assert (Hl4 : ln u < 0).
    { rewrite Hlnu. lra. }
    apply Rabs_le. nra.
Qed.

Lemma identity_inverse_deriv_consistent (z : R) :
  exists g p d,
    L.Power_inverse_deriv 1 z = Some g /\ L.Power_inverse 1 z = Some p /\
    L.Power_deriv 1 p = Some d /\ d <> 0 /\ g = 1 / d.
Proof.
  exists (1 / 1), z, (1 * 1).
  split.
  { unfold L.Power_inverse_deriv. rewrite div_some by lra. cbn [bind].
    replace ((1 - 1) / 1) with 0 by field. rewrite power_0. cbn [bind].
    apply div_some. lra. }
  split; [apply identity_round_trip|]. split.
  { unfold L.Power_deriv. replace (1 - 1) with 0 by lra.
    rewrite power_0. reflexivity. }
  split; [lra | field].
Qed.

(** C5 (as amended): for every link whose transform is a bijection and
    every linear predictor [z] of its range whose mean [inverse(z)] lies in
    the stable range of the link, [inverse_deriv(z)] and
    [deriv(inverse(z))] are finite, the derivative is not zero, and
    [inverse_deriv(z) = 1 / deriv(inverse(z))], the closed forms of Logit,
    Power, Log, NegativeBinomial and CLogLog included. *)
Theorem inverse_deriv_consistent (l : L.instance) (z p : R) :
  link_ok l ->
  predictor_range l z ->
  L.inverse l z = Some p ->
  stable_range l p ->
  exists g d,
    L.inverse_deriv l z = Some g /\
    L.deriv l p = Some d /\
    d <> 0 /\
    g = 1 / d.
Proof.
  intros Hok Hz Hi Hs. pose proof (stable_clipped l p Hs) as Hc.
  clear Hs. revert Hok Hz Hi Hc.
  unfold link_ok, clipped_range, predictor_range, L.inverse_deriv, L.deriv,
    L.inverse, transform_of.
  destruct (L.lookup L.defines_transform (L.class_of l)) as [[]|];
    try contradiction; intros Hok Hz Hi Hc.
  - destruct (Logit_inverse_deriv_consistent z)
      as (g & p' & d & H1 & H2 & H3 & H4 & _ & H5).
    assert (p' = p) as -> by congruence. exists g, d. auto.
  - unfold power_domain in *. destruct Hok as (k & Hpow & Hk).
    rewrite Hpow in *. cbn [bind] in *.
    assert (H : exists g p d,
              L.Power_inverse_deriv k z = Some g /\
              L.Power_inverse k z = Some p /\
              L.Power_deriv k p = Some d /\ d <> 0 /\ g = 1 / d).
    { destruct Hz as [Hz|Hk1].
      - apply Power_inverse_deriv_consistent; assumption.
      - assert (k = 1) as -> by congruence.
        apply identity_inverse_deriv_consistent. }
    destruct H as (g & p' & d & H1 & H2 & H3 & H4 & H5).
    assert (p' = p) as -> by congruence. exists g, d. auto.
  - destruct (Log_inverse_deriv_consistent z)
      as (g & p' & d & H1 & H2 & H3 & H4 & _ & H5).
    assert (p' = p) as -> by congruence. exists g, d. auto.
  - destruct Hok as (dist & Hdist & Hd). rewrite Hdist in *. cbn [bind] in *.
    destruct (CDFLink_inverse_deriv_consistent dist z Hd)
      as (g & p' & d & H1 & H2 & H3 & H4 & H5).
    assert (p' = p) as -> by congruence. exists g, d. auto.
  - destruct (CLogLog_inverse_deriv_consistent z)
      as (g & p' & d & H1 & H2 & H3 & H4 & _ & H5).
    assert (p' = p) as -> by congruence. exists g, d. auto.
  - destruct Hok as (a & Ha & Hpos). rewrite Ha in *. cbn [bind] in *.
    destruct (NegativeBinomial_inverse_deriv_consistent a z Hpos Hz)
      as (g & p' & d & H1 & H2 & H3 & H4 & H5).
    assert (p' = p) as -> by congruence. exists g, d. auto.
Qed.

Lemma inverse_deriv_consistent_witness :
  let l := L.new scipy_stats_cauchy L.inverse_power "0x7f0c" in
  exists g d,
    L.inverse_deriv l 2 = Some g /\ L.deriv l (/ 2) = Some d /\
    d <> 0 /\ g = 1 / d.
Proof.
  intros l. apply (inverse_deriv_consistent l 2 (/ 2)).
  - exists (-1). split; [reflexivity | lra].
  - left. lra.
  - change (L.inverse l 2) with (e <- Np.div 1 (-1) ;; Np.power 2 e).
    rewrite div_some by lra. cbn [bind].
    rewrite power_pos by lra. f_equal.
    replace (1 / -1) with (- (1)) by field.
    rewrite Rpower_Ropp, Rpower_1 by lra. reflexivity.
  - right. split.
    + assert (0 < / 2 ^ 64) by (apply Rinv_0_lt_compat; lra).
      assert (/ 2 ^ 64 <= / 2).
      { apply Rinv_le_contravar; lra. }
      lra.
    + exists (-1). split; [reflexivity|].
      rewrite Rabs_left by lra. lra.
Defined.

Lemma Rpower_9_half : Rpower 9 (- / 2) = / 3.
Proof.
  rewrite Rpower_Ropp. f_equal.
  rewrite Rpower_sqrt by lra.
  replace 9 with (3 * 3) by lra. apply sqrt_square. lra.
Qed.

Lemma pow2_le_exp (n : nat) : 2 ^ n <= exp (INR n).
Proof.
  pose proof ln_2_bounds as H2. pose proof (pos_INR n) as Hn.
  rewrite <- (Rpower_pow n 2) by lra. unfold Rpower.
  assert (Hx : INR n * ln 2 <= INR n) by nra.
  destruct Hx as [Hlt|Heq].
  - left. apply exp_increasing. exact Hlt.
  - right. now rewrite Heq.
Qed.

Lemma exp_100_pow2 : 2 ^ 100 <= exp 100.
Proof.
  pose proof (pow2_le_exp 100) as H.
  rewrite INR_IZR_INZ in H. exact H.
Qed.

(** C5 as stated fails.  For the square-root link ([Power] with exponent
    1/2) and the linear predictor -3, [inverse_deriv(-3)] is
    [(-3)^1 / (1/2) = -6], while [inverse(-3) = (-3)^2 = 9] and
    [deriv(9) = (1/2) 9^(-1/2) = 1/6], so [1 / deriv(inverse(-3)) = 6].
    For [Power] with exponent 0, [inverse_deriv] and [inverse] divide by
    the zero exponent and raise.  For the logit link and the linear
    predictor -100, [inverse_deriv(-100)] is below [2^-100], while [deriv]
    clips the mean [inverse(-100)] to eps and [1 / deriv(inverse(-100))] is
    [eps (1 - eps)], above [2^-53]. *)
Lemma inverse_deriv_consistent_counterexample :
  let s := L.new scipy_stats_cauchy L.sqrt "0x7f0d" in
  let l0 := L.mkInstance L.Power (Some 0) None None "0x7f0e" in
  let l := L.new scipy_stats_cauchy L.logit "0x7f0f" in
  (exists g p d,
     L.inverse_deriv s (-3) = Some g /\ L.inverse s (-3) = Some p /\
     L.deriv s p = Some d /\ g = -6 /\ 1 / d = 6) /\
  (L.inverse_deriv l0 2 = None /\ L.inverse l0 2 = None) /\
  (exists g p d,
     L.inverse_deriv l (-100) = Some g /\ L.inverse l (-100) = Some p /\
     L.deriv l p = Some d /\ g <= / 2 ^ 100 /\ / 2 ^ 53 <= 1 / d).
Proof.
  intros s l0 l. split; [|split].
  - exists (-6), 9, (/ 6). split; [|split; [|split; [|split]]].
    + change (L.inverse_deriv s (-3))
        with (e <- Np.div (1 - / 2) (/ 2) ;; x <- Np.power (-3) e ;;
              Np.div x (/ 2)).
      rewrite div_some by lra. cbn [bind].
      replace ((1 - / 2) / / 2) with (IZR 1) by field.
      rewrite power_neg_int by lra. cbn [bind].
      rewrite div_some by lra. f_equal. rewrite powerRZ_1. field.
    + change (L.inverse s (-3)) with (e <- Np.div 1 (/ 2) ;; Np.power (-3) e).
      rewrite div_some by lra. cbn [bind].
      replace (1 / / 2) with (IZR 2) by field.
      rewrite power_neg_int by lra. f_equal. simpl. lra.
    + change (L.deriv s 9) with (x <- Np.power 9 (/ 2 - 1) ;; Some (/ 2 * x)).
      rewrite power_pos by lra. cbn [bind]. f_equal.
      replace (/ 2 - 1) with (- / 2) by lra. rewrite Rpower_9_half. lra.
    + reflexivity.
    + field.
  - split.
    + change (L.inverse_deriv l0 2)
        with (e <- Np.div (1 - 0) 0 ;; x <- Np.power 2 e ;; Np.div x 0).
      rewrite div_zero. reflexivity.
    + change (L.inverse l0 2) with (e <- Np.div 1 0 ;; Np.power 2 e).
      rewrite div_zero. reflexivity.
  - pose proof eps_bounds as He. pose proof eps_value as Hv.
    pose proof exp_100_pow2 as H100. pose proof (exp_pos (-100)) as Ht.
    assert (H2 : 0 < 2 ^ 100) by (apply pow_lt; lra).
    assert (Hinv : exp (-100) <= / 2 ^ 100).
    { replace (-100) with (Ropp 100) by lra. rewrite exp_Ropp.
      apply Rinv_le_contravar; lra. }
    destruct (Logit_inverse_some (-100)) as [Hi Hr].
    set (p := 1 / (1 + exp (- -100))) in *.
    assert (Hc : L.Logit_clean p = Np.FLOAT_EPS).
    { apply clip_low; [lra|]. unfold p. replace (- -100) with 100 by lra.
      pose proof exp_100_large. unfold Rdiv. lra. }
    exists (exp (-100) / (1 + exp (-100)) ^ 2), p,
           (1 / (Np.FLOAT_EPS * (1 - Np.FLOAT_EPS))).
    split.
    { change (L.inverse_deriv l (-100)) with (L.Logit_inverse_deriv (-100)).
      unfold L.Logit_inverse_deriv. apply div_some. nra. }
    split; [exact Hi|]. split.
    { change (L.deriv l p) with (L.Logit_deriv p).
      rewrite Logit_deriv_some, Hc. reflexivity. }
    split.
    + apply Rle_trans with (exp (-100)); [|exact Hinv].
      apply Rmult_le_reg_r with ((1 + exp (-100)) ^ 2); [nra|].
      unfold Rdiv. rewrite Rmult_assoc, Rinv_l by nra. nra.
    + replace (1 / (1 / (Np.FLOAT_EPS * (1 - Np.FLOAT_EPS))))
        with (Np.FLOAT_EPS * (1 - Np.FLOAT_EPS)) by (field; lra).
      rewrite Hv. lra.
Qed.

(** ** Deviance and deviance residuals *)

Lemma map2_columns {A B C D : Type} (f : B -> C -> D) (g : A -> B)
  (h : A -> C) (l : list A) :
  Np.map2 f (map g l) (map h l) = map (fun o => f (g o) (h o)) l.
Proof.
  induction l as [|o l IH]; [reflexivity|].
  cbn [map Np.map2]. rewrite IH. reflexivity.
Qed.

Lemma map3_columns {A B C D E : Type} (f : B -> C -> D -> E) (g : A -> B)
  (h : A -> C) (i : A -> D) (l : list A) :
  Np.map3 f (map g l) (map h l) (map i l) =
  map (fun o => f (g o) (h o) (i o)) l.
Proof.
  induction l as [|o l IH]; [reflexivity|].
  cbn [map Np.map3]. rewrite IH. reflexivity.
Qed.

Lemma sum_columns (f : observation -> option R) (g : observation -> R)
  (data : list observation) :
  Forall (fun o => f o = Some (g o)) data ->
  Np.sum (map f data) = Some (rsum g data).
Proof.
  induction 1 as [|o l Ho _ IH]; [reflexivity|].
  cbn [map Np.sum rsum fold_right]. rewrite Ho. cbn [bind].
  rewrite IH. reflexivity.
Qed.

Lemma weighted_sum_sq_columns (r : observation -> option R)
  (data : list observation) :
  weighted_sum_sq (map obs_w data) (map r data) =
  Np.sum (map (fun o => v <- r o ;; Some (obs_w o * v ^ 2)) data).
Proof.
  unfold weighted_sum_sq. rewrite map2_columns. reflexivity.
Qed.

Lemma rsum_scal (c : R) (f : observation -> R) (data : list observation) :
  rsum (fun o => c * f o) data = c * rsum f data.
Proof.
  induction data as [|o l IH]; cbn [rsum fold_right]; [lra|].
  fold (rsum (fun o => c * f o) l). fold (rsum f l). lra.
Qed.

Lemma rsum_abs_bound (f g c : observation -> R) (data : list observation) :
  Forall (fun o => Rabs (f o - g o) <= c o) data ->
  Rabs (rsum f data - rsum g data) <= rsum c data.
Proof.
  induction 1 as [|o l Ho _ IH]; cbn [rsum fold_right].
  - replace (0 - 0) with 0 by lra. rewrite Rabs_R0. lra.
  - fold (rsum f l). fold (rsum g l). fold (rsum c l).
    replace (f o + rsum f l - (g o + rsum g l))
      with ((f o - g o) + (rsum f l - rsum g l)) by lra.
    eapply Rle_trans; [apply Rabs_triang|]. lra.
Qed.

(** The square of [sign(y - m) * sqrt(a) / 1]. *)
Lemma sign_sqrt_sq (y m a : R) :
  0 <= a -> (y = m -> a = 0) ->
  (Np.sign (y - m) * R_sqrt.sqrt a / 1) ^ 2 = a.
Proof.
  intros Ha H0. pose proof (sqrt_sqrt a Ha) as Hs. unfold Np.sign.
  destruct (Rlt_dec (y - m) 0); [|destruct (Rlt_dec 0 (y - m))].
  - field_simplify. nra.
  - field_simplify. nra.
  - rewrite H0 by lra. rewrite sqrt_0. lra.
Qed.

Lemma tiny_pos : 0 < F.tiny.
Proof. unfold F.tiny. apply Rinv_0_lt_compat, pow_lt. lra. Qed.

Lemma rsum_lin2 (a b : R) (f g h : observation -> R) (data : list observation) :
  (forall o, f o = a * g o + b * h o) ->
  rsum f data = a * rsum g data + b * rsum h data.
Proof.
  intros H. induction data as [|o l IH]; cbn [rsum fold_right]; [lra|].
  fold (rsum f l). fold (rsum g l). fold (rsum h l). rewrite H. lra.
Qed.

Lemma Forall_pointwise {A : Type} (P Q : A -> Prop) (l : list A) :
  (forall x, P x -> Q x) -> Forall P l -> Forall Q l.
Proof. intros H HP. induction HP; constructor; auto. Qed.

(** *** Poisson and QuasiPoisson *)

Lemma Poisson_obs (y m : R) :
  0 <= y -> 0 < m ->
  0 < F.Poisson_clean (y / m) /\
  0 <= 2 * (y * ln (F.Poisson_clean (y / m)) - (y - m)) /\
  (y = m -> 2 * (y * ln (F.Poisson_clean (y / m)) - (y - m)) = 0).
Proof.
  intros Hy Hm. pose proof eps_bounds as He.
  pose proof (clip_inf_bound (y / m) Np.FLOAT_EPS) as Hb.
  fold (F.Poisson_clean (y / m)) in Hb.
  split; [lra|]. split.
  - destruct (Req_dec_T y 0) as [->|Hy0]; [lra|].
    assert (Hx : 0 < y / m) by (apply Rdiv_lt_0_compat; lra).
    assert (Hc : ln (y / m) <= ln (F.Poisson_clean (y / m))).
    { pose proof (Rmax_l (y / m) Np.FLOAT_EPS) as Hl.
      fold (Np.clip_inf (y / m) Np.FLOAT_EPS) in Hl.
      fold (F.Poisson_clean (y / m)) in Hl.
      destruct Hl as [Hl|Hl]; [left; apply ln_increasing; lra | rewrite <- Hl; lra]. }
    assert (Hi : 0 < m / y) by (apply Rdiv_lt_0_compat; lra).
    pose proof (ln_le_sub (m / y) Hi) as Hln.
    replace (m / y) with (/ (y / m)) in Hln at 1 by (field; lra).
    rewrite ln_Rinv in Hln by exact Hx.
    assert (Hmy : y * (m / y) = m) by (field; lra).
    nra.
  - intros ->. replace (m / m) with 1 by (field; lra).
    unfold F.Poisson_clean. rewrite clip_inf_id by lra. rewrite ln_1. lra.
Qed.

(** The Poisson deviance is [2 sum w y ln(y/mu)]: it leaves out the term
    [y - mu] that the deviance residual carries.  The weighted sum of the
    squared residuals is the deviance minus [2 sum w (y - mu)]. *)
Lemma Poisson_gap (data : list observation) :
  Forall (fun o => 0 <= obs_y o /\ 0 < obs_mu o) data ->
  exists d s,
    F.Poisson_deviance (map obs_y data) (map obs_mu data) (map obs_w data) 1
      = Some d /\
    weighted_sum_sq (map obs_w data)
      (F.Poisson_resid_dev (map obs_y data) (map obs_mu data) 1) = Some s /\
    s = d - 2 * rsum (fun o => obs_w o * (obs_y o - obs_mu o)) data.
Proof.
  intros Hv.
  set (lc := fun o => ln (F.Poisson_clean (obs_y o / obs_mu o))).
  exists (2 * rsum (fun o => obs_y o * obs_w o * lc o) data / 1),
         (rsum (fun o => obs_w o * (2 * (obs_y o * lc o - (obs_y o - obs_mu o))))
            data).
  split; [|split].
  - unfold F.Poisson_deviance. rewrite map3_columns.
    rewrite (sum_columns _ (fun o => obs_y o * obs_w o * lc o)).
    + cbn [bind]. apply div_some. lra.
    + eapply Forall_pointwise; [|exact Hv]. intros o [Hy Hm]. cbn beta.
      destruct (Poisson_obs _ _ Hy Hm) as (Hc & _).
      rewrite div_some by lra. cbn [bind]. rewrite log_some by exact Hc.
      reflexivity.
  - unfold F.Poisson_resid_dev. rewrite map2_columns, weighted_sum_sq_columns.
    apply sum_columns.
    eapply Forall_pointwise; [|exact Hv]. intros o [Hy Hm]. cbn beta.
    destruct (Poisson_obs _ _ Hy Hm) as (Hc & Ha & H0).
    rewrite div_some by lra. cbn [bind]. rewrite log_some by exact Hc.
    cbn [bind]. rewrite sqrt_some by exact Ha. cbn [bind].
    rewrite div_some by lra. cbn [bind]. f_equal. f_equal.
    apply sign_sqrt_sq; assumption.
  - rewrite (rsum_lin2 2 (-2) _ (fun o => obs_y o * obs_w o * lc o)
               (fun o => obs_w o * (obs_y o - obs_mu o))).
    + lra.
    + intros o. ring.
Qed.

(** *** Gaussian *)

Lemma Gaussian_gap (self : F.family) (data : list observation) :
  F.variance self = V.constant ->
  exists d s,
    F.Gaussian_deviance (map obs_y data) (map obs_mu data) (map obs_w data) 1
      = Some d /\
    weighted_sum_sq (map obs_w data)
      (F.Gaussian_resid_dev self (map obs_y data) (map obs_mu data) 1)
      = Some s /\
    s = d.
Proof.
  intros Hv.
  exists (rsum (fun o => obs_w o * (obs_y o - obs_mu o) ^ 2) data / 1),
         (rsum (fun o => obs_w o * (obs_y o - obs_mu o) ^ 2) data).
  split; [|split].
  - unfold F.Gaussian_deviance. rewrite map3_columns.
    rewrite (sum_columns _ (fun o => obs_w o * (obs_y o - obs_mu o) ^ 2)).
    + cbn [bind]. apply div_some. lra.
    + apply Forall_forall. reflexivity.
  - unfold F.Gaussian_resid_dev. rewrite map2_columns, weighted_sum_sq_columns.
    apply sum_columns. apply Forall_forall. intros o _. cbn beta.
    rewrite Hv. cbn [V.call V.constant bind].
    rewrite sqrt_some by lra. cbn [bind]. rewrite sqrt_1.
    rewrite div_some by lra. cbn [bind]. rewrite div_some by lra.
    cbn [bind]. f_equal. field.
  - field.
Qed.

(** *** Gamma *)

Lemma Gamma_obs (y m : R) :
  0 < y -> 0 < m ->
  0 < F.Gamma_clean (y / m) /\
  0 <= -2 * (- (y - m) / m + ln (F.Gamma_clean (y / m))) /\
  (y = m -> -2 * (- (y - m) / m + ln (F.Gamma_clean (y / m))) = 0).
Proof.
  intros Hy Hm. pose proof eps_bounds as He. pose proof ln_2_bounds as H2.
  assert (Hx : 0 < y / m) by (apply Rdiv_lt_0_compat; lra).
  assert (Hr : - (y - m) / m = 1 - y / m) by (field; lra).
  unfold F.Gamma_clean, Np.clip_inf, Rmax.
  destruct (Rle_dec (y / m) Np.FLOAT_EPS) as [Hle|Hgt].
  - split; [lra|]. split.
    + rewrite ln_eps, Hr. lra.
    + intros ->. replace (m / m) with 1 in Hle by (field; lra). lra.
  - split; [lra|]. split.
    + pose proof (ln_le_sub (y / m) Hx). rewrite Hr. lra.
    + intros ->. replace (m / m) with 1 by (field; lra).
      rewrite ln_1. replace (- (m - m) / m) with 0 by (field; lra). lra.
Qed.

Lemma Gamma_gap (data : list observation) :
  Forall (fun o => 0 < obs_y o /\ 0 < obs_mu o) data ->
  exists d s,
    F.Gamma_deviance (map obs_y data) (map obs_mu data) (map obs_w data) 1
      = Some d /\
    weighted_sum_sq (map obs_w data)
      (F.Gamma_resid_dev (map obs_y data) (map obs_mu data) 1) = Some s /\
    s = d.
Proof.
  intros Hv.
  set (lc := fun o => ln (F.Gamma_clean (obs_y o / obs_mu o))).
  exists (2 * rsum (fun o => obs_w o *
                     ((obs_y o - obs_mu o) / obs_mu o - lc o)) data),
         (rsum (fun o => obs_w o *
                  (-2 * (- (obs_y o - obs_mu o) / obs_mu o + lc o))) data).
  split; [|split].
  - unfold F.Gamma_deviance. rewrite map3_columns.
    rewrite (sum_columns _ (fun o => obs_w o *
               ((obs_y o - obs_mu o) / obs_mu o - lc o))).
    + reflexivity.
    + eapply Forall_pointwise; [|exact Hv]. intros o [Hy Hm]. cbn beta.
      destruct (Gamma_obs _ _ Hy Hm) as (Hc & _).
      rewrite !div_some by lra. cbn [bind]. rewrite log_some by exact Hc.
      reflexivity.
  - unfold F.Gamma_resid_dev. rewrite map2_columns, weighted_sum_sq_columns.
    apply sum_columns.
    eapply Forall_pointwise; [|exact Hv]. intros o [Hy Hm]. cbn beta.
    destruct (Gamma_obs _ _ Hy Hm) as (Hc & Ha & H0).
    rewrite !div_some by lra. cbn [bind]. rewrite log_some by exact Hc.
    cbn [bind]. rewrite sqrt_some by exact Ha. cbn [bind]. f_equal. f_equal.
    pose proof (sign_sqrt_sq (obs_y o) (obs_mu o) _ Ha H0) as Hs.
    etransitivity; [|exact Hs]. field.
  - rewrite (rsum_lin2 2 0 _ (fun o => obs_w o *
               ((obs_y o - obs_mu o) / obs_mu o - lc o)) (fun _ => 0)).
    + lra.
    + intros o. unfold Rdiv. ring.
Qed.

(** *** Binomial *)

Lemma ln_guard (q : R) :
  Np.FLOAT_EPS <= q ->
  0 <= ln (q + F.tiny) - ln q <= F.tiny / Np.FLOAT_EPS.
Proof.
  intros Hq. pose proof eps_bounds as He. pose proof tiny_pos as Ht.
  assert (Hpos : 0 < (q + F.tiny) / q) by (apply Rdiv_lt_0_compat; lra).
  assert (Hln : ln ((q + F.tiny) / q) = ln (q + F.tiny) - ln q).
  { unfold Rdiv. rewrite ln_mult, ln_Rinv
      by (try apply Rinv_0_lt_compat; lra). lra. }
  split.
  - assert (ln q < ln (q + F.tiny)) by (apply ln_increasing; lra). lra.
  - rewrite <- Hln. pose proof (ln_le_sub _ Hpos) as H.
    assert (Hq1 : (q + F.tiny) / q - 1 = F.tiny / q) by (field; lra).
    assert (Hq2 : F.tiny / q <= F.tiny / Np.FLOAT_EPS).
    { unfold Rdiv. apply Rmult_le_compat_l; [lra|].
      apply Rinv_le_contravar; lra. }
    lra.
Qed.

(** Half of the Kullback-Leibler inequality, with the guard. *)
Lemma kl_half (a b : R) :
  0 <= a -> 0 < b ->
  (a / b + F.tiny = 0 -> False) /\ 0 < a / b + F.tiny /\
  a - b <= a * ln (a / b + F.tiny).
Proof.
  intros Ha Hb. pose proof tiny_pos as Ht.
  assert (Hq : 0 <= a / b).
  { unfold Rdiv. apply Rmult_le_pos; [lra|].
    left. apply Rinv_0_lt_compat, Hb. }
  split; [lra|]. split; [lra|].
  destruct (Req_dec_T a 0) as [->|Ha0]; [lra|].
  assert (Hx : 0 < a / b) by (apply Rdiv_lt_0_compat; lra).
  assert (Hc : ln (a / b) < ln (a / b + F.tiny)) by (apply ln_increasing; lra).
  assert (Hi : 0 < b / a) by (apply Rdiv_lt_0_compat; lra).
  pose proof (ln_le_sub (b / a) Hi) as Hln.
  replace (b / a) with (/ (a / b)) in Hln at 1 by (field; lra).
  rewrite ln_Rinv in Hln by exact Hx.
  assert (Hab : a * (b / a) = b) by (field; lra).
  nra.
Qed.

Lemma sign_sqrt_sq_ne (y m a : R) :
  y <> m -> 0 <= a -> (Np.sign (y - m) * R_sqrt.sqrt a / 1) ^ 2 = a.
Proof.
  intros Hne Ha. pose proof (sqrt_sqrt a Ha) as Hs. unfold Np.sign.
  destruct (Rlt_dec (y - m) 0); [|destruct (Rlt_dec 0 (y - m))].
  - field_simplify. nra.
  - field_simplify. nra.
  - exfalso. lra.
Qed.

Lemma sign_sqrt_sq_eq (m a : R) :
  (Np.sign (m - m) * R_sqrt.sqrt a / 1) ^ 2 = 0.
Proof.
  unfold Np.sign.
  destruct (Rlt_dec (m - m) 0); [lra|].
  destruct (Rlt_dec 0 (m - m)); [lra|]. lra.
Qed.

Lemma repeat_columns (r : R) (f : observation -> R) (data : list observation) :
  repeat r (List.length data) = map f data -> Forall (fun o => f o = r) data.
Proof.
  induction data as [|o l IH]; cbn [List.length repeat map]; intros H.
  - constructor.
  - injection H as H1 H2. constructor; [congruence | apply IH, H2].
Qed.

(** The binary branch: one observation. *)
Lemma Binomial_binary_obs (l : L.instance) (o : observation) :
  binomial_obs l true o ->
  exists r dv,
    (m <- L._clean l (obs_mu o) ;;
     lg <- Np.log (F.equal_one (obs_y o) * m +
                   (1 - F.equal_one (obs_y o)) * (1 - m)) ;;
     s <- Np.sqrt (-2 * lg) ;;
     Np.div (Np.sign (obs_y o - m) * s) 1) = Some r /\
    (l1 <- Np.log (obs_mu o + F.tiny) ;;
     l0 <- Np.log (1 - obs_mu o + F.tiny) ;;
     Some ((F.equal_one (obs_y o) * l1 +
            (1 - F.equal_one (obs_y o)) * l0) * obs_w o)) = Some dv /\
    Rabs (obs_w o * r ^ 2 - -2 * dv) <=
      2 * (F.tiny / Np.FLOAT_EPS) * obs_w o.
Proof.
  intros (Hcl & Hm & Hw & _ & Hy).
  pose proof eps_bounds as He. pose proof tiny_pos as Ht.
  rewrite Hcl. cbn [bind].
  rewrite (log_some (obs_mu o + F.tiny)) by lra. cbn [bind].
  rewrite (log_some (1 - obs_mu o + F.tiny)) by lra. cbn [bind].
  set (q := F.equal_one (obs_y o) * obs_mu o +
            (1 - F.equal_one (obs_y o)) * (1 - obs_mu o)).
  assert (Hq : Np.FLOAT_EPS <= q <= 1 - Np.FLOAT_EPS /\
               F.equal_one (obs_y o) * ln (obs_mu o + F.tiny) +
               (1 - F.equal_one (obs_y o)) * ln (1 - obs_mu o + F.tiny) =
               ln (q + F.tiny)).
  { unfold q, F.equal_one.
    destruct (Req_dec_T (obs_y o) 1); split; try lra.
    - replace (1 * obs_mu o + (1 - 1) * (1 - obs_mu o) + F.tiny)
        with (obs_mu o + F.tiny) by lra. lra.
    - replace (0 * obs_mu o + (1 - 0) * (1 - obs_mu o) + F.tiny)
        with (1 - obs_mu o + F.tiny) by lra. lra. }
  destruct Hq as [Hq Hdv].
  assert (Hlq : ln q < 0).
  { rewrite <- ln_1. apply ln_increasing; lra. }
  rewrite log_some by lra. cbn [bind].
  rewrite sqrt_some by lra. cbn [bind].
  rewrite div_some by lra.
  eexists. eexists. split; [reflexivity|]. split; [reflexivity|].
  rewrite sign_sqrt_sq_ne by (destruct Hy as [Hy|Hy]; lra). rewrite Hdv.
  pose proof (ln_guard q (proj1 Hq)) as [Hg1 Hg2].
  replace (obs_w o * (-2 * ln q) - -2 * (ln (q + F.tiny) * obs_w o))
    with (2 * obs_w o * (ln (q + F.tiny) - ln q)) by ring.
  rewrite Rabs_pos_eq by (apply Rmult_le_pos; lra).
  assert (obs_w o * (ln (q + F.tiny) - ln q) <=
          obs_w o * (F.tiny / Np.FLOAT_EPS))
    by (apply Rmult_le_compat_l; lra).
  lra.
Qed.

(** The grouped branch: one observation. *)
Lemma Binomial_grouped_obs (l : L.instance) (o : observation) :
  binomial_obs l false o ->
  exists r dv,
    (m <- L._clean l (obs_mu o) ;;
     q1 <- Np.div (obs_y o) m ;;
     l1 <- Np.log (q1 + F.tiny) ;;
     q0 <- Np.div (1 - obs_y o) (1 - m) ;;
     l0 <- Np.log (q0 + F.tiny) ;;
     s <- Np.sqrt (2 * obs_n o * (obs_y o * l1 + (1 - obs_y o) * l0)) ;;
     Np.div (Np.sign (obs_y o - m) * s) 1) = Some r /\
    (q1 <- Np.div (obs_y o) (obs_mu o) ;;
     l1 <- Np.log (q1 + F.tiny) ;;
     q0 <- Np.div (1 - obs_y o) (1 - obs_mu o) ;;
     l0 <- Np.log (q0 + F.tiny) ;;
     Some (obs_n o * obs_w o * (obs_y o * l1 + (1 - obs_y o) * l0)))
      = Some dv /\
    Rabs (obs_w o * r ^ 2 - 2 * dv) <=
      2 * (F.tiny / Np.FLOAT_EPS) * (obs_n o * obs_w o).
Proof.
  intros (Hcl & Hm & Hw & Hn & Hy).
  pose proof eps_bounds as He. pose proof tiny_pos as Ht.
  destruct (kl_half (obs_y o) (obs_mu o)) as (_ & Hp1 & Hk1); [lra | lra |].
  destruct (kl_half (1 - obs_y o) (1 - obs_mu o)) as (_ & Hp0 & Hk0);
    [lra | lra |].
  set (K := obs_y o * ln (obs_y o / obs_mu o + F.tiny) +
            (1 - obs_y o) * ln ((1 - obs_y o) / (1 - obs_mu o) + F.tiny)).
  assert (HK : 0 <= K) by (unfold K; lra).
  assert (HnK : 0 <= 2 * obs_n o * K).
  { apply Rmult_le_pos; [lra | exact HK]. }
  assert (Hte : F.tiny <= F.tiny / Np.FLOAT_EPS).
  { apply Rmult_le_reg_r with Np.FLOAT_EPS; [lra|].
    unfold Rdiv. rewrite Rmult_assoc, Rinv_l by lra. nra. }
  rewrite Hcl. cbn [bind].
  rewrite (div_some (obs_y o)) by lra. cbn [bind].
  rewrite (log_some _ Hp1). cbn [bind].
  rewrite (div_some (1 - obs_y o)) by lra. cbn [bind].
  rewrite (log_some _ Hp0). cbn [bind]. fold K.
  rewrite sqrt_some by exact HnK. cbn [bind].
  rewrite div_some by lra.
  eexists. eexists. split; [reflexivity|]. split; [reflexivity|].
  assert (Hnw : 0 <= obs_n o * obs_w o) by (apply Rmult_le_pos; lra).
  destruct (Req_dec_T (obs_y o) (obs_mu o)) as [Heq|Hne].
  - rewrite Heq at 1. rewrite sign_sqrt_sq_eq.
    assert (HK1 : K = ln (1 + F.tiny)).
    { unfold K. rewrite Heq.
      replace (obs_mu o / obs_mu o) with 1 by (field; lra).
      replace ((1 - obs_mu o) / (1 - obs_mu o)) with 1 by (field; lra).
      ring. }
    assert (Hl : 0 <= ln (1 + F.tiny) <= F.tiny).
    { split.
      - rewrite <- ln_1 at 1. left. apply ln_increasing; lra.
      - pose proof (ln_le_sub (1 + F.tiny)). lra. }
    rewrite HK1.
    replace (obs_w o * 0 - 2 * (obs_n o * obs_w o * ln (1 + F.tiny)))
      with (- (2 * (obs_n o * obs_w o) * ln (1 + F.tiny))) by ring.
    rewrite Rabs_Ropp, Rabs_pos_eq by (apply Rmult_le_pos; lra).
    assert (obs_n o * obs_w o * ln (1 + F.tiny) <=
            obs_n o * obs_w o * (F.tiny / Np.FLOAT_EPS))
      by (apply Rmult_le_compat_l; lra).
    lra.
  - rewrite sign_sqrt_sq_ne by assumption.
    replace (obs_w o * (2 * obs_n o * K) - 2 * (obs_n o * obs_w o * K))
      with 0 by ring.
    rewrite Rabs_R0.
    assert (0 <= F.tiny / Np.FLOAT_EPS) by lra.
    apply Rmult_le_pos; [lra | exact Hnw].
Qed.

(** Sums of two columns of finite values whose entries are close. *)
Lemma sums_close (rf df : observation -> option R) (k : R)
  (c : observation -> R) (data : list observation) :
  Forall (fun o => exists r dv,
            rf o = Some r /\ df o = Some dv /\
            Rabs (obs_w o * r ^ 2 - k * dv) <= c o) data ->
  exists s sd,
    Np.sum (map (fun o => v <- rf o ;; Some (obs_w o * v ^ 2)) data) = Some s /\
    Np.sum (map df data) = Some sd /\
    Rabs (s - k * sd) <= rsum c data.
Proof.
  intros H.
  exists (rsum (fun o => obs_w o * value (rf o) ^ 2) data),
         (rsum (fun o => value (df o)) data).
  split; [|split].
  - apply sum_columns. eapply Forall_pointwise; [|exact H].
    intros o (r & dv & -> & _ & _). reflexivity.
  - apply sum_columns. eapply Forall_pointwise; [|exact H].
    intros o (r & dv & _ & -> & _). reflexivity.
  - rewrite <- rsum_scal. apply rsum_abs_bound.
    eapply Forall_pointwise; [|exact H].
    intros o (r & dv & -> & -> & Hb). exact Hb.
Qed.

Lemma Binomial_gap (self : F.family) (l : L.instance) (nv : F.nval) (b : bool)
  (data : list observation) :
  F.link self = Some l -> L._clean l 0 <> None ->
  F.n self = Some nv -> F.n_is_one self = Some b ->
  F.n_array nv (List.length data) = map obs_n data ->
  Forall (binomial_obs l b) data ->
  exists r d s,
    F.Binomial_resid_dev self (map obs_y data) (map obs_mu data) 1 = Some r /\
    F.Binomial_deviance self (map obs_y data) (map obs_mu data)
      (map obs_w data) 1 = Some d /\
    weighted_sum_sq (map obs_w data) r = Some s /\
    Rabs (s - d) <=
      2 * (F.tiny / Np.FLOAT_EPS) * rsum (fun o => obs_n o * obs_w o) data.
Proof.
  intros Hl Hclean Hn Hb Hna Hv.
  unfold F.Binomial_resid_dev, F.Binomial_deviance.
  rewrite Hl, Hb. cbn [bind].
  destruct (L._clean l 0) as [c0|] eqn:Hc0; [|congruence]. cbn [bind].
  rewrite Hn. cbn [bind]. rewrite length_map, Hna.
  rewrite <- rsum_scal.
  destruct b.
  - (* n is the scalar 1 *)
    assert (Hn1 : Forall (fun o => obs_n o = 1) data).
    { unfold F.n_is_one in Hb. rewrite Hn in Hb. cbn [bind] in Hb.
      destruct nv as [r|a]; [|discriminate].
      destruct (Req_dec_T r 1) as [->|]; [|discriminate].
      apply repeat_columns. exact Hna. }
    rewrite map2_columns, map3_columns.
    eexists. rewrite weighted_sum_sq_columns.
    edestruct (sums_close
      (fun o => m <- L._clean l (obs_mu o) ;;
         lg <- Np.log (F.equal_one (obs_y o) * m +
                       (1 - F.equal_one (obs_y o)) * (1 - m)) ;;
         s <- Np.sqrt (-2 * lg) ;;
         Np.div (Np.sign (obs_y o - m) * s) 1)
      (fun o => l1 <- Np.log (obs_mu o + F.tiny) ;;
         l0 <- Np.log (1 - obs_mu o + F.tiny) ;;
         Some ((F.equal_one (obs_y o) * l1 +
                (1 - F.equal_one (obs_y o)) * l0) * obs_w o))
      (-2) (fun o => 2 * (F.tiny / Np.FLOAT_EPS) * (obs_n o * obs_w o)) data)
      as (s & sd & Hs & Hd & Hgap).
    { rewrite Forall_forall in Hv, Hn1. apply Forall_forall. intros o Ho.
      destruct (Binomial_binary_obs l o (Hv o Ho)) as (r & dv & H1 & H2 & H3).
      exists r, dv. rewrite (Hn1 o Ho). repeat split; try assumption. lra. }
    rewrite Hd. cbn [bind]. exists (-2 * sd), s.
    split; [reflexivity|]. split; [reflexivity|]. split; [exact Hs | exact Hgap].
  - (* n is an array, or a scalar other than 1 *)
    rewrite map2_columns, !map3_columns.
    eexists. rewrite weighted_sum_sq_columns.
    edestruct (sums_close
      (fun o => m <- L._clean l (obs_mu o) ;;
         q1 <- Np.div (obs_y o) m ;;
         l1 <- Np.log (q1 + F.tiny) ;;
         q0 <- Np.div (1 - obs_y o) (1 - m) ;;
         l0 <- Np.log (q0 + F.tiny) ;;
         s <- Np.sqrt (2 * obs_n o * (obs_y o * l1 + (1 - obs_y o) * l0)) ;;
         Np.div (Np.sign (obs_y o - m) * s) 1)
      (fun o => q1 <- Np.div (obs_y o) (obs_mu o) ;;
         l1 <- Np.log (q1 + F.tiny) ;;
         q0 <- Np.div (1 - obs_y o) (1 - obs_mu o) ;;
         l0 <- Np.log (q0 + F.tiny) ;;
         Some (obs_n o * obs_w o * (obs_y o * l1 + (1 - obs_y o) * l0)))
      2 (fun o => 2 * (F.tiny / Np.FLOAT_EPS) * (obs_n o * obs_w o)) data)
      as (s & sd & Hs & Hd & Hgap).
    { eapply Forall_pointwise; [|exact Hv]. intros o Ho.
      exact (Binomial_grouped_obs l o Ho). }
    rewrite Hd. cbn [bind]. exists (2 * sd), s.
    split; [reflexivity|]. split; [reflexivity|]. split; [exact Hs | exact Hgap].
Qed.

(** C1 (as amended): for every family class, on valid data and at scale 1,
    the deviance residuals and the deviance are finite, and the
    frequency-weighted sum [s] of the squared residuals relates to the
    deviance [d] as [residual_gap] says: [s = d] for Gaussian and Gamma; for
    Poisson and QuasiPoisson, whose deviance leaves out the term [y - mu],
    [s = d - 2 sum w (y - mu)]; for Binomial with means in [eps, 1 - eps],
    [s] and [d] differ by no more than what the guard 1e-200 inside the
    logarithms of [deviance] accounts for, [2 (1e-200 / eps) sum n w].
    Valid data are separated: a response is equal to the mean or away from
    it by [2^-20] (relative to the mean for Poisson and Gamma, absolute for
    grouped Binomial proportions). *)
Theorem deviance_of_residuals (self : F.family) (data : list observation) :
  valid_data self data ->
  exists r d s,
    F.resid_dev self (map obs_y data) (map obs_mu data) 1 = Some r /\
    F.deviance self (map obs_y data) (map obs_mu data) (map obs_w data) 1
      = Some d /\
    weighted_sum_sq (map obs_w data) r = Some s /\
    residual_gap self data s d.
Proof.
  unfold valid_data, residual_gap, F.resid_dev, F.deviance.
  destruct (F.kind_of self); intros Hv.
  - contradiction.
  - destruct (Poisson_gap data) as (d & s & Hd & Hs & Hg).
    { eapply Forall_pointwise; [|exact Hv]. cbv beta. tauto. }
    exists (F.Poisson_resid_dev (map obs_y data) (map obs_mu data) 1), d, s.
    auto.
  - destruct (Poisson_gap data) as (d & s & Hd & Hs & Hg).
    { eapply Forall_pointwise; [|exact Hv]. cbv beta. tauto. }
    exists (F.Poisson_resid_dev (map obs_y data) (map obs_mu data) 1), d, s.
    auto.
  - destruct (Gaussian_gap self data Hv) as (d & s & Hd & Hs & Hg).
    exists (F.Gaussian_resid_dev self (map obs_y data) (map obs_mu data) 1),
           d, s.
    auto.
  - destruct (Gamma_gap data) as (d & s & Hd & Hs & Hg).
    { eapply Forall_pointwise; [|exact Hv]. cbv beta. tauto. }
    exists (F.Gamma_resid_dev (map obs_y data) (map obs_mu data) 1), d, s.
    auto.
  - destruct Hv as (l & nv & b & Hl & Hc & Hn & Hb & Hna & Hobs & _).
    exact (Binomial_gap self l nv b data Hl Hc Hn Hb Hna Hobs).
Qed.

(** Grouped Binomial data: 3 successes out of 10 at the fitted mean 1/2. *)
Lemma deviance_of_residuals_witness :
  let self :=
    F.mkFamily F.Binomial
      (Some (F.Inst (L.new scipy_stats_cauchy L.logit "0x7f0d")))
      (V.Binomial 1) (Some (F.NArray [10])) in
  let data := [mkObs (3 / 10) (/ 2) 1 10] in
  exists r d s,
    F.resid_dev self (map obs_y data) (map obs_mu data) 1 = Some r /\
    F.deviance self (map obs_y data) (map obs_mu data) (map obs_w data) 1
      = Some d /\
    weighted_sum_sq (map obs_w data) r = Some s /\
    residual_gap self data s d.
Proof.
  intros self data. apply (deviance_of_residuals self data).
  pose proof eps_bounds as He.
  exists (L.new scipy_stats_cauchy L.logit "0x7f0d"), (F.NArray [10]), false.
  split; [reflexivity|]. split; [discriminate|].
  split; [reflexivity|]. split; [reflexivity|]. split; [reflexivity|].
  split.
  - constructor; [|constructor].
    unfold binomial_obs. cbn [obs_y obs_mu obs_w obs_n].
    split.
    + change (Some (L.Logit_clean (/ 2)) = Some (/ 2)). f_equal.
      apply Logit_clean_id. lra.
    + repeat split; lra.
  - intros _. constructor; [|constructor].
    cbn [obs_y obs_mu]. right.
    replace (3 / 10 - / 2) with (- (1 / 5)) by lra.
    rewrite Rabs_Ropp, Rabs_pos_eq by lra. lra.
Defined.

Lemma tiny_small : F.tiny < Np.FLOAT_EPS / 6.
Proof.
  assert (Hbig : 6 * 2 ^ 52 < 10 ^ 200).
  { apply Rlt_le_trans with (10 ^ 17); [lra|].
    apply Rle_pow; [lra | lia]. }
  assert (H2 : 0 < 2 ^ 52) by (apply pow_lt; lra).
  unfold F.tiny, Np.FLOAT_EPS.
  replace (/ 2 ^ 52 / 6) with (/ (6 * 2 ^ 52)) by (field; lra).
  apply Rinv_lt_contravar; [|exact Hbig].
  apply Rmult_lt_0_compat; lra.
Qed.

(** C1 as stated fails.  For Poisson, with response 1, mean 2 and weight 1
    the squared deviance residual is [2 (ln(1/2) + 1)] and the deviance is
    [2 ln(1/2)]: they differ by 2.  For Binomial with the logit link and
    n = 1, with response 1 and mean eps/2, [resid_dev] clips the mean to eps
    and [deviance] does not: the squared residual is [-2 ln(eps)], the
    deviance [-2 ln(eps/2 + 1e-200)] is larger by more than 1/2. *)
Lemma deviance_of_residuals_counterexample :
  (exists self r d s,
     F.Poisson_init scipy_stats_cauchy L.log "0x7f0e" = F.Ok self /\
     F.resid_dev self [1] [2] 1 = Some r /\
     F.deviance self [1] [2] [1] 1 = Some d /\
     weighted_sum_sq [1] r = Some s /\
     d = 2 * ln (/ 2) /\
     s = d + 2) /\
  (exists self r d s,
     F.Binomial_init scipy_stats_cauchy L.logit "0x7f0f" = F.Ok self /\
     F.resid_dev self [1] [Np.FLOAT_EPS / 2] 1 = Some r /\
     F.deviance self [1] [Np.FLOAT_EPS / 2] [1] 1 = Some d /\
     weighted_sum_sq [1] r = Some s /\
     s = -2 * ln Np.FLOAT_EPS /\
     d = -2 * ln (Np.FLOAT_EPS / 2 + F.tiny) /\
     s + / 2 < d).
Proof.
  pose proof eps_bounds as He. split.
  - destruct (Poisson_gap [mkObs 1 2 1 1]) as (d & s & Hd & Hs & Hg).
    { constructor; [|constructor]. cbn [obs_y obs_mu]. lra. }
    cbn [map obs_y obs_mu obs_w rsum fold_right] in Hd, Hs, Hg.
    eexists. exists (F.Poisson_resid_dev [1] [2] 1), d, s.
    split; [reflexivity|]. split; [reflexivity|]. split; [exact Hd|].
    split; [exact Hs|]. split; [|lra].
    unfold F.Poisson_deviance in Hd. cbn [Np.map3 Np.sum bind] in Hd.
    rewrite div_some in Hd by lra. cbn [bind] in Hd.
    unfold F.Poisson_clean in Hd. rewrite clip_inf_id in Hd by lra.
    rewrite log_some in Hd by lra. cbn [bind] in Hd.
    rewrite div_some in Hd by lra. injection Hd as <-.
    replace (1 / 2) with (/ 2) by lra. lra.
  - pose proof tiny_pos as Ht. pose proof tiny_small as Hts.
    pose proof ln_2_bounds as H2.
    assert (Hle : ln Np.FLOAT_EPS < 0) by (rewrite ln_eps; lra).
    assert (Hone : F.equal_one 1 = 1).
    { unfold F.equal_one. destruct (Req_dec_T 1 1); [reflexivity | congruence]. }
    assert (Hn1 : (if Req_dec_T 1 1 then true else false) = true).
    { destruct (Req_dec_T 1 1); [reflexivity | congruence]. }
    assert (Hc : L.Logit_clean (Np.FLOAT_EPS / 2) = Np.FLOAT_EPS).
    { apply clip_low; lra. }
    eexists.
    exists [Some (Np.sign (1 - Np.FLOAT_EPS) *
                  R_sqrt.sqrt (-2 * ln Np.FLOAT_EPS) / 1)],
           (-2 * ln (Np.FLOAT_EPS / 2 + F.tiny)),
           (-2 * ln Np.FLOAT_EPS).
    split; [reflexivity|]. split; [|split; [|split]].
    + unfold F.resid_dev, F.Binomial_resid_dev, F.n_is_one.
      cbn [F.kind_of F.link F._getlink F._link F.n bind].
      rewrite Hn1.
      change (L._clean (L.new scipy_stats_cauchy L.logit "0x7f0f") 0)
        with (Some (L.Logit_clean 0)).
      cbn [bind Np.map2].
      change (L._clean (L.new scipy_stats_cauchy L.logit "0x7f0f")
                (Np.FLOAT_EPS / 2))
        with (Some (L.Logit_clean (Np.FLOAT_EPS / 2))).
      cbn [bind]. rewrite Hc, Hone.
      replace (1 * Np.FLOAT_EPS + (1 - 1) * (1 - Np.FLOAT_EPS))
        with Np.FLOAT_EPS by lra.
      rewrite log_some by lra. cbn [bind].
      rewrite sqrt_some by lra. cbn [bind].
      rewrite div_some by lra. reflexivity.
    + unfold F.deviance, F.Binomial_deviance, F.n_is_one.
      cbn [F.kind_of F.n bind]. rewrite Hn1. cbn [Np.map3 Np.sum bind].
      rewrite log_some by lra. cbn [bind].
      rewrite log_some by lra. cbn [bind]. rewrite Hone. f_equal. lra.
    + unfold weighted_sum_sq. cbn [Np.map2 Np.sum bind].
      rewrite sign_sqrt_sq_ne by lra. f_equal. lra.
    + split; [reflexivity|]. split; [reflexivity|].
      assert (Hlt : ln (Np.FLOAT_EPS / 2 + F.tiny) <
                    ln (2 / 3 * Np.FLOAT_EPS)).
      { apply ln_increasing; lra. }
      rewrite ln_mult in Hlt by lra.
      pose proof (ln_le_sub (2 / 3)). lra.
Qed.

(** * Further properties of the code *)

(** ** Perfect fit *)

Lemma map2_same {A B : Type} (f : A -> A -> B) (l : list A) :
  Np.map2 f l l = map (fun x => f x x) l.
Proof. induction l as [|x l IH]; simpl; [reflexivity | now rewrite IH]. Qed.

Lemma sum_map3_zero (P : R -> Prop) (f : R -> R -> R -> option R)
  (y w : list R) :
  List.length w = List.length y ->
  Forall P y ->
  (forall v wi, P v -> f v v wi = Some 0) ->
  Np.sum (Np.map3 f y y w) = Some 0.
Proof.
  intros Hlen Hy Hf. revert w Hlen.
  induction Hy as [|v y Hv Hy IH]; intros [|wi w] Hlen; simpl in *;
    try reflexivity; try discriminate.
  rewrite (Hf v wi Hv). cbn [bind]. rewrite IH by lia. cbn [bind].
  f_equal. lra.
Qed.

Lemma sign_0 : Np.sign 0 = 0.
Proof.
  unfold Np.sign. destruct (Rlt_dec 0 0); [lra|reflexivity].
Qed.

Lemma clean_one : Np.clip_inf 1 Np.FLOAT_EPS = 1.
Proof. apply clip_inf_id. pose proof eps_bounds. lra. Qed.

Lemma Poisson_perfect_obs (v scale : R) :
  0 < v -> scale <> 0 ->
  (q <- Np.div v v ;;
   lg <- Np.log (F.Poisson_clean q) ;;
   s <- Np.sqrt (2 * (v * lg - (v - v))) ;;
   Np.div (Np.sign (v - v) * s) scale) = Some 0 /\
  (forall w, (q <- Np.div v v ;;
              lg <- Np.log (F.Poisson_clean q) ;;
              Some (v * w * lg)) = Some 0).
Proof.
  intros Hv Hs.
  rewrite div_some by lra. cbn [bind].
  replace (v / v) with 1 by (field; lra).
  unfold F.Poisson_clean. rewrite clean_one.
  rewrite log_some by lra. cbn [bind]. rewrite ln_1.
  split.
  - replace (2 * (v * 0 - (v - v))) with 0 by ring.
    rewrite sqrt_some by lra. cbn [bind].
    rewrite div_some by assumption. f_equal.
    replace (v - v) with 0 by ring. rewrite sign_0. field. assumption.
  - intros w. f_equal. ring.
Qed.

Lemma Gamma_perfect_obs (v : R) :
  0 < v ->
  (q <- Np.div v v ;;
   r <- Np.div (- (v - v)) v ;;
   lg <- Np.log (F.Gamma_clean q) ;;
   s <- Np.sqrt (-2 * (r + lg)) ;;
   Some (Np.sign (v - v) * s)) = Some 0 /\
  (forall w, (q <- Np.div v v ;;
              r <- Np.div (v - v) v ;;
              lg <- Np.log (F.Gamma_clean q) ;;
              Some (w * (r - lg))) = Some 0).
Proof.
  intros Hv.
  rewrite !div_some by lra. cbn [bind].
  replace (v / v) with 1 by (field; lra).
  unfold F.Gamma_clean. rewrite clean_one.
  rewrite log_some by lra. cbn [bind]. rewrite ln_1.
  split.
  - replace (-2 * (- (v - v) / v + 0)) with 0 by (field; lra).
    rewrite sqrt_some by lra. cbn [bind]. f_equal.
    replace (v - v) with 0 by ring. rewrite sign_0. ring.
  - intros w. f_equal. field. lra.
Qed.

Lemma div_zero_num (s : R) : s <> 0 -> Np.div 0 s = Some 0.
Proof. intros Hs. rewrite div_some by assumption. f_equal. field. assumption. Qed.

(** X1.  Perfect fit.  For the Poisson, QuasiPoisson and Gamma families and
    positive responses, and for a Gaussian family and any responses, a mean
    equal to the response has every deviance residual equal to 0 and the
    deviance equal to 0, whatever the frequency weights and the non-zero
    scale. *)
Theorem perfect_fit (self : F.family) (y w : list R) (scale : R) :
  perfect_fit_data self y ->
  List.length w = List.length y ->
  scale <> 0 ->
  F.resid_dev self y y scale = Some (map (fun _ => Some 0) y) /\
  F.deviance self y y w scale = Some 0.
Proof.
  unfold perfect_fit_data, F.resid_dev, F.deviance.
  intros Hdata Hlen Hs.
  destruct (F.kind_of self); try contradiction.
  - (* Poisson *)
    split.
    + f_equal. unfold F.Poisson_resid_dev. rewrite map2_same.
      apply map_ext_Forall. revert Hdata. apply Forall_pointwise.
      intros v Hv. apply Poisson_perfect_obs; assumption.
    + unfold F.Poisson_deviance.
      rewrite (sum_map3_zero (fun v => 0 < v)); try assumption.
      * cbn [bind]. replace (2 * 0) with 0 by ring. now apply div_zero_num.
      * intros v wi Hv. now apply (Poisson_perfect_obs v scale).
  - (* QuasiPoisson *)
    split.
    + f_equal. unfold F.Poisson_resid_dev. rewrite map2_same.
      apply map_ext_Forall. revert Hdata. apply Forall_pointwise.
      intros v Hv. apply Poisson_perfect_obs; assumption.
    + unfold F.Poisson_deviance.
      rewrite (sum_map3_zero (fun v => 0 < v)); try assumption.
      * cbn [bind]. replace (2 * 0) with 0 by ring. now apply div_zero_num.
      * intros v wi Hv. now apply (Poisson_perfect_obs v scale).
  - (* Gaussian *)
    split.
    + f_equal. unfold F.Gaussian_resid_dev. rewrite map2_same, Hdata.
      apply map_ext. intros v. cbn [V.call V.constant bind].
      rewrite sqrt_some by lra. cbn [bind]. rewrite sqrt_1.
      rewrite div_some by lra. cbn [bind].
      rewrite div_some by assumption. f_equal. field. assumption.
    + unfold F.Gaussian_deviance.
      rewrite (sum_map3_zero (fun _ => True)); try assumption.
      * cbn [bind]. now apply div_zero_num.
      * clear. induction y; constructor; auto.
      * intros v wi _. f_equal. ring.
  - (* Gamma *)
    split.
    + f_equal. unfold F.Gamma_resid_dev. rewrite map2_same.
      apply map_ext_Forall. revert Hdata. apply Forall_pointwise.
      intros v Hv. apply Gamma_perfect_obs; assumption.
    + unfold F.Gamma_deviance.
      rewrite (sum_map3_zero (fun v => 0 < v)); try assumption.
      * cbn [bind]. f_equal. ring.
      * intros v wi Hv. now apply (Gamma_perfect_obs v).
Qed.

Lemma perfect_fit_witness :
  let self := F.mkFamily F.Gamma None V.mu_squared None in
  F.resid_dev self [2; 3] [2; 3] 1 = Some [Some 0; Some 0] /\
  F.deviance self [2; 3] [2; 3] [1; 1] 1 = Some 0.
Proof.
  intros self.
  apply (perfect_fit self [2; 3] [1; 1] 1).
  - unfold perfect_fit_data. simpl. repeat constructor; lra.
  - reflexivity.
  - lra.
Defined.

Lemma sum_In_None (a : list (option R)) : In None a -> Np.sum a = None.
Proof.
  induction a as [|x a IH]; simpl; [tauto|].
  intros [->|Hin]; [reflexivity|].
  destruct x; cbn [bind]; [|reflexivity]. now rewrite IH.
Qed.

Lemma In_map3_diag (f : R -> R -> R -> option R) (y w : list R) (v : R) :
  List.length w = List.length y ->
  In v y ->
  exists wi, In (f v v wi) (Np.map3 f y y w).
Proof.
  revert w. induction y as [|x y IH]; intros [|wi w] Hlen Hin;
    simpl in *; try tauto; try discriminate.
  destruct Hin as [->|Hin].
  - exists wi. now left.
  - destruct (IH w) as (wj & Hj); [lia|assumption|]. exists wj. now right.
Qed.

(** X2.  A zero count at a perfect fit.  For the Poisson and QuasiPoisson
    families, when the mean equals the response and some response is 0 (a
    valid count), that observation computes 0/0: its deviance residual is
    not finite and neither is the deviance. *)
Theorem Poisson_zero_count_perfect_fit (self : F.family) (y w : list R)
  (scale : R) :
  F.kind_of self = F.Poisson \/ F.kind_of self = F.QuasiPoisson ->
  List.length w = List.length y ->
  In 0 y ->
  F.deviance self y y w scale = None /\
  exists r, F.resid_dev self y y scale = Some r /\ In None r.
Proof.
  intros Hk Hlen Hin.
  assert (Hd : F.deviance self y y w scale =
               F.Poisson_deviance y y w scale)
    by (unfold F.deviance; destruct Hk as [-> | ->]; reflexivity).
  assert (Hr : F.resid_dev self y y scale =
               Some (F.Poisson_resid_dev y y scale))
    by (unfold F.resid_dev; destruct Hk as [-> | ->]; reflexivity).
  rewrite Hd, Hr. split.
  - unfold F.Poisson_deviance.
    match goal with |- context [Np.map3 ?f y y w] =>
      destruct (In_map3_diag f y w 0 Hlen Hin) as (wi & Hwi) end.
    rewrite div_zero in Hwi. cbn [bind] in Hwi.
    now rewrite (sum_In_None _ Hwi).
  - eexists. split; [reflexivity|].
    unfold F.Poisson_resid_dev. rewrite map2_same.
    apply in_map_iff. exists 0. split; [|assumption].
    now rewrite div_zero.
Qed.

Lemma Poisson_zero_count_perfect_fit_witness :
  let self := F.mkFamily F.Poisson None V.mu None in
  F.deviance self [0; 2] [0; 2] [1; 1] 1 = None /\
  exists r, F.resid_dev self [0; 2] [0; 2] 1 = Some r /\ In None r.
Proof.
  intros self.
  apply (Poisson_zero_count_perfect_fit self [0; 2] [1; 1] 1).
  - left. reflexivity.
  - reflexivity.
  - simpl. left. reflexivity.
Defined.

(** ** Sign of the deviance *)







(** ** The Gaussian log-likelihood of a link other than the identity *)

(** X4.  For a Gaussian family whose link is not a [Power] link of exponent
    1 (the log and inverse links), and a positive scale, [loglike] is finite
    and equals [- deviance / 2 - (sum w / 2) * ln (2 pi scale)], where
    [deviance] is the value [Gaussian.deviance] returns for the same
    arguments.  The branch evaluates [y mu - mu^2 / 2 - y^2 / 2], which
    cancels in binary64 when the residual is small against the data: the
    statement is for responses equal to the mean or away from it by
    [2^-10 (|y| + |mu|)]. *)
Theorem Gaussian_loglike_deviance (self : F.family) (data : list observation)
  (scale : R) :
  F.is_identity_power self = false ->
  0 < scale ->
  Forall (fun o =>
    separated ((Rabs (obs_y o) + Rabs (obs_mu o)) / 2 ^ 10)
      (obs_y o) (obs_mu o)) data ->
  exists ll d,
    F.Gaussian_loglike self (map obs_y data) (map obs_mu data)
      (map obs_w data) scale = Some ll /\
    F.Gaussian_deviance (map obs_y data) (map obs_mu data) (map obs_w data)
      scale = Some d /\
    ll = - d / 2 - rsum obs_w data / 2 * ln (2 * PI * scale).
Proof.
  intros Hid Hs _. unfold F.Gaussian_loglike, F.Gaussian_deviance.
  rewrite Hid, !map3_columns.
  assert (Hpi : 0 < 2 * PI * scale).
  { pose proof PI_RGT_0. apply Rmult_lt_0_compat; lra. }
  rewrite (sum_columns _
    (fun o => obs_w o * ((obs_y o * obs_mu o - obs_mu o ^ 2 / 2) / scale
                         - obs_y o ^ 2 / (2 * scale)
                         - / 2 * ln (2 * PI * scale)))).
  2:{ apply Forall_forall. intros o _.
      rewrite !div_some by lra. cbn [bind].
      rewrite log_some by assumption. reflexivity. }
  rewrite (sum_columns _ (fun o => obs_w o * (obs_y o - obs_mu o) ^ 2)).
  2:{ apply Forall_forall. intros o _. reflexivity. }
  cbn [bind]. rewrite div_some by lra.
  do 2 eexists. split; [reflexivity|]. split; [reflexivity|].
  rewrite (rsum_lin2 (- / (2 * scale)) (- / 2 * ln (2 * PI * scale)) _
             (fun o => obs_w o * (obs_y o - obs_mu o) ^ 2) obs_w).
  - field. lra.
  - intros o. field. lra.
Qed.

Lemma Gaussian_loglike_deviance_witness :
  let self :=
    F.mkFamily F.Gaussian
      (Some (F.Inst (L.new scipy_stats_cauchy L.log "0x7f12")))
      V.constant None in
  let data := [mkObs 1 2 1 1; mkObs 3 2 1 1] in
  exists ll d,
    F.Gaussian_loglike self (map obs_y data) (map obs_mu data)
      (map obs_w data) 2 = Some ll /\
    F.Gaussian_deviance (map obs_y data) (map obs_mu data) (map obs_w data)
      2 = Some d /\
    ll = - d / 2 - rsum obs_w data / 2 * ln (2 * PI * 2).
Proof.
  intros self data.
  apply (Gaussian_loglike_deviance self data 2).
  - reflexivity.
  - lra.
  - unfold data. constructor; [|constructor; [|constructor]];
      cbn [obs_y obs_mu]; right.
    + replace (1 - 2) with (- (1)) by lra.
      rewrite Rabs_Ropp, !Rabs_pos_eq by lra. lra.
    + rewrite !Rabs_pos_eq by lra. lra.
Defined.

(** ** Which links a family accepts *)

(** X5.  Assigning [link] to a family succeeds exactly when [link] is an
    instance whose class is one of the classes listed in the family's
    [links]: the listed classes have no subclass, and an instance of one of
    their base classes ([Log], [Logit], [Power], [CDFLink], [CLogLog]) is
    rejected. *)
Theorem setlink_accepts_iff (self : F.family) (link : F.pyobj) :
  snd (F._setlink self link) = F.Ok tt <->
  exists l, link = F.Inst l /\ In (L.class_of l) (F.links (F.kind_of self)).
Proof.
  destruct link as [[c p al d ad]|s].
  - unfold F._setlink. cbn [F.kind_of L.class_of].
    destruct (F.kind_of self), c; cbn; split;
      try (intros H; discriminate H);
      try (intros (l & Hl & Hin); injection Hl as <-;
           cbn in Hin; intuition discriminate);
      try (intros _; eexists; split; [reflexivity|]; cbn; tauto).
  - cbn. split; [discriminate|]. intros (l & Hl & _). discriminate.
Qed.

(** X6.  The classes of [safe_links].  For the Poisson, QuasiPoisson, Gamma
    and Binomial families every class of [safe_links] is a base class of a
    class of [links], and constructing the family with it raises the
    ValueError of an invalid link. *)
Theorem safe_links_rejected (norm : Dist) (k : F.kind) (c : L.cls)
  (a : string) :
  k <> F.Gaussian ->
  In c (F.safe_links k) ->
  (exists c', In c' (F.links k) /\ L.issubclass c' c = true) /\
  F.init norm k c a =
    F.Raise (F.ValueError (F.errmsg (F.repr_links (F.links k))
                             (F.str (F.Inst (L.new norm c a))))).
Proof.
  intros Hk Hin.
  destruct k; cbn in Hin; try tauto; try congruence;
    repeat (destruct Hin as [<-|Hin]; [|]); try contradiction;
    (split; [|reflexivity]).
  - exists L.log. split; [cbn; tauto|reflexivity].
  - exists L.log. split; [cbn; tauto|reflexivity].
  - exists L.log. split; [cbn; tauto|reflexivity].
  - exists L.logit. split; [cbn; tauto|reflexivity].
  - exists L.probit. split; [cbn; tauto|reflexivity].
Qed.

Lemma safe_links_rejected_witness :
  (exists c', In c' (F.links F.Poisson) /\ L.issubclass c' L.Log = true) /\
  F.init scipy_stats_cauchy F.Poisson L.Log "0x7f13" =
    F.Raise (F.ValueError
      (F.errmsg (F.repr_links (F.links F.Poisson))
         (F.str (F.Inst (L.new scipy_stats_cauchy L.Log "0x7f13"))))).
Proof.
  apply (safe_links_rejected scipy_stats_cauchy F.Poisson L.Log "0x7f13").
  - discriminate.
  - simpl. left. reflexivity.
Defined.

(** X7.  The base class.  [Family.links] is the empty list: on an instance
    of [Family] itself every assignment of a link raises, TypeError for an
    object that is not a [Link] and ValueError (from [max] of an empty list)
    for a [Link]; so [Family(link, variance)] never returns an object. *)
Theorem base_family_rejects_every_link (self : F.family) (link : F.pyobj) :
  F.kind_of self = F.Family ->
  (exists e, snd (F._setlink self link) = F.Raise e /\
     if F.isinstance link L.Link
     then exists m, e = F.ValueError m
     else e = F.TypeError "The input should be a valid Link object.") /\
  (forall (norm : Dist) (c : L.cls) (v : V.varfunc) (a : string),
     exists e, F.Family_init norm c v a = F.Raise e).
Proof.
  intros Hk. split.
  - unfold F._setlink. cbn [F.kind_of]. rewrite Hk.
    destruct (F.isinstance link L.Link); cbn.
    + eexists. split; [reflexivity|]. eexists. reflexivity.
    + eexists. split; reflexivity.
  - intros norm c v a. unfold F.Family_init, F.init_with, F._setlink.
    cbn [F.kind_of].
    destruct (negb _); cbn; eexists; reflexivity.
Qed.

Lemma base_family_rejects_every_link_witness :
  let self := F.mkFamily F.Family None V.constant None in
  let link := F.Inst (L.new scipy_stats_cauchy L.log "0x7f14") in
  (exists e, snd (F._setlink self link) = F.Raise e /\
     if F.isinstance link L.Link
     then exists m, e = F.ValueError m
     else e = F.TypeError "The input should be a valid Link object.") /\
  (forall (norm : Dist) (c : L.cls) (v : V.varfunc) (a : string),
     exists e, F.Family_init norm c v a = F.Raise e).
Proof.
  intros self link.
  apply (base_family_rejects_every_link self link). reflexivity.
Defined.

(** ** Fitted values *)

Lemma Family_init_raises (norm : Dist) (c : L.cls) (v : V.varfunc)
  (a : string) (self : F.family) :
  F.Family_init norm c v a = F.Ok self -> False.
Proof.
  unfold F.Family_init, F.init_with, F._setlink. cbn [F.kind_of].
  destruct (negb _); cbn; discriminate.
Qed.

Lemma init_link (norm : Dist) (k : F.kind) (c : L.cls) (a : string)
  (self : F.family) :
  F.init norm k c a = F.Ok self ->
  F.kind_of self = k /\ F.link self = Some (L.new norm c a).
Proof.
  intros H.
  assert (Hk : k <> F.Family).
  { intros ->. exact (Family_init_raises _ _ _ _ _ H). }
  split; [|exact (proj1 (proj2 (init_accepts norm k c a self Hk H)))].
  destruct k; cbn in H; try congruence;
    apply init_with_ok in H; rewrite H; reflexivity.
Qed.

Lemma exp_le_pow2 (x : R) (n : nat) : 2 * x <= INR n -> exp x <= 2 ^ n.
Proof.
  intros H. pose proof ln_2_bounds as H2.
  assert (Hn : 0 <= INR n) by apply pos_INR.
  rewrite <- (Rpower_pow n 2) by lra. unfold Rpower.
  assert (Hx : x <= INR n * ln 2) by nra.
  destruct Hx as [Hlt|Heq].
  - left. apply exp_increasing. exact Hlt.
  - right. now rewrite Heq.
Qed.

Lemma exp_25 : exp 25 <= 2 ^ 50.
Proof. apply exp_le_pow2. simpl. lra. Qed.

Lemma exp_2 : exp 2 <= 2 ^ 4.
Proof. apply exp_le_pow2. simpl. lra. Qed.

Lemma exp_16 : exp 16 <= 2 ^ 32.
Proof. apply exp_le_pow2. simpl. lra. Qed.

Lemma two_eps : 2 * Np.FLOAT_EPS = / 2 ^ 51.
Proof. rewrite eps_value. lra. Qed.

Lemma one_minus_exp (x : R) : 0 < x <= 1 -> x / 2 <= 1 - exp (- x).
Proof.
  intros Hx. assert (He : 1 + x < exp x) by (apply exp_ineq1; lra).
  rewrite exp_Ropp.
  assert (H1 : / exp x <= / (1 + x)).
  { apply Rinv_le_contravar; lra. }
  assert (H2 : / (1 + x) <= 1 - x / 2).
  { apply Rmult_le_reg_r with (1 + x); [lra|].
    rewrite Rinv_l by lra. nra. }
  lra.
Qed.

Lemma Logit_inverse_margin (z : R) :
  -25 <= z <= 25 ->
  2 * Np.FLOAT_EPS <= 1 / (1 + exp (- z)) <= 1 - 2 * Np.FLOAT_EPS.
Proof.
  intros Hz. rewrite two_eps. pose proof exp_25 as H25.
  pose proof (exp_pos z) as Hp. pose proof (exp_pos (- z)) as Hn.
  assert (Hz1 : exp z <= 2 ^ 50).
  { apply Rle_trans with (exp 25); [|exact H25].
    destruct (Req_dec z 25) as [->|Hne]; [lra|].
    left. apply exp_increasing. lra. }
  assert (Hz2 : exp (- z) <= 2 ^ 50).
  { apply Rle_trans with (exp 25); [|exact H25].
    destruct (Req_dec (- z) 25) as [->|Hne]; [lra|].
    left. apply exp_increasing. lra. }
  assert (H51 : (2:R) ^ 51 = 2 * 2 ^ 50) by (simpl; ring).
  assert (H50 : 1 <= (2:R) ^ 50) by (apply pow_R1_Rle; lra).
  split.
  - unfold Rdiv. rewrite Rmult_1_l. apply Rinv_le_contravar; lra.
  - replace (1 / (1 + exp (- z))) with (1 - / (1 + exp z)).
    + assert (/ 2 ^ 51 <= / (1 + exp z))
        by (apply Rinv_le_contravar; lra).
      lra.
    + rewrite exp_Ropp. field. split; lra.
Qed.

Lemma CLogLog_inverse_margin (z : R) :
  -25 <= z <= 2 ->
  2 * Np.FLOAT_EPS <= 1 - exp (- exp z) <= 1 - 2 * Np.FLOAT_EPS.
Proof.
  intros Hz. rewrite two_eps.
  pose proof exp_25 as H25. pose proof exp_2 as H2. pose proof exp_16 as H16.
  pose proof (exp_pos z) as Hp.
  assert (H50 : 0 < (2:R) ^ 50) by (apply pow_lt; lra).
  assert (H51 : (2:R) ^ 51 = 2 * 2 ^ 50) by (simpl; ring).
  split.
  - (* exp z >= exp (-25) >= 2^-50 *)
    assert (Hlow : / 2 ^ 50 <= exp z).
    { apply Rle_trans with (exp (-25)).
      - replace (-25) with (Ropp 25) by lra. rewrite exp_Ropp.
        apply Rinv_le_contravar; [apply exp_pos|exact H25].
      - destruct (Req_dec z (-25)) as [->|Hne]; [lra|].
        left. apply exp_increasing. lra. }
    destruct (Rle_lt_dec (exp z) 1) as [Hle|Hgt].
    + pose proof (one_minus_exp (exp z) (conj Hp Hle)) as H.
      rewrite H51. rewrite Rinv_mult by idtac.
      lra.
    + assert (exp (- exp z) < exp (Ropp 1)) by (apply exp_increasing; lra).
      pose proof (one_minus_exp 1 ltac:(lra)) as H1.
      assert (/ 2 ^ 51 <= / 2).
      { apply Rinv_le_contravar; [lra|]. rewrite H51.
        assert (1 <= (2:R) ^ 50) by (apply pow_R1_Rle; lra). lra. }
      lra.
  - assert (Hup : exp z <= 16).
    { apply Rle_trans with (exp 2); [|simpl in H2; lra].
      destruct (Req_dec z 2) as [->|Hne]; [lra|].
      left. apply exp_increasing. lra. }
    assert (Hge : exp (Ropp 16) <= exp (- exp z)).
    { destruct (Req_dec (exp z) 16) as [->|Hne]; [lra|].
      left. apply exp_increasing. lra. }
    rewrite exp_Ropp in Hge.
    assert (/ 2 ^ 32 <= / exp 16)
      by (apply Rinv_le_contravar; [apply exp_pos|exact H16]).
    assert (/ 2 ^ 51 <= / 2 ^ 32).
    { apply Rinv_le_contravar; [apply pow_lt; lra|].
      apply Rle_pow; [lra|lia]. }
    lra.
Qed.

(** X8.  Fitted values stay inside the mean range.  For a family built with
    the logit or the cloglog link and a moderate linear predictor
    ([|z| <= 25] for logit, [-25 <= z <= 2] for cloglog), [fitted] returns a
    finite mean in [2 eps, 1 - 2 eps], strictly inside the range that the
    clipping leaves unchanged; with the log link and [|z| <= 700], a finite
    positive mean. *)
Theorem fitted_in_mean_range (norm : Dist) (k : F.kind) (c : L.cls)
  (a : string) (self : F.family) (z : R) :
  F.init norm k c a = F.Ok self ->
  moderate_predictor c z ->
  exists m,
    F.fitted self z = Some m /\
    (c = L.log -> 0 < m) /\
    (c <> L.log -> 2 * Np.FLOAT_EPS <= m <= 1 - 2 * Np.FLOAT_EPS).
Proof.
  intros Hinit Hz.
  destruct (init_link _ _ _ _ _ Hinit) as (_ & Hl).
  unfold F.fitted. rewrite Hl. cbn [bind].
  destruct c; try contradiction; cbn in Hz |- *.
  - destruct (Logit_inverse_some z) as (-> & _).
    eexists. split; [reflexivity|]. split; [discriminate|].
    intros _. apply Logit_inverse_margin, Hz.
  - unfold L.Log_inverse. eexists. split; [reflexivity|].
    split; [intros _; apply exp_pos|congruence].
  - unfold L.CLogLog_inverse. eexists. split; [reflexivity|].
    split; [discriminate|]. intros _. apply CLogLog_inverse_margin, Hz.
Qed.

Lemma fitted_in_mean_range_witness :
  exists self m,
    F.init scipy_stats_cauchy F.Binomial L.cloglog "0x7f15" = F.Ok self /\
    F.fitted self 1 = Some m /\
    (L.cloglog = L.log -> 0 < m) /\
    (L.cloglog <> L.log -> 2 * Np.FLOAT_EPS <= m <= 1 - 2 * Np.FLOAT_EPS).
Proof.
  eexists.
  assert (Hi : F.init scipy_stats_cauchy F.Binomial L.cloglog "0x7f15" =
               F.Ok (F.mkFamily F.Binomial
                 (Some (F.Inst (L.new scipy_stats_cauchy L.cloglog "0x7f15")))
                 (V.Binomial 1) (Some (F.NScalar 1)))) by reflexivity.
  destruct (fitted_in_mean_range scipy_stats_cauchy F.Binomial L.cloglog
              "0x7f15" _ 1 Hi) as (m & Hm).
  - simpl. lra.
  - exists m. split; [exact Hi | exact Hm].
Defined.

(** ** Binomial deviance residuals need [link._clean] *)

Lemma map2_length {A B C : Type} (f : A -> B -> C) (a : list A)
  (b : list B) :
  List.length a = List.length b ->
  List.length (Np.map2 f a b) = List.length a.
Proof.
  revert b. induction a as [|x a IH]; intros [|y b] H; simpl in *;
    try discriminate; [reflexivity|].
  f_equal. apply IH. lia.
Qed.

(** X9.  [Binomial.resid_dev] calls [self.link._clean], which [Logit], [Log]
    and their subclasses define and [Power] does not: of the six links the
    Binomial family accepts, the identity link, and only it, makes
    [resid_dev] raise (AttributeError) on a response and a mean of one
    shape; with the other five it returns an array with one entry per
    observation. *)
Theorem Binomial_resid_dev_needs_clean (norm : Dist) (c : L.cls) (a : string)
  (self : F.family) (endog mu : list R) (scale : R) :
  F.Binomial_init norm c a = F.Ok self ->
  List.length endog = List.length mu ->
  (F.resid_dev self endog mu scale = None <-> c = L.identity) /\
  (c <> L.identity ->
   exists r, F.resid_dev self endog mu scale = Some r /\
             List.length r = List.length endog).
Proof.
  intros Hinit Hlen.
  pose proof (Binomial_init_ok _ _ _ _ Hinit) as ->.
  unfold F.resid_dev, F.Binomial_resid_dev.
  cbn [F.kind_of F.link F._getlink F._link bind F.n_is_one F.n].
  destruct (Req_dec_T 1 1) as [_|Hne]; [|congruence].
  destruct c; cbn in Hinit; try discriminate Hinit; cbn [L._clean L.new
    L.lookup L.defines_init L.defines_clean L.mro L.mro_fuel L.base find
    L.class_of bind];
    (split;
     [ split; intros H; try discriminate H; reflexivity
     | intros Hc;
       first [ congruence
             | eexists; split;
               [reflexivity | apply map2_length; exact Hlen] ] ]).
Qed.

Lemma Binomial_resid_dev_needs_clean_witness :
  exists self,
    F.Binomial_init scipy_stats_cauchy L.identity "0x7f16" = F.Ok self /\
    (F.resid_dev self [1] [/ 2] 1 = None <-> L.identity = L.identity) /\
    (L.identity <> L.identity ->
     exists r, F.resid_dev self [1] [/ 2] 1 = Some r /\
               List.length r = List.length [1]).
Proof.
  eexists. split; [reflexivity|].
  apply (Binomial_resid_dev_needs_clean scipy_stats_cauchy L.identity
           "0x7f16" _ [1] [/ 2] 1); reflexivity.
Defined.

(** ** Derivatives *)

Lemma D_eq (f : R -> R) (x l l' : R) :
  derivable_pt_lim f x l -> l = l' -> derivable_pt_lim f x l'.
Proof. intros H <-. exact H. Qed.

Lemma D_const (c x : R) : derivable_pt_lim (fun _ => c) x 0.
Proof. exact (derivable_pt_lim_const c x). Qed.

Lemma D_id (x : R) : derivable_pt_lim (fun t => t) x 1.
Proof. exact (derivable_pt_lim_id x). Qed.

Lemma D_plus (f g : R -> R) (x a b : R) :
  derivable_pt_lim f x a -> derivable_pt_lim g x b ->
  derivable_pt_lim (fun t => f t + g t) x (a + b).
Proof. exact (derivable_pt_lim_plus f g x a b). Qed.

Lemma D_minus (f g : R -> R) (x a b : R) :
  derivable_pt_lim f x a -> derivable_pt_lim g x b ->
  derivable_pt_lim (fun t => f t - g t) x (a - b).
Proof. exact (derivable_pt_lim_minus f g x a b). Qed.

Lemma D_opp (f : R -> R) (x a : R) :
  derivable_pt_lim f x a -> derivable_pt_lim (fun t => - f t) x (- a).
Proof. exact (derivable_pt_lim_opp f x a). Qed.

Lemma D_mult (f g : R -> R) (x a b : R) :
  derivable_pt_lim f x a -> derivable_pt_lim g x b ->
  derivable_pt_lim (fun t => f t * g t) x (a * g x + f x * b).
Proof. exact (derivable_pt_lim_mult f g x a b). Qed.

Lemma D_div (f g : R -> R) (x a b : R) :
  derivable_pt_lim f x a -> derivable_pt_lim g x b -> g x <> 0 ->
  derivable_pt_lim (fun t => f t / g t) x ((a * g x - b * f x) / (g x)²).
Proof. exact (derivable_pt_lim_div f g x a b). Qed.

Lemma D_comp (f g : R -> R) (x a b : R) :
  derivable_pt_lim f x a -> derivable_pt_lim g (f x) b ->
  derivable_pt_lim (fun t => g (f t)) x (b * a).
Proof. exact (derivable_pt_lim_comp f g x a b). Qed.

Lemma D_ln (f : R -> R) (x a : R) :
  derivable_pt_lim f x a -> 0 < f x ->
  derivable_pt_lim (fun t => ln (f t)) x (/ f x * a).
Proof.
  intros Hf Hpos. apply (D_comp f ln); [exact Hf|].
  apply derivable_pt_lim_ln, Hpos.
Qed.

Lemma D_exp (f : R -> R) (x a : R) :
  derivable_pt_lim f x a ->
  derivable_pt_lim (fun t => exp (f t)) x (exp (f x) * a).
Proof.
  intros Hf. apply (D_comp f exp); [exact Hf|]. apply derivable_pt_lim_exp.
Qed.

Lemma D_sin (f : R -> R) (x a : R) :
  derivable_pt_lim f x a ->
  derivable_pt_lim (fun t => sin (f t)) x (cos (f x) * a).
Proof.
  intros Hf. apply (D_comp f sin); [exact Hf|]. apply derivable_pt_lim_sin.
Qed.

Lemma D_cos (f : R -> R) (x a : R) :
  derivable_pt_lim f x a ->
  derivable_pt_lim (fun t => cos (f t)) x (- sin (f x) * a).
Proof.
  intros Hf. apply (D_comp f cos); [exact Hf|]. apply derivable_pt_lim_cos.
Qed.

Lemma D_atan (f : R -> R) (x a : R) :
  derivable_pt_lim f x a ->
  derivable_pt_lim (fun t => atan (f t)) x (/ (1 + f x ^ 2) * a).
Proof.
  intros Hf. apply (D_comp f atan); [exact Hf|]. apply derivable_pt_lim_atan.
Qed.

Lemma D_Rpower (k x : R) :
  0 < x -> derivable_pt_lim (fun t => Rpower t k) x (k * Rpower x (k - 1)).
Proof. intros Hx. exact (derivable_pt_lim_power x k Hx). Qed.

(** A function that agrees with [g] on an open interval around [x] has the
    derivative of [g] at [x]. *)
Lemma D_local (f g : R -> R) (x a b l : R) :
  a < x < b -> (forall t, a < t < b -> f t = g t) ->
  derivable_pt_lim g x l -> derivable_pt_lim f x l.
Proof.
  intros Hx Heq Hg.
  apply (derivable_pt_lim_locally_ext g f x a b l Hx); [|exact Hg].
  intros t Ht. symmetry. apply Heq, Ht.
Qed.

Lemma Logit_deriv_derivative (p : R) :
  Np.FLOAT_EPS < p < 1 - Np.FLOAT_EPS ->
  derivative_at L.Logit_call L.Logit_deriv p.
Proof.
  intros Hp. pose proof eps_bounds as He.
  unfold derivative_at. rewrite Logit_deriv_some.
  rewrite Logit_clean_id by lra.
  eexists. split; [reflexivity|].
  apply (D_local _ (fun t => ln (t / (1 - t))) p Np.FLOAT_EPS
           (1 - Np.FLOAT_EPS)); [lra| |].
  - intros t Ht. rewrite Logit_call_some, Logit_clean_id by lra. reflexivity.
  - eapply D_eq.
    + apply D_ln.
      * apply D_div; [apply D_id| apply D_minus; [apply D_const|apply D_id] |].
        lra.
      * apply Rdiv_lt_0_compat; lra.
    + unfold Rsqr. field. lra.
Qed.

Lemma D_pow (f : R -> R) (n : nat) (x a : R) :
  derivable_pt_lim f x a ->
  derivable_pt_lim (fun t => f t ^ n) x (INR n * f x ^ pred n * a).
Proof.
  intros Hf. apply (D_comp f (fun y => y ^ n)); [exact Hf|].
  apply derivable_pt_lim_pow.
Qed.

Lemma D_inv (f : R -> R) (x a : R) :
  derivable_pt_lim f x a -> f x <> 0 ->
  derivable_pt_lim (fun t => / f t) x (- a / (f x)²).
Proof.
  intros Hf Hne.
  apply (derivable_pt_lim_ext (fun t => 1 / f t)).
  - intros t. unfold Rdiv. apply Rmult_1_l.
  - eapply D_eq; [apply D_div; [apply D_const|exact Hf|exact Hne]|].
    unfold Rdiv. ring.
Qed.

Ltac derive :=
  repeat first
    [ apply D_id | apply D_const | apply D_ln | apply D_exp | apply D_sin
    | apply D_cos | apply D_atan | apply D_pow | apply D_div | apply D_inv
    | apply D_minus | apply D_plus | apply D_opp | apply D_mult ].

Lemma Log_call_some (p : R) :
  Np.FLOAT_EPS <= p -> L.Log_call p = Some (ln p).
Proof.
  intros Hp. pose proof eps_bounds. unfold L.Log_call, L.Log_clean.
  rewrite clip_inf_id by assumption. apply log_some. lra.
Qed.

Lemma Log_deriv_some (p : R) :
  Np.FLOAT_EPS <= p -> L.Log_deriv p = Some (1 / p).
Proof.
  intros Hp. pose proof eps_bounds. unfold L.Log_deriv, L.Log_clean.
  rewrite clip_inf_id by assumption. apply div_some. lra.
Qed.

Lemma Log_deriv_derivative (p : R) :
  Np.FLOAT_EPS < p -> derivative_at L.Log_call L.Log_deriv p.
Proof.
  intros Hp. pose proof eps_bounds as He.
  unfold derivative_at. rewrite Log_deriv_some by lra.
  eexists. split; [reflexivity|].
  apply (D_local _ ln p Np.FLOAT_EPS (p + 1)); [lra| |].
  - intros t Ht. rewrite Log_call_some by lra. reflexivity.
  - eapply D_eq; [apply derivable_pt_lim_ln; lra|]. field. lra.
Qed.

Lemma ln_neg (x : R) : 0 < x < 1 -> ln x < 0.
Proof. intros Hx. rewrite <- ln_1. apply ln_increasing; lra. Qed.

Lemma CLogLog_deriv_derivative (p : R) :
  Np.FLOAT_EPS < p < 1 - Np.FLOAT_EPS ->
  derivative_at L.CLogLog_call L.CLogLog_deriv p.
Proof.
  intros Hp. pose proof eps_bounds as He.
  unfold derivative_at.
  destruct (CLogLog_deriv_some p) as (-> & Hpos).
  rewrite Logit_clean_id in * by lra.
  eexists. split; [reflexivity|].
  apply (D_local _ (fun t => ln (- ln (1 - t))) p Np.FLOAT_EPS
           (1 - Np.FLOAT_EPS)); [lra| |].
  - intros t Ht. destruct (CLogLog_call_some t) as (-> & _).
    rewrite Logit_clean_id by lra. reflexivity.
  - assert (Hl : ln (1 - p) < 0) by (apply ln_neg; lra).
    eapply D_eq; [derive; lra|]. cbv beta. field. split; lra.
Qed.

Lemma Power_call_pos (k t : R) : 0 < t -> L.Power_call k t = Some (Rpower t k).
Proof. intros Ht. unfold L.Power_call. now apply power_pos. Qed.

Lemma Power_deriv_pos (k t : R) :
  0 < t -> L.Power_deriv k t = Some (k * Rpower t (k - 1)).
Proof.
  intros Ht. unfold L.Power_deriv. rewrite power_pos by assumption.
  reflexivity.
Qed.

Lemma Power_deriv_derivative (k p : R) :
  0 < p -> derivative_at (L.Power_call k) (L.Power_deriv k) p.
Proof.
  intros Hp. unfold derivative_at. rewrite Power_deriv_pos by assumption.
  eexists. split; [reflexivity|].
  apply (D_local _ (fun t => Rpower t k) p (p / 2) (p + 1)); [lra| |].
  - intros t Ht. rewrite Power_call_pos by lra. reflexivity.
  - apply D_Rpower, Hp.
Qed.

Lemma NegativeBinomial_deriv_some (a p : R) :
  0 < a -> 0 < p ->
  L.NegativeBinomial_deriv a p = Some (1 / (p + a * p ^ 2)).
Proof.
  intros Ha Hp. unfold L.NegativeBinomial_deriv. apply div_some.
  assert (0 < a * p ^ 2) by (apply Rmult_lt_0_compat; [lra|nra]). lra.
Qed.

Lemma NegativeBinomial_deriv_derivative (a p : R) :
  0 < a -> Np.FLOAT_EPS < p ->
  derivative_at (L.NegativeBinomial_call a) (L.NegativeBinomial_deriv a) p.
Proof.
  intros Ha Hp. pose proof eps_bounds as He.
  unfold derivative_at. rewrite NegativeBinomial_deriv_some by lra.
  eexists. split; [reflexivity|].
  assert (Hia : 0 < 1 / a) by (apply Rdiv_lt_0_compat; lra).
  apply (D_local _ (fun t => ln (t / (t + 1 / a))) p Np.FLOAT_EPS (p + 1));
    [lra| |].
  - intros t Ht.
    destruct (NegativeBinomial_call_some a t Ha) as (-> & _); [lra|].
    reflexivity.
  - eapply D_eq.
    + derive; [lra|]. apply Rdiv_lt_0_compat; lra.
    + assert (0 < a * p) by (apply Rmult_lt_0_compat; lra).
      assert (0 < a * p ^ 2) by (apply Rmult_lt_0_compat; [lra|nra]).
      cbv beta. unfold Rsqr. field. repeat split; lra.
Qed.

Lemma cauchy_angle (p : R) :
  0 < p < 1 -> 0 < cos (PI * (p - / 2)).
Proof.
  intros Hp. pose proof PI_RGT_0 as Hpi.
  apply cos_gt_0; nra.
Qed.

Lemma one_plus_tan2 (a : R) :
  cos a <> 0 -> 1 + (sin a / cos a) ^ 2 = / cos a ^ 2.
Proof.
  intros Hc. pose proof (sin2_cos2 a) as H. unfold Rsqr in H.
  transitivity ((sin a * sin a + cos a * cos a) / cos a ^ 2).
  - field. exact Hc.
  - rewrite H. field. exact Hc.
Qed.

Lemma cauchy_call_some (t : R) :
  Np.FLOAT_EPS <= t <= 1 - Np.FLOAT_EPS ->
  L.CDFLink_call scipy_stats_cauchy t =
    Some (sin (PI * (t - / 2)) / cos (PI * (t - / 2))).
Proof.
  intros Ht. unfold L.CDFLink_call. rewrite Logit_clean_id by assumption.
  reflexivity.
Qed.

Lemma cauchy_deriv_some (t : R) :
  Np.FLOAT_EPS <= t <= 1 - Np.FLOAT_EPS ->
  L.CDFLink_deriv scipy_stats_cauchy t = Some (PI / cos (PI * (t - / 2)) ^ 2).
Proof.
  intros Ht. pose proof eps_bounds as He. pose proof PI_RGT_0 as Hpi.
  assert (Hc : 0 < cos (PI * (t - / 2))) by (apply cauchy_angle; lra).
  unfold L.CDFLink_deriv. rewrite Logit_clean_id by assumption.
  cbn [pdf ppf scipy_stats_cauchy]. unfold tan.
  rewrite one_plus_tan2 by lra.
  assert (Hc2 : 0 < cos (PI * (t - / 2)) ^ 2) by (apply pow_lt; exact Hc).
  rewrite div_some.
  - f_equal. field. split; lra.
  - apply Rinv_neq_0_compat. apply Rgt_not_eq.
    apply Rmult_lt_0_compat; [lra|]. apply Rinv_0_lt_compat, Hc2.
Qed.

Lemma cauchy_deriv_derivative (p : R) :
  Np.FLOAT_EPS < p < 1 - Np.FLOAT_EPS ->
  derivative_at (L.CDFLink_call scipy_stats_cauchy)
    (L.CDFLink_deriv scipy_stats_cauchy) p.
Proof.
  intros Hp. pose proof eps_bounds as He.
  assert (Hc : 0 < cos (PI * (p - / 2))) by (apply cauchy_angle; lra).
  unfold derivative_at. rewrite cauchy_deriv_some by lra.
  eexists. split; [reflexivity|].
  apply (D_local _ (fun t => sin (PI * (t - / 2)) / cos (PI * (t - / 2))) p
           Np.FLOAT_EPS (1 - Np.FLOAT_EPS)); [lra| |].
  - intros t Ht. rewrite cauchy_call_some by lra. reflexivity.
  - eapply D_eq; [derive; lra|].
    pose proof (sin2_cos2 (PI * (p - / 2))) as H. unfold Rsqr in H.
    cbv beta. unfold Rsqr.
    replace (PI / cos (PI * (p - / 2)) ^ 2)
      with (PI * (sin (PI * (p - / 2)) * sin (PI * (p - / 2)) +
                  cos (PI * (p - / 2)) * cos (PI * (p - / 2))) /
            cos (PI * (p - / 2)) ^ 2)
      by (rewrite H; f_equal; ring).
    field. lra.
Qed.

(** X10.  [deriv] is the derivative of the transform.  For every link whose
    transform is in closed form (Logit, Power, Log, CLogLog, the negative
    binomial link with a positive [alpha], a [CDFLink] over the standard
    Cauchy distribution) and every mean [p] strictly inside the range that
    the clipping leaves unchanged, [deriv(p)] is finite and is the
    derivative at [p] of the function that [__call__] computes. *)
Theorem deriv_is_derivative (l : L.instance) (p : R) :
  closed_form l ->
  open_range l p ->
  derivative_at (L.call l) (L.deriv l) p.
Proof.
  unfold closed_form, open_range, transform_of, derivative_at, L.call, L.deriv.
  destruct (L.lookup L.defines_transform (L.class_of l)) as [[]|];
    try contradiction; intros Hok Hp; cbv beta iota.
  - apply Logit_deriv_derivative, Hp.
  - destruct Hok as (k & Hpow & _). rewrite Hpow. cbn [bind].
    apply Power_deriv_derivative, Hp.
  - apply Log_deriv_derivative, Hp.
  - rewrite Hok. cbn [bind]. apply cauchy_deriv_derivative, Hp.
  - apply CLogLog_deriv_derivative, Hp.
  - destruct Hok as (a & Ha & Hpos). rewrite Ha. cbn [bind].
    apply NegativeBinomial_deriv_derivative; assumption.
Qed.

Lemma deriv_is_derivative_witness :
  derivative_at (L.call (L.new scipy_stats_cauchy L.cloglog "0x7f17"))
    (L.deriv (L.new scipy_stats_cauchy L.cloglog "0x7f17")) (/ 2).
Proof.
  apply (deriv_is_derivative (L.new scipy_stats_cauchy L.cloglog "0x7f17")
           (/ 2)).
  - exact I.
  - unfold open_range. simpl. pose proof eps_bounds. lra.
Defined.

Lemma Logit_deriv2_derivative (p : R) :
  Np.FLOAT_EPS < p < 1 - Np.FLOAT_EPS ->
  derivative_at L.Logit_deriv L.Logit_deriv2 p.
Proof.
  intros Hp. pose proof eps_bounds as He.
  assert (Hv : 0 < p * (1 - p)) by (apply Rmult_lt_0_compat; lra).
  unfold derivative_at, L.Logit_deriv2.
  rewrite div_some by (apply pow_nonzero; lra).
  eexists. split; [reflexivity|].
  apply (D_local _ (fun t => 1 / (t * (1 - t))) p Np.FLOAT_EPS
           (1 - Np.FLOAT_EPS)); [lra| |].
  - intros t Ht. rewrite Logit_deriv_some, Logit_clean_id by lra. reflexivity.
  - eapply D_eq; [derive; lra|]. cbv beta. unfold Rsqr. field. lra.
Qed.

Lemma Power_deriv2_derivative (k p : R) :
  0 < p -> derivative_at (L.Power_deriv k) (L.Power_deriv2 k) p.
Proof.
  intros Hp. unfold derivative_at, L.Power_deriv2.
  rewrite power_pos by assumption. cbn [bind].
  eexists. split; [reflexivity|].
  apply (D_local _ (fun t => k * Rpower t (k - 1)) p (p / 2) (p + 1));
    [lra| |].
  - intros t Ht. rewrite Power_deriv_pos by lra. reflexivity.
  - eapply D_eq; [apply D_mult; [apply D_const|apply D_Rpower, Hp]|].
    cbv beta. replace (k - 1 - 1) with (k - 2) by ring. ring.
Qed.

Lemma Log_deriv2_derivative (p : R) :
  Np.FLOAT_EPS < p -> derivative_at L.Log_deriv L.Log_deriv2 p.
Proof.
  intros Hp. pose proof eps_bounds as He.
  unfold derivative_at, L.Log_deriv2, L.Log_clean.
  rewrite clip_inf_id by lra.
  rewrite div_some by (apply pow_nonzero; lra).
  eexists. split; [reflexivity|].
  apply (D_local _ (fun t => 1 / t) p Np.FLOAT_EPS (p + 1)); [lra| |].
  - intros t Ht. rewrite Log_deriv_some by lra. reflexivity.
  - eapply D_eq; [derive; lra|]. cbv beta. unfold Rsqr. field. lra.
Qed.

Lemma CLogLog_deriv2_derivative (p : R) :
  Np.FLOAT_EPS < p < 1 - Np.FLOAT_EPS ->
  derivative_at L.CLogLog_deriv L.CLogLog_deriv2 p.
Proof.
  intros Hp. pose proof eps_bounds as He.
  assert (Hl : ln (1 - p) < 0) by (apply ln_neg; lra).
  assert (Hq : 0 < (1 - p) ^ 2) by (apply pow_lt; lra).
  unfold derivative_at, L.CLogLog_deriv2.
  rewrite Logit_clean_id by lra.
  rewrite log_some by lra. cbn [bind].
  rewrite div_some by (apply Rlt_not_eq; nra). cbn [bind].
  rewrite div_some by lra. cbn [bind].
  eexists. split; [reflexivity|].
  apply (D_local _ (fun t => 1 / ((t - 1) * ln (1 - t))) p Np.FLOAT_EPS
           (1 - Np.FLOAT_EPS)); [lra| |].
  - intros t Ht. destruct (CLogLog_deriv_some t) as (-> & _).
    rewrite Logit_clean_id by lra. reflexivity.
  - eapply D_eq; [derive; try lra|].
    + apply Rgt_not_eq. nra.
    + cbv beta. unfold Rsqr. field. split; lra.
Qed.

Lemma NegativeBinomial_deriv2_derivative (a p : R) :
  0 < a -> 0 < p ->
  derivative_at (L.NegativeBinomial_deriv a) (L.NegativeBinomial_deriv2 a) p.
Proof.
  intros Ha Hp.
  assert (Hd : 0 < p + a * p ^ 2).
  { assert (0 < a * p ^ 2) by (apply Rmult_lt_0_compat; [lra|nra]). lra. }
  unfold derivative_at, L.NegativeBinomial_deriv2.
  rewrite div_some by (apply pow_nonzero; lra).
  eexists. split; [reflexivity|].
  apply (D_local _ (fun t => 1 / (t + a * t ^ 2)) p (p / 2) (p + 1));
    [lra| |].
  - intros t Ht. rewrite NegativeBinomial_deriv_some by lra. reflexivity.
  - eapply D_eq; [derive; lra|]. cbv beta. unfold Rsqr. simpl. field. 
    simpl in Hd. lra.
Qed.

Lemma cauchy_deriv2_derivative (p : R) :
  Np.FLOAT_EPS < p < 1 - Np.FLOAT_EPS ->
  derivative_at (L.CDFLink_deriv scipy_stats_cauchy) L.cauchy_deriv2 p.
Proof.
  intros Hp. pose proof eps_bounds as He.
  assert (Hc : 0 < cos (PI * (p - / 2))) by (apply cauchy_angle; lra).
  unfold derivative_at, L.cauchy_deriv2.
  rewrite div_some by (apply pow_nonzero; lra).
  eexists. split; [reflexivity|].
  apply (D_local _ (fun t => PI / cos (PI * (t - / 2)) ^ 2) p
           Np.FLOAT_EPS (1 - Np.FLOAT_EPS)); [lra| |].
  - intros t Ht. rewrite cauchy_deriv_some by lra. reflexivity.
  - eapply D_eq; [derive; apply pow_nonzero; lra|].
    cbv beta. unfold Rsqr. simpl. field. lra.
Qed.

(** X11.  [deriv2] is the derivative of [deriv].  For every link whose
    [deriv2] is written in closed form (Logit, Power, Log, CLogLog, cauchy,
    the negative binomial link with a positive [alpha]) and every mean [p]
    strictly inside the range that the clipping leaves unchanged,
    [deriv2(p)] is finite and is the derivative at [p] of the function that
    [deriv] computes.  The numerical differentiation that [Link] and
    [CDFLink] fall back on is a parameter and plays no part. *)
Theorem deriv2_is_derivative
  (approx_fprime_cs approx_fprime_centered : (R -> option R) -> R -> option R)
  (l : L.instance) (p : R) :
  closed_form_deriv2 l ->
  open_range l p ->
  derivative_at (L.deriv l)
    (deriv2 approx_fprime_cs approx_fprime_centered l) p.
Proof.
  unfold closed_form_deriv2, open_range, transform_of, derivative_at, deriv2,
    L.deriv.
  destruct (L.class_of l);
    cbv [L.lookup L.mro L.mro_fuel L.base find defines_deriv2
         L.defines_transform];
    try contradiction; intros Hok Hp.
  - apply Logit_deriv2_derivative, Hp.
  - apply Logit_deriv2_derivative, Hp.
  - destruct Hok as (k & Hpow). rewrite Hpow. cbn [bind].
    apply Power_deriv2_derivative, Hp.
  - destruct Hok as (k & Hpow). rewrite Hpow. cbn [bind].
    apply Power_deriv2_derivative, Hp.
  - destruct Hok as (k & Hpow). rewrite Hpow. cbn [bind].
    apply Power_deriv2_derivative, Hp.
  - destruct Hok as (k & Hpow). rewrite Hpow. cbn [bind].
    apply Power_deriv2_derivative, Hp.
  - destruct Hok as (k & Hpow). rewrite Hpow. cbn [bind].
    apply Power_deriv2_derivative, Hp.
  - apply Log_deriv2_derivative, Hp.
  - apply Log_deriv2_derivative, Hp.
  - rewrite Hok. cbn [bind]. apply cauchy_deriv2_derivative, Hp.
  - apply CLogLog_deriv2_derivative, Hp.
  - apply CLogLog_deriv2_derivative, Hp.
  - destruct Hok as (a & Ha & Hpos). rewrite Ha. cbn [bind].
    pose proof eps_bounds.
    apply NegativeBinomial_deriv2_derivative; lra.
  - destruct Hok as (a & Ha & Hpos). rewrite Ha. cbn [bind].
    pose proof eps_bounds.
    apply NegativeBinomial_deriv2_derivative; lra.
Qed.

Lemma deriv2_is_derivative_witness :
  derivative_at (L.deriv (L.new scipy_stats_cauchy L.cauchy "0x7f18"))
    (deriv2 (fun _ _ => None) (fun _ _ => None)
       (L.new scipy_stats_cauchy L.cauchy "0x7f18")) (/ 4).
Proof.
  apply (deriv2_is_derivative (fun _ _ => None) (fun _ _ => None)
           (L.new scipy_stats_cauchy L.cauchy "0x7f18") (/ 4)).
  - reflexivity.
  - unfold open_range. simpl. pose proof eps_bounds. lra.
Defined.

Lemma Logit_inverse_deriv_derivative (z : R) :
  derivative_at L.Logit_inverse L.Logit_inverse_deriv z.
Proof.
  pose proof (exp_pos z) as He.
  unfold derivative_at, L.Logit_inverse_deriv.
  rewrite div_some by (apply pow_nonzero; lra).
  eexists. split; [reflexivity|].
  apply (derivable_pt_lim_ext (fun t => 1 / (1 + exp (- t)))).
  - intros t. destruct (Logit_inverse_some t) as (-> & _). reflexivity.
  - pose proof (exp_pos (- z)) as Hn.
    eapply D_eq; [derive; lra|]. cbv beta. unfold Rsqr.
    rewrite exp_Ropp in *. field. split; lra.
Qed.

Lemma Power_inverse_pos (k t : R) :
  k <> 0 -> 0 < t -> L.Power_inverse k t = Some (Rpower t (1 / k)).
Proof.
  intros Hk Ht. unfold L.Power_inverse. rewrite div_some by assumption.
  cbn [bind]. now apply power_pos.
Qed.

Lemma Power_inverse_deriv_derivative (k z : R) :
  k <> 0 -> 0 < z ->
  derivative_at (L.Power_inverse k) (L.Power_inverse_deriv k) z.
Proof.
  intros Hk Hz. unfold derivative_at, L.Power_inverse_deriv.
  rewrite div_some by assumption. cbn [bind].
  rewrite power_pos by assumption. cbn [bind].
  rewrite div_some by assumption.
  eexists. split; [reflexivity|].
  apply (D_local _ (fun t => Rpower t (1 / k)) z (z / 2) (z + 1)); [lra| |].
  - intros t Ht. rewrite Power_inverse_pos by lra. reflexivity.
  - eapply D_eq; [apply D_Rpower, Hz|].
    replace (1 / k - 1) with ((1 - k) / k) by (field; assumption).
    field. assumption.
Qed.

Lemma Log_inverse_deriv_derivative (z : R) :
  derivative_at L.Log_inverse L.Log_inverse_deriv z.
Proof.
  unfold derivative_at, L.Log_inverse_deriv, L.Log_inverse.
  eexists. split; [reflexivity|]. cbn [value]. apply derivable_pt_lim_exp.
Qed.

Lemma CLogLog_inverse_deriv_derivative (z : R) :
  derivative_at L.CLogLog_inverse L.CLogLog_inverse_deriv z.
Proof.
  unfold derivative_at, L.CLogLog_inverse_deriv, L.CLogLog_inverse.
  eexists. split; [reflexivity|]. cbn [value].
  eapply D_eq; [derive|]. cbv beta.
  unfold Rminus at 2. rewrite exp_plus. ring.
Qed.

Lemma NegativeBinomial_inverse_deriv_derivative (a z : R) :
  0 < a -> z < 0 ->
  derivative_at (L.NegativeBinomial_inverse a)
    (L.NegativeBinomial_inverse_deriv a) z.
Proof.
  intros Ha Hz.
  destruct (NegativeBinomial_inverse_some a z Ha Hz) as (_ & He).
  assert (Hd : 0 < a * (1 - exp z)) by (apply Rmult_lt_0_compat; lra).
  unfold derivative_at, L.NegativeBinomial_inverse_deriv.
  rewrite div_some.
  2:{ apply Rgt_not_eq. apply Rmult_lt_0_compat; [lra|]. apply pow_lt. lra. }
  eexists. split; [reflexivity|].
  apply (D_local _ (fun t => exp t / (a * (1 - exp t))) z (z - 1) (z / 2));
    [lra| |].
  - intros t Ht.
    destruct (NegativeBinomial_inverse_some a t Ha) as (-> & _); [lra|].
    reflexivity.
  - eapply D_eq; [derive; lra|]. cbv beta. unfold Rsqr. field. split; lra.
Qed.

Lemma cauchy_inverse_deriv_derivative (z : R) :
  Np.FLOAT_EPS < cdf scipy_stats_cauchy z < 1 - Np.FLOAT_EPS ->
  derivative_at (L.CDFLink_inverse scipy_stats_cauchy)
    (L.CDFLink_inverse_deriv scipy_stats_cauchy) z.
Proof.
  intros Hz. pose proof PI_RGT_0 as Hpi.
  assert (Hq : 0 < 1 + z ^ 2) by (pose proof (pow2_ge_0 z); lra).
  assert (Hpdf : 0 < pdf scipy_stats_cauchy z)
    by (apply (pdf_pos _ cauchy_ok)).
  unfold derivative_at, L.CDFLink_inverse_deriv, L.CDFLink_inverse,
    L.CDFLink_deriv.
  cbn [bind]. rewrite Logit_clean_id by lra.
  rewrite (ppf_cdf _ cauchy_ok).
  rewrite div_some by lra. cbn [bind].
  rewrite div_some.
  2:{ apply Rgt_not_eq. apply Rdiv_lt_0_compat; lra. }
  eexists. split; [reflexivity|]. cbn [value cdf scipy_stats_cauchy].
  eapply D_eq; [derive; lra|]. cbv beta.
  cbn [pdf scipy_stats_cauchy] in *. unfold Rsqr. field. split; lra.
Qed.

(** X12.  [inverse_deriv] is the derivative of [inverse].  For every link
    whose transform is in closed form and every linear predictor [z] of a
    bounded range on which no [exp] and no power overflows ([z] in
    [2^-64, 2^64] and an exponent in [1/8, 8] in absolute value for Power;
    [z] in [-300, -2^-10] and [alpha] in [2^-64, 2^64] for the negative
    binomial link; [|z| <= 300] for Logit, [|z| <= 700] for Log,
    [-700 <= z <= 6] for CLogLog; for the Cauchy link the [z] whose mean is
    in [2^-10, 1 - 2^-10]), [inverse_deriv(z)] is finite and is the
    derivative at [z] of the function that [inverse] computes. *)
Theorem inverse_deriv_is_derivative (l : L.instance) (z : R) :
  closed_form l ->
  open_predictor_range l z ->
  derivative_at (L.inverse l) (L.inverse_deriv l) z.
Proof.
  assert (H64 : 0 < / 2 ^ 64) by (apply Rinv_0_lt_compat; lra).
  unfold closed_form, open_predictor_range, transform_of, derivative_at,
    L.inverse, L.inverse_deriv.
  destruct (L.lookup L.defines_transform (L.class_of l)) as [[]|];
    try contradiction; intros Hok Hz; cbv beta iota.
  - apply Logit_inverse_deriv_derivative.
  - destruct Hok as (k & Hpow & Hk). rewrite Hpow. cbn [bind].
    apply Power_inverse_deriv_derivative; [assumption | lra].
  - apply Log_inverse_deriv_derivative.
  - destruct Hz as (d & Hd & Hz). rewrite Hok in *. cbn [bind].
    injection Hd as <-. apply cauchy_inverse_deriv_derivative.
    rewrite eps_value. lra.
  - apply CLogLog_inverse_deriv_derivative.
  - destruct Hok as (a & Ha & Hpos). rewrite Ha. cbn [bind].
    apply NegativeBinomial_inverse_deriv_derivative; [assumption | lra].
Qed.

Lemma inverse_deriv_is_derivative_witness :
  derivative_at (L.inverse (L.new scipy_stats_cauchy L.logit "0x7f19"))
    (L.inverse_deriv (L.new scipy_stats_cauchy L.logit "0x7f19")) 2.
Proof.
  apply (inverse_deriv_is_derivative
           (L.new scipy_stats_cauchy L.logit "0x7f19") 2); [exact I|].
  change (-300 <= 2 <= 300). lra.
Defined.

(** ** Starting values *)

Lemma map_Forall2_ex {A : Type} (f : A -> option R) (P : A -> R -> Prop)
  (l : list A) :
  Forall (fun o => exists r, f o = Some r /\ P o r) l ->
  exists rs, map f l = map Some rs /\ Forall2 P l rs.
Proof.
  induction 1 as [|o l (r & Hr & HP) _ (rs & Hrs & HF)]; simpl.
  - exists []. split; [reflexivity|constructor].
  - exists (r :: rs). simpl. rewrite Hr, Hrs. split; [reflexivity|].
    constructor; assumption.
Qed.

Lemma sum_pos (y : list R) :
  Forall (fun v => 0 <= v) y -> Exists (fun v => 0 < v) y ->
  0 < fold_right Rplus 0 y /\ (0 < List.length y)%nat.
Proof.
  intros Hall Hex.
  assert (Hge : forall l, Forall (fun v => 0 <= v) l ->
                          0 <= fold_right Rplus 0 l).
  { induction 1; simpl; lra. }
  induction Hex as [v y Hv|v y Hex IH]; inversion Hall; subst; simpl.
  - split; [|lia]. pose proof (Hge y H2). lra.
  - split; [|lia]. destruct (IH H2) as (Hs & _). lra.
Qed.

(** X13.  Starting values lie inside the mean range.  [Binomial.starting_mu]
    maps responses in [0, 1] to means in [1/4, 3/4]; the inherited
    [Family.starting_mu] maps responses that are not negative and not all
    zero to finite, strictly positive means, one per response (so a zero
    count never starts the iteration at the boundary mean 0). *)
Theorem starting_mu_interior (self : F.family) (y : list R) :
  starting_data self y ->
  exists ms,
    starting_mu self y = map Some ms /\
    Forall2 (fun v m =>
      0 < m /\ (F.kind_of self = F.Binomial -> / 4 <= m <= 3 / 4)) y ms.
Proof.
  unfold starting_data, starting_mu.
  assert (Hfam : Forall (fun v => 0 <= v) y /\ Exists (fun v => 0 < v) y ->
            F.kind_of self <> F.Binomial ->
            exists ms,
              Family_starting_mu y = map Some ms /\
              Forall2 (fun v m =>
                0 < m /\ (F.kind_of self = F.Binomial -> / 4 <= m <= 3 / 4))
                y ms).
  { intros (Hall & Hex) Hk. unfold Family_starting_mu, mean.
    destruct (sum_pos y Hall Hex) as (Hs & Hn).
    assert (Hlen : 0 < INR (List.length y)) by (apply lt_0_INR, Hn).
    rewrite div_some by lra.
    apply map_Forall2_ex. eapply Forall_pointwise; [|exact Hall].
    intros v Hv. cbn [bind]. eexists. split; [reflexivity|].
    split; [|intros; contradiction].
    assert (0 < fold_right Rplus 0 y / INR (List.length y))
      by (apply Rdiv_lt_0_compat; assumption).
    lra. }
  destruct (F.kind_of self) eqn:Hk; intros Hd;
    try (apply Hfam; [exact Hd|discriminate]).
  unfold Binomial_starting_mu. apply map_Forall2_ex.
  eapply Forall_pointwise; [|exact Hd].
  intros v Hv. eexists. split; [reflexivity|]. split; intros; lra.
Qed.

Lemma starting_mu_interior_witness :
  let self := F.mkFamily F.Poisson None V.mu None in
  exists ms,
    starting_mu self [0; 4] = map Some ms /\
    Forall2 (fun v m =>
      0 < m /\ (F.kind_of self = F.Binomial -> / 4 <= m <= 3 / 4)) [0; 4] ms.
Proof.
  intros self. apply (starting_mu_interior self [0; 4]).
  unfold starting_data. simpl. split.
  - repeat constructor; lra.
  - apply Exists_cons_tl. apply Exists_cons_hd. lra.
Defined.

(** ** Proportions returned by [Binomial.initialize] *)

(** X14.  For a two-column response (one row of successes and failures per
    observation), [initialize] returns one response per row and the row
    totals as weights.  The response of a row whose total is zero is not
    finite (0/0).  For any other row it is a finite number that, multiplied
    by the total, gives the successes back, and it is a proportion between 0
    and 1 when neither column is negative. *)
Theorem initialize_proportions (self : F.family) (rows : list (R * R))
  (w : list R) :
  exists ys,
    snd (F.initialize self (two_columns (map fst rows) (map snd rows)) w) =
      (F.A1 ys, map (fun r => fst r + snd r) rows) /\
    Forall2 (fun r y =>
      (fst r + snd r = 0 -> y = None) /\
      (fst r + snd r <> 0 ->
       exists v, y = Some v /\ v * (fst r + snd r) = fst r /\
                 (0 <= fst r -> 0 <= snd r -> 0 <= v <= 1))) rows ys.
Proof.
  rewrite initialize_two_columns. cbn [snd].
  rewrite !map2_columns. eexists. split; [reflexivity|].
  induction rows as [|[s f] rows IH]; simpl; constructor; [|exact IH].
  cbn [fst snd]. split.
  - intros H0. unfold Np.div. destruct (Req_dec_T (s + f) 0); congruence.
  - intros Hne. rewrite div_some by assumption. eexists.
    split; [reflexivity|]. split; [field; assumption|].
    intros Hs Hf. assert (0 < s + f) by lra.
    split.
    + apply Rmult_le_pos; [lra|]. apply Rlt_le, Rinv_0_lt_compat. lra.
    + apply Rmult_le_reg_r with (s + f); [lra|].
      replace (s * 1 / (s + f) * (s + f)) with s by (field; lra). lra.
Qed.

(** ** IRLS weights under the canonical link *)

Lemma Rpower_2 (x : R) : 0 < x -> Rpower x 2 = x ^ 2.
Proof.
  intros Hx. replace 2 with (INR 2) by (simpl; ring).
  now rewrite Rpower_pow.
Qed.

Lemma Rpower_m2 (x : R) : 0 < x -> Rpower x (-1 - 1) = / x ^ 2.
Proof.
  intros Hx. replace (-1 - 1) with (Ropp 2) by ring.
  rewrite Rpower_Ropp, Rpower_2 by assumption. reflexivity.
Qed.

(** X15.  Under the default link of its class (log for Poisson and
    QuasiPoisson, identity for Gaussian, inverse for Gamma, logit for
    Binomial) and at a mean that the clipping leaves unchanged, the IRLS
    weight [1 / (deriv(mu)^2 * variance(mu))] is the variance function of
    the family: [mu], 1, [mu^2] and [mu (1 - mu)]. *)
Theorem canonical_weights (norm : Dist) (k : F.kind) (a : string)
  (self : F.family) (mu : R) :
  F.init norm k (F.default_link k) a = F.Ok self ->
  canonical_domain k mu ->
  F.weights self mu = Some (canonical_weight k mu).
Proof.
  intros Hinit Hmu. pose proof eps_bounds as He.
  assert (Hk : k <> F.Family) by (intros ->; exact Hmu).
  destruct (init_accepts norm k _ a self Hk Hinit) as (_ & Hl & Hv).
  unfold F.weights. rewrite Hl, Hv. cbn [bind].
  destruct k; cbn [canonical_domain canonical_weight F.default_link] in *;
    try contradiction.
  - (* Poisson, log *)
    change (L.deriv (L.new norm L.log a) mu) with (L.Log_deriv mu).
    rewrite Log_deriv_some by lra. cbn [bind V.call V.mu].
    unfold Np.fabs. rewrite Rabs_pos_eq by lra. rewrite power_1.
    cbn [bind]. rewrite div_some.
    + f_equal. field. lra.
    + apply Rgt_not_eq. apply Rmult_lt_0_compat; [|lra].
      apply pow_lt. apply Rdiv_lt_0_compat; lra.
  - (* QuasiPoisson, log *)
    change (L.deriv (L.new norm L.log a) mu) with (L.Log_deriv mu).
    rewrite Log_deriv_some by lra. cbn [bind V.call V.mu].
    unfold Np.fabs. rewrite Rabs_pos_eq by lra. rewrite power_1.
    cbn [bind]. rewrite div_some.
    + f_equal. field. lra.
    + apply Rgt_not_eq. apply Rmult_lt_0_compat; [|lra].
      apply pow_lt. apply Rdiv_lt_0_compat; lra.
  - (* Gaussian, identity *)
    change (L.deriv (L.new norm L.identity a) mu) with (L.Power_deriv 1 mu).
    unfold L.Power_deriv. replace (1 - 1) with 0 by ring.
    rewrite power_0. cbn [bind V.call V.constant].
    rewrite div_some by lra. f_equal. field.
  - (* Gamma, inverse *)
    change (L.deriv (L.new norm L.inverse_power a) mu)
      with (L.Power_deriv (-1) mu).
    rewrite Power_deriv_pos by assumption. cbn [bind V.call V.mu_squared].
    unfold Np.fabs. rewrite Rabs_pos_eq by lra.
    rewrite power_pos by assumption. cbn [bind].
    rewrite Rpower_m2, Rpower_2 by assumption.
    assert (0 < mu ^ 2) by (apply pow_lt; assumption).
    rewrite div_some.
    + f_equal. field. lra.
    + apply Rgt_not_eq. apply Rmult_lt_0_compat; [|lra].
      replace ((-1 * / mu ^ 2) ^ 2) with ((/ mu ^ 2) ^ 2) by ring.
      apply pow_lt. apply Rinv_0_lt_compat. assumption.
  - (* Binomial, logit *)
    change (L.deriv (L.new norm L.logit a) mu) with (L.Logit_deriv mu).
    rewrite Logit_deriv_some, Logit_clean_id by assumption.
    cbn [bind]. rewrite Binomial_variance_one. cbn [bind].
    unfold binomial_variance_formula.
    replace (mu / 1) with mu by field.
    rewrite clip_id by assumption.
    assert (0 < mu * (1 - mu)) by (apply Rmult_lt_0_compat; lra).
    rewrite div_some.
    + f_equal. field. lra.
    + apply Rgt_not_eq. apply Rmult_lt_0_compat; [|lra].
      apply pow_lt. apply Rdiv_lt_0_compat; lra.
Qed.

Lemma canonical_weights_witness :
  exists self,
    F.init scipy_stats_cauchy F.Gamma (F.default_link F.Gamma) "0x7f1a"
      = F.Ok self /\
    F.weights self 3 = Some (canonical_weight F.Gamma 3).
Proof.
  eexists.
  assert (Hi : F.init scipy_stats_cauchy F.Gamma (F.default_link F.Gamma)
                 "0x7f1a" =
               F.Ok (F.mkFamily F.Gamma
                 (Some (F.Inst (L.new scipy_stats_cauchy L.inverse_power
                                  "0x7f1a")))
                 V.mu_squared None)) by reflexivity.
  split; [exact Hi|].
  apply (canonical_weights scipy_stats_cauchy F.Gamma "0x7f1a" _ 3 Hi).
  simpl. lra.
Defined.

(** ** Variance functions *)

(** X16.  Every variance function is finite and strictly positive on its
    domain: the constant one everywhere, a power [|mu|^k] at every mean but
    0, the binomial one for a positive number of trials at every mean (it
    clips the proportion), where it is at most [n / 4], and the negative
    binomial one for [alpha >= 0] at every mean (it clips the mean). *)
Theorem variance_positive (v : V.varfunc) (mu : R) :
  varfunc_domain v mu ->
  exists r,
    V.call v mu = Some r /\ 0 < r /\
    match v with
    | V.Binomial n => r <= n / 4
    | _ => True
    end.
Proof.
  pose proof eps_bounds as He.
  destruct v as [|k|n|a]; cbn [varfunc_domain V.call]; intros Hd.
  - exists 1. repeat split. lra.
  - unfold Np.fabs. rewrite power_pos by (apply Rabs_pos_lt, Hd).
    eexists. repeat split. apply Rpower_pos.
  - rewrite div_some by lra. cbn [bind]. unfold V.Binomial_clean.
    assert (Hc : Np.FLOAT_EPS <= Np.clip (mu / n) Np.FLOAT_EPS
                                   (1 - Np.FLOAT_EPS) <= 1 - Np.FLOAT_EPS)
      by (apply clip_bounds; lra).
    set (p := Np.clip (mu / n) Np.FLOAT_EPS (1 - Np.FLOAT_EPS)) in *.
    eexists. split; [reflexivity|]. split.
    + apply Rmult_lt_0_compat; [|lra]. apply Rmult_lt_0_compat; lra.
    + assert (p * (1 - p) <= / 4)
        by (pose proof (pow2_ge_0 (p - / 2)); nra).
      unfold Rdiv. rewrite (Rmult_comm n). apply Rmult_le_compat_r; lra.
  - unfold V.NegativeBinomial_clean.
    pose proof (clip_inf_bound mu Np.FLOAT_EPS) as Hc.
    set (p := Np.clip_inf mu Np.FLOAT_EPS) in *.
    eexists. split; [reflexivity|]. split; [|exact I].
    assert (0 <= a * p ^ 2).
    { apply Rmult_le_pos; [lra|]. apply pow2_ge_0. }
    lra.
Qed.

Lemma variance_positive_witness :
  exists r,
    V.call (V.Binomial 10) 3 = Some r /\ 0 < r /\ r <= 10 / 4.
Proof.
  apply (variance_positive (V.Binomial 10) 3). simpl. lra.
Defined.

(** X17.  [NegativeBinomial.deriv] of [varfuncs.py] is the derivative of the
    variance function: at every mean above the clipping bound [eps],
    [deriv(mu) = 1 + 2 alpha mu] is the derivative at [mu] of the function
    that [__call__] computes, [mu + alpha mu^2]. *)
Theorem NegativeBinomial_variance_deriv (a mu : R) :
  Np.FLOAT_EPS < mu ->
  derivative_at (V.call (V.NegativeBinomial a)) (V.NegativeBinomial_deriv a)
    mu.
Proof.
  intros Hmu. unfold derivative_at, V.NegativeBinomial_deriv,
    V.NegativeBinomial_clean.
  rewrite clip_inf_id by lra. eexists. split; [reflexivity|].
  apply (D_local _ (fun t => t + a * t ^ 2) mu Np.FLOAT_EPS (mu + 1));
    [lra| |].
  - intros t Ht. cbn [V.call value]. unfold V.NegativeBinomial_clean.
    rewrite clip_inf_id by lra. reflexivity.
  - eapply D_eq; [derive|]. cbv beta. simpl. ring.
Qed.

Lemma NegativeBinomial_variance_deriv_witness :
  derivative_at (V.call V.nbinom) (V.NegativeBinomial_deriv 1) 2.
Proof.
  apply (NegativeBinomial_variance_deriv 1 2).
  pose proof eps_bounds. lra.
Defined.

(** ** Anscombe residuals *)

Lemma power_mono (k y m : R) :
  0 < k -> 0 <= y -> 0 < m ->
  exists a b,
    Np.power y k = Some a /\ Np.power m k = Some b /\ 0 < b /\
    (y < m -> a < b) /\ (y = m -> a = b) /\ (m < y -> b < a).
Proof.
  intros Hk Hy Hm. rewrite (power_pos m k Hm).
  destruct (Rle_lt_or_eq_dec 0 y Hy) as [Hpos|<-].
  - rewrite (power_pos y k Hpos). do 2 eexists.
    split; [reflexivity|]. split; [reflexivity|].
    split; [apply Rpower_pos|].
    split; [|split].
    + intros Hlt. apply Rlt_Rpower_l; lra.
    + intros ->. reflexivity.
    + intros Hlt. apply Rlt_Rpower_l; lra.
  - unfold Np.power at 1.
    destruct (Req_dec_T k 0); [lra|].
    destruct (Rlt_dec 0 0); [lra|].
    destruct (Req_dec_T 0 0); [|lra].
    destruct (Rlt_dec 0 k); [|lra].
    do 2 eexists. split; [reflexivity|]. split; [reflexivity|].
    pose proof (Rpower_pos m k).
    split; [assumption|]. split; [|split]; intros; lra.
Qed.

Lemma signed_quotient (c s a b y m : R) :
  0 < c -> 0 < s ->
  (y < m -> a < b) -> (y = m -> a = b) -> (m < y -> b < a) ->
  0 <= c * (a - b) / s * (y - m) /\ (c * (a - b) / s = 0 <-> y = m).
Proof.
  intros Hc Hs Hlt Heq Hgt.
  assert (Hcs : 0 < c / s) by (apply Rdiv_lt_0_compat; assumption).
  replace (c * (a - b) / s) with (c / s * (a - b)) by (field; lra).
  set (q := c / s) in *.
  destruct (Rtotal_order y m) as [H|[H|H]].
  - specialize (Hlt H).
    assert (0 < q * (b - a)) by (apply Rmult_lt_0_compat; lra).
    split; [|split; [intros Hz|lra]].
    2:{ replace (q * (a - b)) with (- (q * (b - a))) in Hz by ring. lra. }
    replace (q * (a - b) * (y - m)) with (q * (b - a) * (m - y)) by ring.
    apply Rmult_le_pos; lra.
  - specialize (Heq H). subst. replace (b - b) with 0 by ring.
    replace (m - m) with 0 by ring. rewrite !Rmult_0_r.
    split; [lra|]. split; reflexivity.
  - specialize (Hgt H).
    assert (0 < q * (a - b)) by (apply Rmult_lt_0_compat; lra).
    split; [|split; lra].
    apply Rmult_le_pos; lra.
Qed.

(** X18.  Anscombe residuals carry the sign of [y - mu].  For responses that
    are not negative and positive means, the Anscombe residuals of the
    Poisson (and QuasiPoisson), Gamma and Gaussian families are finite, have
    the sign of [y - mu], and vanish exactly where the response equals the
    mean. *)
Theorem anscombe_signed (data : list observation) :
  Forall (fun o => 0 <= obs_y o /\ 0 < obs_mu o) data ->
  exists rp rg rn,
    Poisson_resid_anscombe (map obs_y data) (map obs_mu data) = map Some rp /\
    Gamma_resid_anscombe (map obs_y data) (map obs_mu data) = map Some rg /\
    Gaussian_resid_anscombe (map obs_y data) (map obs_mu data)
      = map Some rn /\
    Forall2 signed_residual data rp /\
    Forall2 signed_residual data rg /\
    Forall2 signed_residual data rn.
Proof.
  intros Hd.
  unfold Poisson_resid_anscombe, Gamma_resid_anscombe,
    Gaussian_resid_anscombe.
  rewrite !map2_columns.
  match goal with |- context [map ?f data = map Some _ /\ _] =>
    destruct (map_Forall2_ex f signed_residual data) as (rp & Hrp & Hsp) end.
  { eapply Forall_pointwise; [|exact Hd]. intros o (Hy & Hm).
    destruct (power_mono (2 / 3) _ _ ltac:(lra) Hy Hm)
      as (a & b & -> & -> & Hb & H1 & H2 & H3).
    rewrite (power_pos _ (1 / 6) Hm). cbn [bind].
    pose proof (Rpower_pos (obs_mu o) (1 / 6)) as Hc.
    rewrite div_some by lra. eexists. split; [reflexivity|].
    apply signed_quotient; try assumption. lra. }
  match goal with |- context [_ /\ map ?f data = map Some _ /\ _] =>
    destruct (map_Forall2_ex f signed_residual data) as (rg & Hrg & Hsg) end.
  { eapply Forall_pointwise; [|exact Hd]. intros o (Hy & Hm).
    destruct (power_mono (1 / 3) _ _ ltac:(lra) Hy Hm)
      as (a & b & -> & -> & Hb & H1 & H2 & H3).
    cbn [bind]. rewrite div_some by lra. eexists. split; [reflexivity|].
    apply signed_quotient; try assumption. lra. }
  match goal with |- context [_ /\ _ /\ map ?f data = map Some _ /\ _] =>
    destruct (map_Forall2_ex f signed_residual data) as (rn & Hrn & Hsn) end.
  { apply Forall_forall. intros o _. eexists. split; [reflexivity|].
    unfold signed_residual. split; [apply Rle_0_sqr|]. split; lra. }
  exists rp, rg, rn. auto 10.
Qed.

Lemma anscombe_signed_witness :
  let data := [mkObs 0 2 1 1; mkObs 3 3 1 1] in
  exists rp rg rn,
    Poisson_resid_anscombe (map obs_y data) (map obs_mu data) = map Some rp /\
    Gamma_resid_anscombe (map obs_y data) (map obs_mu data) = map Some rg /\
    Gaussian_resid_anscombe (map obs_y data) (map obs_mu data)
      = map Some rn /\
    Forall2 signed_residual data rp /\
    Forall2 signed_residual data rg /\
    Forall2 signed_residual data rn.
Proof.
  intros data. apply (anscombe_signed data).
  unfold data. repeat constructor; simpl; lra.
Defined.

(** ** Monotone transforms *)

Lemma Logit_clean_mono (p q : R) :
  p <= q -> L.Logit_clean p <= L.Logit_clean q.
Proof.
  intros H. unfold L.Logit_clean, Np.clip, Rmin, Rmax.
  repeat destruct (Rle_dec _ _); lra.
Qed.

Lemma clip_inf_mono (p q lo : R) :
  p <= q -> Np.clip_inf p lo <= Np.clip_inf q lo.
Proof.
  intros H. unfold Np.clip_inf, Rmax. repeat destruct (Rle_dec _ _); lra.
Qed.

(** A transform that clips with [clean] and then applies a function [g]
    that increases strictly on the clipping range. *)
Lemma clipped_monotone (call : R -> option R) (clean g : R -> R)
  (range : R -> Prop) (p q : R) :
  (forall x, call x = Some (g (clean x))) ->
  (forall x, range (clean x)) ->
  (forall x y, x <= y -> clean x <= clean y) ->
  (forall c1 c2, range c1 -> range c2 -> c1 < c2 -> g c1 < g c2) ->
  p <= q ->
  exists zp zq,
    call p = Some zp /\ call q = Some zq /\ zp <= zq /\
    (clean p = p -> clean q = q -> p < q -> zp < zq).
Proof.
  intros Hcall Hr Hm Hg Hpq. rewrite !Hcall. do 2 eexists.
  split; [reflexivity|]. split; [reflexivity|]. split.
  - destruct (Hm p q Hpq) as [Hlt|Heq].
    + left. apply Hg; auto.
    + right. now rewrite Heq.
  - intros Hp Hq Hlt. apply Hg; auto. rewrite Hp, Hq. exact Hlt.
Qed.

Lemma odds_increasing (c1 c2 : R) :
  0 < c1 -> c2 < 1 -> c1 < c2 -> c1 / (1 - c1) < c2 / (1 - c2).
Proof.
  intros H1 H2 Hlt.
  replace (c1 / (1 - c1)) with (/ (1 - c1) - 1) by (field; lra).
  replace (c2 / (1 - c2)) with (/ (1 - c2) - 1) by (field; lra).
  apply Rplus_lt_compat_r. apply Rinv_0_lt_contravar; lra.
Qed.

Lemma NegativeBinomial_call_clean (a x : R) :
  0 < a ->
  L.NegativeBinomial_call a x =
    Some (ln (L.NegativeBinomial_clean x /
              (L.NegativeBinomial_clean x + 1 / a))).
Proof.
  intros Ha. pose proof eps_bounds as He.
  pose proof (clip_inf_bound x Np.FLOAT_EPS) as Hc.
  assert (Hia : 0 < 1 / a) by (apply Rdiv_lt_0_compat; lra).
  unfold L.NegativeBinomial_call. fold (L.NegativeBinomial_clean x) in Hc.
  rewrite div_some by lra. cbn [bind].
  rewrite div_some by lra. cbn [bind].
  apply log_some. apply Rdiv_lt_0_compat; lra.
Qed.

(** X19.  The clipping transforms are monotone.  For the Logit, Log,
    CLogLog, Cauchy and negative binomial links ([alpha > 0]), [__call__] is
    finite at every real mean and never decreases when the mean grows; it
    increases strictly between two means that the clipping leaves
    unchanged. *)
Theorem link_monotone (l : L.instance) (p q : R) :
  increasing_link l ->
  p <= q ->
  exists zp zq,
    L.call l p = Some zp /\ L.call l q = Some zq /\ zp <= zq /\
    (clipped_range l p -> clipped_range l q -> p < q -> zp < zq).
Proof.
  pose proof eps_bounds as He.
  unfold increasing_link, clipped_range, transform_of, L.call.
  destruct (L.lookup L.defines_transform (L.class_of l)) as [[]|];
    try contradiction; intros Hok Hpq.
  - (* Logit *)
    destruct (clipped_monotone L.Logit_call L.Logit_clean
                (fun c => ln (c / (1 - c)))
                (fun c => Np.FLOAT_EPS <= c <= 1 - Np.FLOAT_EPS) p q)
      as (zp & zq & H1 & H2 & H3 & H4); try assumption.
    + apply Logit_call_some.
    + apply Logit_clean_bounds.
    + apply Logit_clean_mono.
    + intros c1 c2 Hc1 Hc2 Hlt. apply ln_increasing.
      * apply Rdiv_lt_0_compat; lra.
      * apply odds_increasing; lra.
    + exists zp, zq. repeat split; try assumption.
      intros Hp Hq. apply H4; apply Logit_clean_id; assumption.
  - (* Log *)
    destruct (clipped_monotone L.Log_call L.Log_clean ln
                (fun c => Np.FLOAT_EPS <= c) p q)
      as (zp & zq & H1 & H2 & H3 & H4); try assumption.
    + intros x. unfold L.Log_call. apply log_some.
      pose proof (clip_inf_bound x Np.FLOAT_EPS). unfold L.Log_clean. lra.
    + intros x. apply clip_inf_bound.
    + intros x y. apply clip_inf_mono.
    + intros c1 c2 Hc1 Hc2 Hlt. apply ln_increasing; lra.
    + exists zp, zq. repeat split; try assumption.
      intros Hp Hq. apply H4; apply clip_inf_id; assumption.
  - (* Cauchy *)
    rewrite Hok. cbn [bind].
    destruct (clipped_monotone (L.CDFLink_call scipy_stats_cauchy)
                L.Logit_clean (fun c => tan (PI * (c - / 2)))
                (fun c => Np.FLOAT_EPS <= c <= 1 - Np.FLOAT_EPS) p q)
      as (zp & zq & H1 & H2 & H3 & H4); try assumption.
    + intros x. reflexivity.
    + apply Logit_clean_bounds.
    + apply Logit_clean_mono.
    + intros c1 c2 Hc1 Hc2 Hlt. pose proof PI_RGT_0 as Hpi.
      apply tan_increasing; nra.
    + exists zp, zq. repeat split; try assumption.
      intros Hp Hq. apply H4; apply Logit_clean_id; assumption.
  - (* CLogLog *)
    destruct (clipped_monotone L.CLogLog_call L.Logit_clean
                (fun c => ln (- ln (1 - c)))
                (fun c => Np.FLOAT_EPS <= c <= 1 - Np.FLOAT_EPS) p q)
      as (zp & zq & H1 & H2 & H3 & H4); try assumption.
    + intros x. apply CLogLog_call_some.
    + apply Logit_clean_bounds.
    + apply Logit_clean_mono.
    + intros c1 c2 Hc1 Hc2 Hlt.
      assert (ln (1 - c2) < ln (1 - c1)) by (apply ln_increasing; lra).
      assert (ln (1 - c1) < 0) by (apply ln_neg; lra).
      apply ln_increasing; lra.
    + exists zp, zq. repeat split; try assumption.
      intros Hp Hq. apply H4; apply Logit_clean_id; assumption.
  - (* NegativeBinomial *)
    destruct Hok as (a & Ha & Hpos). rewrite Ha. cbn [bind].
    assert (Hia : 0 < 1 / a) by (apply Rdiv_lt_0_compat; lra).
    destruct (clipped_monotone (L.NegativeBinomial_call a)
                L.NegativeBinomial_clean (fun c => ln (c / (c + 1 / a)))
                (fun c => Np.FLOAT_EPS <= c) p q)
      as (zp & zq & H1 & H2 & H3 & H4); try assumption.
    + intros x. apply NegativeBinomial_call_clean, Hpos.
    + intros x. apply clip_inf_bound.
    + intros x y. apply clip_inf_mono.
    + intros c1 c2 Hc1 Hc2 Hlt.
      apply ln_increasing; [apply Rdiv_lt_0_compat; lra|].
      assert (0 < c1 * a) by (apply Rmult_lt_0_compat; lra).
      assert (0 < c2 * a) by (apply Rmult_lt_0_compat; lra).
      replace (c1 / (c1 + 1 / a)) with (1 - 1 / a * / (c1 + 1 / a))
        by (field; repeat split; lra).
      replace (c2 / (c2 + 1 / a)) with (1 - 1 / a * / (c2 + 1 / a))
        by (field; repeat split; lra).
      assert (/ (c2 + 1 / a) < / (c1 + 1 / a))
        by (apply Rinv_0_lt_contravar; lra).
      assert (1 / a * / (c2 + 1 / a) < 1 / a * / (c1 + 1 / a))
        by (apply Rmult_lt_compat_l; assumption).
      lra.
    + exists zp, zq. repeat split; try assumption.
      intros Hp Hq. apply H4; apply clip_inf_id; assumption.
Qed.

Lemma link_monotone_witness :
  let l := L.new scipy_stats_cauchy L.cloglog "0x7f1b" in
  exists zp zq,
    L.call l (/ 4) = Some zp /\ L.call l (/ 2) = Some zq /\ zp <= zq /\
    (clipped_range l (/ 4) -> clipped_range l (/ 2) -> / 4 < / 2 -> zp < zq).
Proof.
  intros l. apply (link_monotone l (/ 4) (/ 2)).
  - exact I.
  - lra.
Defined.

(** ** [Logit.deriv2] does not clip *)

(** X20.  [Logit.deriv2] is the one method of [Logit] that does not clip its
    argument: it is finite exactly at the means other than 0 and 1 (where
    [__call__] and [deriv] are finite), and at a mean strictly between 0 and
    [eps], where the clipped [deriv] is constant and so has derivative 0,
    [deriv2] returns a negative number. *)
Theorem Logit_deriv2_unclipped (p : R) :
  (L.Logit_deriv2 p = None <-> p = 0 \/ p = 1) /\
  (0 < p < Np.FLOAT_EPS ->
   derivable_pt_lim (fun t => value (L.Logit_deriv t)) p 0 /\
   exists d, L.Logit_deriv2 p = Some d /\ d < 0).
Proof.
  pose proof eps_bounds as He. split.
  - unfold L.Logit_deriv2, Np.div.
    destruct (Req_dec_T ((p * (1 - p)) ^ 2) 0) as [H0|Hne].
    + split; [intros _|reflexivity].
      destruct (Req_dec (p * (1 - p)) 0) as [Hz|Hnz].
      * apply Rmult_integral in Hz. destruct Hz; [left|right]; lra.
      * exfalso. exact (pow_nonzero _ 2 Hnz H0).
    + split; [discriminate|]. intros [-> | ->]; exfalso; apply Hne; ring.
  - intros Hp. split.
    + apply (D_local _ (fun _ => 1 / (Np.FLOAT_EPS * (1 - Np.FLOAT_EPS))) p 0
               Np.FLOAT_EPS); [lra| |apply D_const].
      intros t Ht. rewrite Logit_deriv_some.
      unfold L.Logit_clean. rewrite clip_low by lra. reflexivity.
    + unfold L.Logit_deriv2.
      assert (Hv : 0 < p * (1 - p)) by (apply Rmult_lt_0_compat; lra).
      assert (Hv2 : 0 < (p * (1 - p)) ^ 2) by (apply pow_lt, Hv).
      rewrite div_some by lra. eexists. split; [reflexivity|].
      unfold Rdiv.
      replace ((2 * p - 1) * / (p * (1 - p)) ^ 2)
        with (- ((1 - 2 * p) * / (p * (1 - p)) ^ 2)) by ring.
      apply Ropp_lt_gt_0_contravar. apply Rmult_gt_0_compat; [lra|].
      apply Rinv_0_lt_compat, Hv2.
Qed.

(** ** [predict] after [fitted] *)

Lemma logit_le (c1 c2 : R) :
  0 < c1 -> c2 < 1 -> c1 <= c2 ->
  ln (c1 / (1 - c1)) <= ln (c2 / (1 - c2)).
Proof.
  intros H1 H2 [Hlt | ->]; [|lra].
  left. apply ln_increasing; [apply Rdiv_lt_0_compat; lra|].
  apply odds_increasing; assumption.
Qed.

Lemma Logit_saturates (z : R) :
  exists m, L.Logit_inverse z = Some m /\
            L.Logit_call m = Some (saturated L.logit z).
Proof.
  pose proof eps_bounds as He.
  destruct (Logit_inverse_some z) as (Hinv & Hr).
  pose proof (logit_expit z) as Hz.
  set (m := 1 / (1 + exp (- z))) in *.
  exists m. split; [exact Hinv|].
  rewrite Logit_call_some. f_equal. unfold saturated.
  assert (Hlohi : ln (Np.FLOAT_EPS / (1 - Np.FLOAT_EPS)) <=
                  ln ((1 - Np.FLOAT_EPS) / Np.FLOAT_EPS)).
  { replace ((1 - Np.FLOAT_EPS) / Np.FLOAT_EPS)
      with ((1 - Np.FLOAT_EPS) / (1 - (1 - Np.FLOAT_EPS)))
      by (f_equal; ring).
    apply logit_le; lra. }
  destruct (Rle_lt_dec m Np.FLOAT_EPS) as [Hlow|Hlow].
  - unfold L.Logit_clean. rewrite clip_low by lra.
    rewrite clip_low; [reflexivity|exact Hlohi|].
    rewrite <- Hz. apply logit_le; lra.
  - destruct (Rle_lt_dec (1 - Np.FLOAT_EPS) m) as [Hhigh|Hhigh].
    + unfold L.Logit_clean. rewrite clip_high by lra.
      replace (1 - (1 - Np.FLOAT_EPS)) with Np.FLOAT_EPS by ring.
      rewrite clip_high; [reflexivity|exact Hlohi|].
      rewrite <- Hz.
      replace ((1 - Np.FLOAT_EPS) / Np.FLOAT_EPS)
        with ((1 - Np.FLOAT_EPS) / (1 - (1 - Np.FLOAT_EPS)))
        by (f_equal; ring).
      apply logit_le; lra.
    + rewrite Logit_clean_id by lra. rewrite Hz.
      rewrite clip_id; [reflexivity|]. rewrite <- Hz. split.
      * apply logit_le; lra.
      * replace ((1 - Np.FLOAT_EPS) / Np.FLOAT_EPS)
          with ((1 - Np.FLOAT_EPS) / (1 - (1 - Np.FLOAT_EPS)))
          by (f_equal; ring).
        apply logit_le; lra.
Qed.

Lemma Log_saturates (z : R) :
  L.Log_call (exp z) = Some (saturated L.log z).
Proof.
  pose proof eps_bounds as He. pose proof (exp_pos z) as Hz.
  unfold L.Log_call, L.Log_clean, saturated.
  pose proof (clip_inf_bound (exp z) Np.FLOAT_EPS).
  rewrite log_some by lra. f_equal.
  destruct (Rle_lt_dec Np.FLOAT_EPS (exp z)) as [Hge|Hlt].
  - rewrite clip_inf_id by assumption. rewrite ln_exp.
    rewrite clip_inf_id; [reflexivity|].
    rewrite <- (ln_exp z). destruct Hge as [Hlt| ->]; [|lra].
    left. apply ln_increasing; lra.
  - rewrite clip_inf_low by lra.
    rewrite clip_inf_low; [reflexivity|].
    rewrite <- (ln_exp z) at 1. left. apply ln_increasing; lra.
Qed.

(** X21.  [predict] after [fitted] saturates.  For a family built with the
    log link and a linear predictor [z <= 700] (beyond, [exp] overflows), or
    with the logit link and [z <= 6] or [z >= 40] (in between, the fitted
    mean is so close to 1 that [1 - mean] loses its digits), [fitted(z)] is
    finite and [predict(fitted(z))] is [z] clipped to the transforms of the
    clipping bounds of the mean: [max(z, ln eps)] under the log link,
    [clip(z, ln(eps / (1 - eps)), ln((1 - eps) / eps))] under the logit
    link. *)
Theorem predict_fitted_saturates (norm : Dist) (k : F.kind) (c : L.cls)
  (a : string) (self : F.family) (z : R) :
  F.init norm k c a = F.Ok self ->
  conditioned_predictor c z ->
  exists m,
    F.fitted self z = Some m /\ F.predict self m = Some (saturated c z).
Proof.
  intros Hinit Hc.
  destruct (init_link _ _ _ _ _ Hinit) as (_ & Hl).
  unfold F.fitted, F.predict. rewrite Hl. cbn [bind].
  destruct c; try contradiction.
  - apply Logit_saturates.
  - change (L.inverse (L.new norm L.log a) z) with (L.Log_inverse z).
    exists (exp z). split; [reflexivity|]. apply Log_saturates.
Qed.

Lemma predict_fitted_saturates_witness :
  exists self m,
    F.init scipy_stats_cauchy F.Poisson L.log "0x7f1c" = F.Ok self /\
    F.fitted self (-100) = Some m /\
    F.predict self m = Some (saturated L.log (-100)).
Proof.
  eexists.
  assert (Hi : F.init scipy_stats_cauchy F.Poisson L.log "0x7f1c" =
               F.Ok (F.mkFamily F.Poisson
                 (Some (F.Inst (L.new scipy_stats_cauchy L.log "0x7f1c")))
                 V.mu None)) by reflexivity.
  assert (Hz : conditioned_predictor L.log (-100)) by (simpl; lra).
  destruct (predict_fitted_saturates scipy_stats_cauchy F.Poisson L.log
              "0x7f1c" _ (-100) Hi Hz) as (m & Hm).
  exists m. split; [exact Hi | exact Hm].
Defined.

(** ** Log-likelihood ratios *)

Lemma ratio_clean (y m : R) :
  0 < y -> 0 < m -> Np.FLOAT_EPS * m <= y ->
  Np.clip_inf (y / m) Np.FLOAT_EPS = y / m /\
  0 < y / m /\ ln (y / m) = ln y - ln m.
Proof.
  intros Hy Hm Hr. split; [|split].
  - apply clip_inf_id. apply Rmult_le_reg_r with m; [assumption|].
    replace (y / m * m) with y by (field; lra). assumption.
  - apply Rdiv_lt_0_compat; assumption.
  - unfold Rdiv. rewrite ln_mult, ln_Rinv; try assumption; [lra|].
    apply Rinv_0_lt_compat. assumption.
Qed.

(** X22.  The Poisson log-likelihood ratio.  For positive responses and
    means whose ratio the clipping leaves unchanged, each response equal to
    the mean or away from it by [2^-10] of the mean, [Poisson.loglike] is
    finite at the fitted means and at the perfect fit, and twice the
    difference between the two is [scale] times the weighted sum of the
    squared deviance residuals (at scale 1); the terms [gammaln(y + 1)]
    cancel. *)
Theorem Poisson_likelihood_ratio (gammaln : R -> option R)
  (data : list observation) (scale : R) :
  Forall (likelihood_obs gammaln) data ->
  exists sat ll s,
    Poisson_loglike gammaln (map obs_y data) (map obs_y data)
      (map obs_w data) scale = Some sat /\
    Poisson_loglike gammaln (map obs_y data) (map obs_mu data)
      (map obs_w data) scale = Some ll /\
    weighted_sum_sq (map obs_w data)
      (F.Poisson_resid_dev (map obs_y data) (map obs_mu data) 1) = Some s /\
    2 * (sat - ll) = scale * s.
Proof.
  intros Hd.
  set (G := fun o => value (gammaln (obs_y o + 1))).
  set (T1 := fun o => obs_w o * (obs_y o * ln (obs_y o) - obs_y o - G o)).
  set (T2 := fun o => obs_w o * (obs_y o * ln (obs_mu o) - obs_mu o - G o)).
  set (T3 := fun o => obs_w o *
    (2 * (obs_y o * (ln (obs_y o) - ln (obs_mu o)) - (obs_y o - obs_mu o)))).
  exists (scale * rsum T1 data), (scale * rsum T2 data), (rsum T3 data).
  split; [|split; [|split]].
  - unfold Poisson_loglike. rewrite map3_columns.
    rewrite (sum_columns _ T1); [reflexivity|].
    eapply Forall_pointwise; [|exact Hd]. intros o (Hy & Hm & Hr & _ & Hg).
    cbn beta. rewrite log_some by assumption. cbn [bind].
    unfold T1, G. destruct (gammaln (obs_y o + 1)); [reflexivity|congruence].
  - unfold Poisson_loglike. rewrite map3_columns.
    rewrite (sum_columns _ T2); [reflexivity|].
    eapply Forall_pointwise; [|exact Hd]. intros o (Hy & Hm & Hr & _ & Hg).
    cbn beta. rewrite log_some by assumption. cbn [bind].
    unfold T2, G. destruct (gammaln (obs_y o + 1)); [reflexivity|congruence].
  - unfold F.Poisson_resid_dev. rewrite map2_columns, weighted_sum_sq_columns.
    apply sum_columns.
    eapply Forall_pointwise; [|exact Hd]. intros o (Hy & Hm & Hr & _ & Hg).
    cbn beta.
    destruct (Poisson_obs (obs_y o) (obs_mu o)) as (Hc & Ha & H0);
      [lra|assumption|].
    destruct (ratio_clean _ _ Hy Hm Hr) as (Hid & Hq & Hln).
    unfold F.Poisson_clean in *. rewrite Hid, Hln in *.
    rewrite div_some by lra. cbn [bind]. rewrite Hid.
    rewrite log_some by exact Hq. cbn [bind]. rewrite Hln.
    rewrite sqrt_some by exact Ha. cbn [bind].
    rewrite div_some by lra. cbn [bind]. unfold T3. f_equal. f_equal.
    apply sign_sqrt_sq; assumption.
  - rewrite (rsum_lin2 2 (-2) T3 T1 T2).
    + ring.
    + intros o. unfold T1, T2, T3. ring.
Qed.

Lemma Poisson_likelihood_ratio_witness :
  let data := [mkObs 1 2 1 1; mkObs 3 2 1 1] in
  exists sat ll s,
    Poisson_loglike (fun _ => Some 0) (map obs_y data) (map obs_y data)
      (map obs_w data) 1 = Some sat /\
    Poisson_loglike (fun _ => Some 0) (map obs_y data) (map obs_mu data)
      (map obs_w data) 1 = Some ll /\
    weighted_sum_sq (map obs_w data)
      (F.Poisson_resid_dev (map obs_y data) (map obs_mu data) 1) = Some s /\
    2 * (sat - ll) = 1 * s.
Proof.
  intros data. apply (Poisson_likelihood_ratio (fun _ => Some 0) data 1).
  pose proof eps_bounds.
  unfold data, likelihood_obs.
  constructor; [|constructor; [|constructor]]; cbn [obs_y obs_mu];
    (split; [lra|]; split; [lra|]; split; [lra|];
     split; [|discriminate]; right).
  - replace (1 - 2) with (- (1)) by lra.
    rewrite Rabs_Ropp, Rabs_pos_eq by lra. lra.
  - rewrite Rabs_pos_eq by lra. lra.
Defined.

(** X23.  The Gamma deviance is a log-likelihood ratio.  For positive
    responses and means whose ratio the clipping leaves unchanged, a
    positive scale and a finite [gammaln(1 / scale)], [Gamma.loglike] is
    finite at the fitted means and at the perfect fit, and [Gamma.deviance]
    is [2 scale] times the difference between the two. *)
Theorem Gamma_likelihood_ratio (gammaln : R -> option R)
  (data : list observation) (scale : R) :
  Forall (fun o => 0 < obs_y o /\ 0 < obs_mu o /\
                   Np.FLOAT_EPS * obs_mu o <= obs_y o) data ->
  0 < scale ->
  gammaln (1 / scale) <> None ->
  exists sat ll d,
    Gamma_loglike gammaln (map obs_y data) (map obs_y data)
      (map obs_w data) scale = Some sat /\
    Gamma_loglike gammaln (map obs_y data) (map obs_mu data)
      (map obs_w data) scale = Some ll /\
    F.Gamma_deviance (map obs_y data) (map obs_mu data) (map obs_w data)
      scale = Some d /\
    d = 2 * scale * (sat - ll).
Proof.
  intros Hd Hs Hg.
  destruct (gammaln (1 / scale)) as [g|] eqn:Hgs; [clear Hg|congruence].
  set (C := fun o => (scale - 1) * ln (obs_y o) + ln scale + scale * g).
  set (T1 := fun o => (1 + ln (obs_y o) + C o) * obs_w o).
  set (T2 := fun o =>
    (obs_y o / obs_mu o + ln (obs_mu o) + C o) * obs_w o).
  set (T3 := fun o => obs_w o *
    (obs_y o / obs_mu o - 1 - (ln (obs_y o) - ln (obs_mu o)))).
  exists (-1 / scale * rsum T1 data), (-1 / scale * rsum T2 data),
         (2 * rsum T3 data).
  split; [|split; [|split]].
  - unfold Gamma_loglike. rewrite div_some by lra. cbn [bind].
    rewrite map3_columns.
    rewrite (sum_columns _ T1); [reflexivity|].
    eapply Forall_pointwise; [|exact Hd]. intros o (Hy & Hm & Hr).
    cbn beta. rewrite !div_some by lra. cbn [bind].
    rewrite !log_some by assumption. cbn [bind]. rewrite Hgs. cbn [bind].
    unfold T1, C. f_equal. field. lra.
  - unfold Gamma_loglike. rewrite div_some by lra. cbn [bind].
    rewrite map3_columns.
    rewrite (sum_columns _ T2); [reflexivity|].
    eapply Forall_pointwise; [|exact Hd]. intros o (Hy & Hm & Hr).
    cbn beta. rewrite !div_some by lra. cbn [bind].
    rewrite !log_some by assumption. cbn [bind]. rewrite Hgs. cbn [bind].
    unfold T2, C. f_equal. ring.
  - unfold F.Gamma_deviance. rewrite map3_columns.
    rewrite (sum_columns _ T3); [reflexivity|].
    eapply Forall_pointwise; [|exact Hd]. intros o (Hy & Hm & Hr).
    cbn beta.
    destruct (ratio_clean _ _ Hy Hm Hr) as (Hid & Hq & Hln).
    rewrite !div_some by lra. cbn [bind].
    unfold F.Gamma_clean. rewrite Hid.
    rewrite log_some by exact Hq. cbn [bind]. rewrite Hln.
    unfold T3. f_equal. field. lra.
  - assert (Hlin : rsum T3 data = rsum T2 data + -1 * rsum T1 data).
    { rewrite (rsum_lin2 1 (-1) T3 T2 T1); [ring|].
      intros o. unfold T1, T2, T3. ring. }
    rewrite Hlin. field. lra.
Qed.

Lemma Gamma_likelihood_ratio_witness :
  let data := [mkObs 1 2 1 1; mkObs 3 2 1 1] in
  exists sat ll d,
    Gamma_loglike (fun _ => Some 0) (map obs_y data) (map obs_y data)
      (map obs_w data) 2 = Some sat /\
    Gamma_loglike (fun _ => Some 0) (map obs_y data) (map obs_mu data)
      (map obs_w data) 2 = Some ll /\
    F.Gamma_deviance (map obs_y data) (map obs_mu data) (map obs_w data)
      2 = Some d /\
    d = 2 * 2 * (sat - ll).
Proof.
  intros data. apply (Gamma_likelihood_ratio (fun _ => Some 0) data 2).
  - pose proof eps_bounds.
    unfold data. repeat constructor; simpl; lra.
  - lra.
  - discriminate.
Defined.

(** ** Frequency weights *)

Lemma map3_ext {A B C D : Type} (f g : A -> B -> C -> D)
  (a : list A) (b : list B) (c : list C) :
  (forall x y z, f x y z = g x y z) -> Np.map3 f a b c = Np.map3 g a b c.
Proof.
  intros H. revert b c.
  induction a as [|x a IH]; intros [|y b] [|z c]; simpl; try reflexivity.
  now rewrite H, IH.
Qed.

Lemma sum_app (a b : list (option R)) :
  Np.sum (a ++ b) = (s1 <- Np.sum a ;; s2 <- Np.sum b ;; Some (s1 + s2)).
Proof.
  induction a as [|x a IH]; simpl.
  - destruct (Np.sum b); cbn [bind]; [f_equal; ring|reflexivity].
  - destruct x as [v|]; cbn [bind]; [|reflexivity].
    rewrite IH. destruct (Np.sum a); cbn [bind]; [|reflexivity].
    destruct (Np.sum b); cbn [bind]; [f_equal; ring|reflexivity].
Qed.

Lemma map3_app {A B C D : Type} (f : A -> B -> C -> D)
  (a a' : list A) (b b' : list B) (c c' : list C) :
  List.length b = List.length a -> List.length c = List.length a ->
  Np.map3 f (a ++ a') (b ++ b') (c ++ c') =
  Np.map3 f a b c ++ Np.map3 f a' b' c'.
Proof.
  revert b c. induction a as [|x a IH]; intros [|y b] [|z c] Hb Hc;
    simpl in *; try discriminate; [reflexivity|].
  rewrite IH by lia. reflexivity.
Qed.

(** The terms of a deviance: a frequency weight times a quantity that does
    not depend on it. *)
Lemma weighted_terms_add (t : R -> R -> option R) (y mu w1 w2 : list R) :
  List.length mu = List.length y ->
  List.length w1 = List.length y ->
  List.length w2 = List.length y ->
  Np.sum (Np.map3 (fun yi m w => v <- t yi m ;; Some (w * v))
            (y ++ y) (mu ++ mu) (w1 ++ w2)) =
  Np.sum (Np.map3 (fun yi m w => v <- t yi m ;; Some (w * v))
            y mu (Np.map2 Rplus w1 w2)).
Proof.
  intros Hm H1 H2. rewrite map3_app by assumption. rewrite sum_app.
  revert mu w1 w2 Hm H1 H2.
  induction y as [|yi y IH]; intros [|m mu] [|a w1] [|b w2] Hm H1 H2;
    simpl in *; try discriminate.
  - cbn [bind]. f_equal. ring.
  - destruct (t yi m) as [v|]; cbn [bind]; [|reflexivity].
    rewrite <- (IH mu w1 w2) by lia.
    destruct (Np.sum (Np.map3 _ y mu w1)); cbn [bind]; [|reflexivity].
    destruct (Np.sum (Np.map3 _ y mu w2)); cbn [bind]; [|reflexivity].
    f_equal. ring.
Qed.

(** X24.  Frequency weights count replications.  For every family (a
    Binomial one with [n] the scalar 1), the deviance of a data set listed
    twice, with frequency weights [w1] for the first copy and [w2] for the
    second, is the deviance of the data set listed once with the weights
    [w1 + w2]: the same number, or non-finite in both cases. *)
Theorem freq_weights_replicate (self : F.family) (y mu w1 w2 : list R)
  (scale : R) :
  (F.kind_of self = F.Binomial -> F.n_is_one self = Some true) ->
  List.length mu = List.length y ->
  List.length w1 = List.length y ->
  List.length w2 = List.length y ->
  F.deviance self (y ++ y) (mu ++ mu) (w1 ++ w2) scale =
  F.deviance self y mu (Np.map2 Rplus w1 w2) scale.
Proof.
  intros Hn Hm H1 H2. unfold F.deviance.
  destruct (F.kind_of self).
  - reflexivity.
  - unfold F.Poisson_deviance.
    rewrite (map3_ext _ (fun yi m w =>
               v <- (q <- Np.div yi m ;;
                     lg <- Np.log (F.Poisson_clean q) ;; Some (yi * lg)) ;;
               Some (w * v)) (y ++ y)).
    2:{ intros yi m w. destruct (Np.div yi m); cbn [bind]; [|reflexivity].
        destruct (Np.log _); cbn [bind]; [f_equal; ring|reflexivity]. }
    rewrite (map3_ext _ (fun yi m w =>
               v <- (q <- Np.div yi m ;;
                     lg <- Np.log (F.Poisson_clean q) ;; Some (yi * lg)) ;;
               Some (w * v)) y).
    2:{ intros yi m w. destruct (Np.div yi m); cbn [bind]; [|reflexivity].
        destruct (Np.log _); cbn [bind]; [f_equal; ring|reflexivity]. }
    rewrite weighted_terms_add by assumption. reflexivity.
  - unfold F.Poisson_deviance.
    rewrite (map3_ext _ (fun yi m w =>
               v <- (q <- Np.div yi m ;;
                     lg <- Np.log (F.Poisson_clean q) ;; Some (yi * lg)) ;;
               Some (w * v)) (y ++ y)).
    2:{ intros yi m w. destruct (Np.div yi m); cbn [bind]; [|reflexivity].
        destruct (Np.log _); cbn [bind]; [f_equal; ring|reflexivity]. }
    rewrite (map3_ext _ (fun yi m w =>
               v <- (q <- Np.div yi m ;;
                     lg <- Np.log (F.Poisson_clean q) ;; Some (yi * lg)) ;;
               Some (w * v)) y).
    2:{ intros yi m w. destruct (Np.div yi m); cbn [bind]; [|reflexivity].
        destruct (Np.log _); cbn [bind]; [f_equal; ring|reflexivity]. }
    rewrite weighted_terms_add by assumption. reflexivity.
  - unfold F.Gaussian_deviance.
    rewrite (weighted_terms_add (fun yi m => Some ((yi - m) ^ 2)))
      by assumption.
    reflexivity.
  - unfold F.Gamma_deviance.
    rewrite (map3_ext _ (fun yi m w =>
               v <- (q <- Np.div yi m ;;
                     r <- Np.div (yi - m) m ;;
                     lg <- Np.log (F.Gamma_clean q) ;; Some (r - lg)) ;;
               Some (w * v)) (y ++ y)).
    2:{ intros yi m w. destruct (Np.div yi m); cbn [bind]; [|reflexivity].
        destruct (Np.div (yi - m) m); cbn [bind]; [|reflexivity].
        destruct (Np.log _); cbn [bind]; reflexivity. }
    rewrite (map3_ext _ (fun yi m w =>
               v <- (q <- Np.div yi m ;;
                     r <- Np.div (yi - m) m ;;
                     lg <- Np.log (F.Gamma_clean q) ;; Some (r - lg)) ;;
               Some (w * v)) y).
    2:{ intros yi m w. destruct (Np.div yi m); cbn [bind]; [|reflexivity].
        destruct (Np.div (yi - m) m); cbn [bind]; [|reflexivity].
        destruct (Np.log _); cbn [bind]; reflexivity. }
    rewrite weighted_terms_add by assumption. reflexivity.
  - unfold F.Binomial_deviance. rewrite (Hn eq_refl). cbn [bind].
    rewrite (map3_ext _ (fun yi m w =>
               v <- (l1 <- Np.log (m + F.tiny) ;;
                     l0 <- Np.log (1 - m + F.tiny) ;;
                     Some (F.equal_one yi * l1 +
                           (1 - F.equal_one yi) * l0)) ;;
               Some (w * v)) (y ++ y)).
    2:{ intros yi m w. destruct (Np.log (m + F.tiny)); cbn [bind];
          [|reflexivity].
        destruct (Np.log _); cbn [bind]; [f_equal; ring|reflexivity]. }
    rewrite (map3_ext _ (fun yi m w =>
               v <- (l1 <- Np.log (m + F.tiny) ;;
                     l0 <- Np.log (1 - m + F.tiny) ;;
                     Some (F.equal_one yi * l1 +
                           (1 - F.equal_one yi) * l0)) ;;
               Some (w * v)) y).
    2:{ intros yi m w. destruct (Np.log (m + F.tiny)); cbn [bind];
          [|reflexivity].
        destruct (Np.log _); cbn [bind]; [f_equal; ring|reflexivity]. }
    rewrite weighted_terms_add by assumption. reflexivity.
Qed.

Lemma freq_weights_replicate_witness :
  let self := F.mkFamily F.Poisson None V.mu None in
  F.deviance self ([1; 3] ++ [1; 3]) ([2; 2] ++ [2; 2]) ([1; 1] ++ [1; 1]) 1 =
  F.deviance self [1; 3] [2; 2] (Np.map2 Rplus [1; 1] [1; 1]) 1.
Proof.
  intros self.
  apply (freq_weights_replicate self [1; 3] [2; 2] [1; 1] [1; 1] 1);
    try reflexivity.
  discriminate.
Defined.
